(** * Chat client of the trip planner: payload normalisation, send, speech
      scheduling, and the itinerary viewer.

    A shallow embedding of the page component (the helpers [stripCodeFence],
    [safeParseItinerary], [isItinerary], [googleMapsLink], the [send]
    operation with the speech scheduling around it, and the index arithmetic
    of [ItineraryView] and [ActivityItem]), followed by the properties proved
    about them. The Markdown renderer of the messages, the loading and the
    choice of the voices, the last reply and the route that passes a
    request on to the webhook are embedded as well.

    Strings are sequences of UTF-16 code units, as in the language the page
    is written in; a code unit is an [N]. *)

From Stdlib Require Import List Bool Arith NArith ZArith Lia String Ascii.
From Stdlib Require DecimalString.
Import ListNotations.

(* ===================================================================== *)
(** ** Strings of code units *)
(* ===================================================================== *)

Module Str.

Definition char := N.
Definition jsstring := list char.

(** An ASCII literal as a string of code units. *)
Definition lit (s : string) : jsstring :=
  map N_of_ascii (list_ascii_of_string s).

(** As [lit], with every apostrophe read as a double quote (code unit 34),
    so that JSON text can be written down inside a literal. *)
Definition qlit (s : string) : jsstring :=
  map (fun c => if N.eqb c 39 then 34%N else c) (lit s).

Definition LF : char := 10%N.
Definition CR : char := 13%N.

Fixpoint eqb (a b : jsstring) : bool :=
  match a, b with
  | [], [] => true
  | x :: a', y :: b' => N.eqb x y && eqb a' b'
  | _, _ => false
  end.

Definition is_empty (s : jsstring) : bool :=
  match s with [] => true | _ => false end.

(** White space and line terminators, the set [String.prototype.trim]
    removes. *)
Definition isWS (c : char) : bool :=
  ((9 <=? c) && (c <=? 13) || (c =? 32) || (c =? 160) || (c =? 5760)
   || (8192 <=? c) && (c <=? 8202) || (c =? 8232) || (c =? 8233)
   || (c =? 8239) || (c =? 8287) || (c =? 12288) || (c =? 65279))%N.

Fixpoint dropWhile (p : char -> bool) (s : jsstring) : jsstring :=
  match s with
  | [] => []
  | c :: s' => if p c then dropWhile p s' else s
  end.

Definition trimStart (s : jsstring) : jsstring := dropWhile isWS s.
Definition trimEnd (s : jsstring) : jsstring := rev (dropWhile isWS (rev s)).
Definition trim (s : jsstring) : jsstring := trimEnd (trimStart s).

Fixpoint startsWith (p s : jsstring) : bool :=
  match p, s with
  | [], _ => true
  | x :: p', y :: s' => N.eqb x y && startsWith p' s'
  | _ :: _, [] => false
  end.

Definition endsWith (p s : jsstring) : bool := startsWith (rev p) (rev s).

(** [s.split(/\r?\n/)]: a line feed, with the carriage return before it
    when there is one, separates two pieces; the result is never empty. *)
Fixpoint split_lines (s : jsstring) : list jsstring :=
  match s with
  | [] => [[]]
  | c :: s' =>
      let keep :=
        match split_lines s' with
        | l :: ls => (c :: l) :: ls
        | [] => [[c]]
        end in
      if N.eqb c LF then [] :: split_lines s'
      else if N.eqb c CR then
        match s' with
        | d :: s'' => if N.eqb d LF then [] :: split_lines s'' else keep
        | [] => keep
        end
      else keep
  end.

(** [lines.join(sep)] *)
Fixpoint join (sep : jsstring) (ls : list jsstring) : jsstring :=
  match ls with
  | [] => []
  | [l] => l
  | l :: ls' => l ++ sep ++ join sep ls'
  end.

(** [lines.shift()] and [lines.pop()], for the array that remains. *)
Definition shift (ls : list jsstring) : list jsstring := tl ls.
Definition pop (ls : list jsstring) : list jsstring := removelast ls.

(** Case-insensitive comparison of one code unit with an ASCII letter
    given in lower case, as the [i] flag of a regular expression without
    the [u] flag compares them. *)
Definition eq_ci (lower c : char) : bool :=
  (N.eqb c lower || N.eqb c (lower - 32))%N.

Fixpoint startsWith_ci (p s : jsstring) : bool :=
  match p, s with
  | [], _ => true
  | x :: p', y :: s' => eq_ci x y && startsWith_ci p' s'
  | _ :: _, [] => false
  end.

End Str.

Import Str.

(* ===================================================================== *)
(** ** Fence stripping *)
(* ===================================================================== *)

Definition fence : jsstring := lit "```".

(** The capture of the lazy group [([\s\S]*?)] followed by a line feed and a
    fence: the text before the first such closing, if there is one. *)
Fixpoint lazy_until_close (s : jsstring) : option jsstring :=
  if startsWith (LF :: fence) s then Some []
  else match s with
       | [] => None
       | c :: s' => option_map (cons c) (lazy_until_close s')
       end.

Definition after_tag (r : jsstring) : option jsstring :=
  match r with
  | c :: body => if N.eqb c LF then lazy_until_close body else None
  | [] => None
  end.

(** One attempt of [/```(?:json)?\n([\s\S]*?)\n```/i] at the start of [s]:
    the optional tag is tried first, and given up when the rest does not
    match with it. *)
Definition fence_match_here (s : jsstring) : option jsstring :=
  if startsWith fence s then
    let r := skipn 3 s in
    match (if startsWith_ci (lit "json") r then after_tag (skipn 4 r) else None) with
    | Some cap => Some cap
    | None => after_tag r
    end
  else None.

(** [trimmed.match(...)]: the leftmost match; the result is capture 1. *)
Fixpoint fence_match (s : jsstring) : option jsstring :=
  match fence_match_here s with
  | Some cap => Some cap
  | None => match s with
            | [] => None
            | _ :: s' => fence_match s'
            end
  end.

Definition stripCodeFence (input : jsstring) : jsstring :=
  let trimmed := trim input in
  if startsWith fence trimmed && endsWith fence trimmed then
    let lines := split_lines trimmed in
    let lines := shift lines in
    let lines := pop lines in
    trim (join [LF] lines)
  else
    match fence_match trimmed with
    | Some cap => trim cap
    | None => trimmed
    end.


(* ===================================================================== *)
(** ** JSON values and [JSON.parse] *)
(* ===================================================================== *)

Module Json.

(** A number is kept as the exact decimal value of its literal,
    [(-1)^neg * mant * 10^exp10]; the runtime rounds that value to the
    nearest double (ties to even). *)
Record number := Number { n_neg : bool; n_mant : N; n_exp10 : Z }.

(** Whether the double of the literal is zero: the value is zero, or so
    small that it rounds to zero, that is at most [2^-1075]. *)
Definition number_is_zero (n : number) : bool :=
  (n_mant n =? 0)%N ||
  (if (0 <=? n_exp10 n)%Z then false
   else (Z.of_N (n_mant n) * 2 ^ 1075 <=? 10 ^ (- n_exp10 n))%Z).

#[warnings="-register-all"] Inductive json :=
| JNull
| JBool (b : bool)
| JNumber (n : number)
| JString (s : jsstring)
| JArray (items : list json)
| JObject (members : list (jsstring * json)).

(** *** Objects: own properties in enumeration order *)

Definition is_digit (c : char) : bool := ((48 <=? c) && (c <=? 57))%N.

Fixpoint decimal_value (acc : N) (s : jsstring) : N :=
  match s with
  | [] => acc
  | c :: s' => decimal_value (acc * 10 + (c - 48)) s'
  end.

(** A key that is an array index (a canonical numeral below [2^32 - 1])
    is enumerated before the other keys, in numeric order. *)
Definition array_index (k : jsstring) : option N :=
  match k with
  | [] => None
  | c :: rest =>
      if forallb is_digit k && (negb (N.eqb c 48) || is_empty rest)
         && (List.length k <=? 10)%nat && (decimal_value 0 k <=? 4294967294)%N
      then Some (decimal_value 0 k) else None
  end.

Fixpoint has_key (k : jsstring) (m : list (jsstring * json)) : bool :=
  match m with
  | [] => false
  | (k', _) :: m' => Str.eqb k k' || has_key k m'
  end.

Fixpoint replace_key (k : jsstring) (v : json) (m : list (jsstring * json)) :=
  match m with
  | [] => []
  | (k', v') :: m' =>
      if Str.eqb k k' then (k', v) :: m' else (k', v') :: replace_key k v m'
  end.

(** A new index key goes before the first key that is not an index or is
    a larger index; a new ordinary key goes last. *)
Fixpoint insert_index (i : N) (k : jsstring) (v : json) (m : list (jsstring * json)) :=
  match m with
  | [] => [(k, v)]
  | (k', v') :: m' =>
      match array_index k' with
      | Some j => if (j <? i)%N then (k', v') :: insert_index i k v m'
                  else (k, v) :: m
      | None => (k, v) :: m
      end
  end.

(** Defining the property [k] with value [v]: an existing property keeps
    its place and takes the new value. *)
Definition obj_set (k : jsstring) (v : json) (m : list (jsstring * json)) :=
  if has_key k m then replace_key k v m
  else match array_index k with
       | Some i => insert_index i k v m
       | None => m ++ [(k, v)]
       end.

Fixpoint obj_get (k : jsstring) (m : list (jsstring * json)) : option json :=
  match m with
  | [] => None
  | (k', v) :: m' => if Str.eqb k k' then Some v else obj_get k m'
  end.

(** Reading the property [k] of a value, for a name [k] that is neither an
    array index nor [length] and that no prototype defines (the names read
    here are [meta], [itinerary], [output], [error] and the like):
    [None] is [undefined]. *)
Definition get (k : jsstring) (x : json) : option json :=
  match x with
  | JObject m => obj_get k m
  | _ => None
  end.

(** *** Tests of the language *)

Definition truthy (x : json) : bool :=
  match x with
  | JNull => false
  | JBool b => b
  | JNumber n => negb (number_is_zero n)
  | JString s => negb (is_empty s)
  | JArray _ | JObject _ => true
  end.

(** Truthiness of a value that may be [undefined]. *)
Definition truthy_opt (x : option json) : bool :=
  match x with Some v => truthy v | None => false end.

(** [typeof x === "object"] (true of [null] as well). *)
Definition typeof_object (x : json) : bool :=
  match x with
  | JNull | JArray _ | JObject _ => true
  | _ => false
  end.

Definition typeof_string (x : json) : bool :=
  match x with JString _ => true | _ => false end.

(** [Array.isArray(x)] for a value that may be [undefined]. *)
Definition isArray (x : option json) : bool :=
  match x with Some (JArray _) => true | _ => false end.

End Json.

Import Json.

(** *** Lexer

    The token grammar of JSON, as a machine that reads one code unit at a
    time. White space between tokens is space, tab, line feed and carriage
    return only. *)

Inductive token :=
| TLBrace | TRBrace | TLBrack | TRBrack | TColon | TComma
| TTrue | TFalse | TNull
| TNum (n : number)
| TStr (s : jsstring).

(** Where the machine is inside a number literal. *)
Inductive nphase := PMinus | PZero | PInt | PDot | PFrac | PE | PESign | PExp.

(** The digits read so far: sign, the integer and fraction digits as one
    numeral, the count of fraction digits, and the exponent. *)
Record numacc := NumAcc {
  a_neg : bool; a_mant : N; a_flen : N; a_eneg : bool; a_exp : N }.

Definition numacc_value (a : numacc) : number :=
  Number (a_neg a) (a_mant a)
         ((if a_eneg a then - Z.of_N (a_exp a) else Z.of_N (a_exp a))
          - Z.of_N (a_flen a)).

Inductive lstate :=
| LDefault
| LLit (rest : jsstring) (tok : token)
| LStr (acc : jsstring)
| LEsc (acc : jsstring)
| LHex (acc : jsstring) (k : nat) (v : N)
| LNum (ph : nphase) (a : numacc).

Definition is_json_ws (c : char) : bool :=
  ((c =? 32) || (c =? 9) || (c =? 10) || (c =? 13))%N.

Definition hex_value (c : char) : option N :=
  if ((48 <=? c) && (c <=? 57))%N then Some (c - 48)%N
  else if ((65 <=? c) && (c <=? 70))%N then Some (c - 55)%N
  else if ((97 <=? c) && (c <=? 102))%N then Some (c - 87)%N
  else None.

Definition push_digit (m : N) (c : char) : N := (m * 10 + (c - 48))%N.

(** The first code unit of a token, or white space. *)
Definition default_step (c : char) : option (list token * lstate) :=
  if is_json_ws c then Some ([], LDefault)
  else if (c =? 123)%N then Some ([TLBrace], LDefault)
  else if (c =? 125)%N then Some ([TRBrace], LDefault)
  else if (c =? 91)%N then Some ([TLBrack], LDefault)
  else if (c =? 93)%N then Some ([TRBrack], LDefault)
  else if (c =? 58)%N then Some ([TColon], LDefault)
  else if (c =? 44)%N then Some ([TComma], LDefault)
  else if (c =? 34)%N then Some ([], LStr [])
  else if (c =? 45)%N then Some ([], LNum PMinus (NumAcc true 0 0 false 0))
  else if (c =? 48)%N then Some ([], LNum PZero (NumAcc false 0 0 false 0))
  else if is_digit c then Some ([], LNum PInt (NumAcc false (c - 48) 0 false 0))
  else if (c =? 116)%N then Some ([], LLit (lit "rue") TTrue)
  else if (c =? 102)%N then Some ([], LLit (lit "alse") TFalse)
  else if (c =? 110)%N then Some ([], LLit (lit "ull") TNull)
  else None.

(** A number literal ends before [c]; [c] then starts what follows. *)
Definition end_number (a : numacc) (c : char) : option (list token * lstate) :=
  match default_step c with
  | Some (out, st) => Some (TNum (numacc_value a) :: out, st)
  | None => None
  end.

Definition is_e (c : char) : bool := ((c =? 101) || (c =? 69))%N.

Definition num_step (ph : nphase) (a : numacc) (c : char)
  : option (list token * lstate) :=
  let '(NumAcc neg m fl en e) := a in
  match ph with
  | PMinus =>
      if (c =? 48)%N then Some ([], LNum PZero a)
      else if is_digit c then Some ([], LNum PInt (NumAcc neg (c - 48) fl en e))
      else None
  | PZero =>
      if (c =? 46)%N then Some ([], LNum PDot a)
      else if is_e c then Some ([], LNum PE a)
      else end_number a c
  | PInt =>
      if is_digit c then Some ([], LNum PInt (NumAcc neg (push_digit m c) fl en e))
      else if (c =? 46)%N then Some ([], LNum PDot a)
      else if is_e c then Some ([], LNum PE a)
      else end_number a c
  | PDot =>
      if is_digit c then Some ([], LNum PFrac (NumAcc neg (push_digit m c) (fl + 1) en e))
      else None
  | PFrac =>
      if is_digit c then Some ([], LNum PFrac (NumAcc neg (push_digit m c) (fl + 1) en e))
      else if is_e c then Some ([], LNum PE a)
      else end_number a c
  | PE =>
      if (c =? 43)%N then Some ([], LNum PESign a)
      else if (c =? 45)%N then Some ([], LNum PESign (NumAcc neg m fl true e))
      else if is_digit c then Some ([], LNum PExp (NumAcc neg m fl en (c - 48)))
      else None
  | PESign =>
      if is_digit c then Some ([], LNum PExp (NumAcc neg m fl en (c - 48)))
      else None
  | PExp =>
      if is_digit c then Some ([], LNum PExp (NumAcc neg m fl en (push_digit e c)))
      else end_number a c
  end.

(** The code unit an escape letter stands for. *)
Definition escape_char (c : char) : option char :=
  if (c =? 34)%N then Some 34%N
  else if (c =? 92)%N then Some 92%N
  else if (c =? 47)%N then Some 47%N
  else if (c =? 98)%N then Some 8%N
  else if (c =? 102)%N then Some 12%N
  else if (c =? 110)%N then Some 10%N
  else if (c =? 114)%N then Some 13%N
  else if (c =? 116)%N then Some 9%N
  else None.

Definition lex_step (st : lstate) (c : char) : option (list token * lstate) :=
  match st with
  | LDefault => default_step c
  | LLit rest tok =>
      match rest with
      | [] => None
      | e :: rest' =>
          if N.eqb c e then
            match rest' with
            | [] => Some ([tok], LDefault)
            | _ => Some ([], LLit rest' tok)
            end
          else None
      end
  | LStr acc =>
      if (c =? 34)%N then Some ([TStr (rev acc)], LDefault)
      else if (c =? 92)%N then Some ([], LEsc acc)
      else if (c <? 32)%N then None
      else Some ([], LStr (c :: acc))
  | LEsc acc =>
      if (c =? 117)%N then Some ([], LHex acc 0 0%N)
      else match escape_char c with
           | Some d => Some ([], LStr (d :: acc))
           | None => None
           end
  | LHex acc k v =>
      match hex_value c with
      | Some d =>
          if (k =? 3)%nat then Some ([], LStr ((v * 16 + d)%N :: acc))
          else Some ([], LHex acc (S k) (v * 16 + d)%N)
      | None => None
      end
  | LNum ph a => num_step ph a c
  end.

(** What the end of the input means in each state. *)
Definition lex_end (st : lstate) : option (list token) :=
  match st with
  | LDefault => Some []
  | LNum (PZero | PInt | PFrac | PExp) a => Some [TNum (numacc_value a)]
  | _ => None
  end.

Fixpoint lex_go (st : lstate) (s : jsstring) : option (list token) :=
  match s with
  | [] => lex_end st
  | c :: s' =>
      match lex_step st c with
      | Some (out, st') => option_map (app out) (lex_go st' s')
      | None => None
      end
  end.

Definition lex (s : jsstring) : option (list token) := lex_go LDefault s.

(** *** Parser

    The value grammar over tokens, as a machine with a stack of the
    containers that are still open. *)

Inductive frame :=
| FArr (done : list json)                               (* items so far, last first *)
| FObj (members : list (jsstring * json)) (key : jsstring). (* awaiting the value of [key] *)

Inductive pstate :=
| PValue (k : list frame)                 (* a value must follow *)
| PArrFirst (k : list frame)              (* after an opening bracket *)
| PObjFirst (k : list frame)              (* after an opening brace *)
| PObjKey (m : list (jsstring * json)) (k : list frame)  (* after a comma in an object *)
| PColon (m : list (jsstring * json)) (key : jsstring) (k : list frame)
| PAfter (v : json) (k : list frame).     (* a value is complete *)

(** A token where a value may start. *)
Definition value_start (t : token) (k : list frame) : option pstate :=
  match t with
  | TLBrace => Some (PObjFirst k)
  | TLBrack => Some (PArrFirst k)
  | TTrue => Some (PAfter (JBool true) k)
  | TFalse => Some (PAfter (JBool false) k)
  | TNull => Some (PAfter JNull k)
  | TNum n => Some (PAfter (JNumber n) k)
  | TStr s => Some (PAfter (JString s) k)
  | TRBrace | TRBrack | TColon | TComma => None
  end.

Definition parse_step (st : pstate) (t : token) : option pstate :=
  match st with
  | PValue k => value_start t k
  | PArrFirst k =>
      match t with
      | TRBrack => Some (PAfter (JArray []) k)
      | _ => value_start t (FArr [] :: k)
      end
  | PObjFirst k =>
      match t with
      | TRBrace => Some (PAfter (JObject []) k)
      | TStr s => Some (PColon [] s k)
      | _ => None
      end
  | PObjKey m k =>
      match t with
      | TStr s => Some (PColon m s k)
      | _ => None
      end
  | PColon m key k =>
      match t with
      | TColon => Some (PValue (FObj m key :: k))
      | _ => None
      end
  | PAfter v k =>
      match k with
      | [] => None
      | FArr done :: k' =>
          match t with
          | TComma => Some (PValue (FArr (v :: done) :: k'))
          | TRBrack => Some (PAfter (JArray (rev (v :: done))) k')
          | _ => None
          end
      | FObj m key :: k' =>
          match t with
          | TComma => Some (PObjKey (obj_set key v m) k')
          | TRBrace => Some (PAfter (JObject (obj_set key v m)) k')
          | _ => None
          end
      end
  end.

Fixpoint parse_go (st : pstate) (ts : list token) : option json :=
  match ts with
  | [] => match st with
          | PAfter v [] => Some v
          | _ => None
          end
  | t :: ts' =>
      match parse_step st t with
      | Some st' => parse_go st' ts'
      | None => None
      end
  end.

(** [JSON.parse(s)]: [None] is the [SyntaxError] it throws. *)
Definition JSON_parse (s : jsstring) : option json :=
  match lex s with
  | Some ts => parse_go (PValue []) ts
  | None => None
  end.

(* ===================================================================== *)
(** ** The payload normaliser *)
(* ===================================================================== *)

Definition isItinerary (x : json) : bool :=
  if negb (truthy x) || negb (typeof_object x) then false
  else if negb (truthy_opt (get (lit "meta") x))
          || negb (truthy_opt (get (lit "itinerary") x)) then false
  else if negb (isArray (get (lit "itinerary") x)) then false
  else true.

(** [None] is the [null] of the source; the exception of [JSON.parse] is
    caught and gives [null] as well. *)
Definition safeParseItinerary (raw : jsstring) : option json :=
  let s := stripCodeFence raw in
  match JSON_parse s with
  | Some obj => if isItinerary obj then Some obj else None
  | None => None
  end.

(* ===================================================================== *)
(** ** What the runtime provides *)
(* ===================================================================== *)

(** The kinds of [TypeError] and [URIError] the engine raises in the code
    modelled here. *)
Inductive engine_error :=
| NotPrimitive      (* an object cannot be converted to a primitive value *)
| NullProperty      (* a property of [null] or [undefined] is read *)
| NotIterable       (* [for ... of] over a value that is not iterable *)
| MalformedURI.     (* [encodeURIComponent] of an unpaired surrogate *)

(** Conversions of the engine that are not part of the page: the decimal
    text of a double, the locale's rendering of a date, the message text of
    an engine error. [stripMarkdown] of the page, a chain of regular
    expression replacements from string to string, is kept uninterpreted
    as well: only the emptiness of the text to read matters below. *)
Record Runtime := {
  Number_toString : number -> jsstring;
  toLocaleDateString : json -> jsstring;
  engine_message : engine_error -> jsstring;
  stripMarkdown : jsstring -> jsstring }.

(** A thrown value: an [Error] with its message, or something else. *)
Inductive thrown :=
| ErrorObj (message : jsstring)
| NotAnError.

Inductive outcome (A : Type) :=
| Ret (a : A)
| Throw (e : thrown).
Arguments Ret {A} a.
Arguments Throw {A} e.

Definition bind {A B} (x : outcome A) (f : A -> outcome B) : outcome B :=
  match x with
  | Ret a => f a
  | Throw e => Throw e
  end.

Notation "x <- c1 ;; c2" := (bind c1 (fun x => c2))
  (at level 61, c1 at next level, right associativity).

Section Conversions.

Variable rt : Runtime.

Definition raise {A} (k : engine_error) : outcome A :=
  Throw (ErrorObj (engine_message rt k)).

(** [ToString] of a parsed value. An object converts through
    [Object.prototype.toString] unless a property [toString] of its own,
    which is not callable, hides it; an array joins its items with commas,
    [null] items as the empty string. *)
Fixpoint ToString (v : json) : outcome jsstring :=
  match v with
  | JNull => Ret (lit "null")
  | JBool true => Ret (lit "true")
  | JBool false => Ret (lit "false")
  | JNumber n => Ret (Number_toString rt n)
  | JString s => Ret s
  | JArray items =>
      (fix join_items (l : list json) : outcome jsstring :=
         match l with
         | [] => Ret []
         | x :: l' =>
             a <- match x with JNull => Ret [] | _ => ToString x end ;;
             match l' with
             | [] => Ret a
             | _ => b <- join_items l' ;; Ret (a ++ lit "," ++ b)
             end
         end) items
  | JObject m =>
      if has_key (lit "toString") m then raise NotPrimitive
      else Ret (lit "[object Object]")
  end.

(** A substitution [${x}] of a template literal. *)
Definition template (x : option json) : outcome jsstring :=
  match x with
  | None => Ret (lit "undefined")
  | Some v => ToString v
  end.

(** [x.k] where [x] may be [null] or [undefined]. *)
Definition getp (k : jsstring) (x : option json) : outcome (option json) :=
  match x with
  | None | Some JNull => raise NullProperty
  | Some v => Ret (get k v)
  end.

End Conversions.

(** Decimal text of a natural number, as [${res.status}] gives it. *)
Definition N_toString (n : N) : jsstring :=
  lit (DecimalString.NilZero.string_of_uint (N.to_uint n)).

(* ===================================================================== *)
(** ** [JSON.stringify(x, null, 2)] *)
(* ===================================================================== *)

Definition is_lead (c : char) : bool := ((55296 <=? c) && (c <=? 56319))%N.
Definition is_trail (c : char) : bool := ((56320 <=? c) && (c <=? 57343))%N.

Definition hex_lower (d : N) : char := (if d <? 10 then 48 + d else 87 + d)%N.
Definition hex_upper (d : N) : char := (if d <? 10 then 48 + d else 55 + d)%N.

(** [\uXXXX], lower case digits. *)
Definition unicode_escape (c : char) : jsstring :=
  lit "\u" ++ [hex_lower (c / 4096 mod 16); hex_lower (c / 256 mod 16);
               hex_lower (c / 16 mod 16); hex_lower (c mod 16)]%N.

Fixpoint quote_body (s : jsstring) : jsstring :=
  match s with
  | [] => []
  | c :: s' =>
      if (c =? 8)%N then lit "\b" ++ quote_body s'
      else if (c =? 9)%N then lit "\t" ++ quote_body s'
      else if (c =? 10)%N then lit "\n" ++ quote_body s'
      else if (c =? 12)%N then lit "\f" ++ quote_body s'
      else if (c =? 13)%N then lit "\r" ++ quote_body s'
      else if (c =? 34)%N then [92; 34]%N ++ quote_body s'
      else if (c =? 92)%N then [92; 92]%N ++ quote_body s'
      else if (c <? 32)%N then unicode_escape c ++ quote_body s'
      else if is_lead c then
        match s' with
        | d :: s'' =>
            if is_trail d then c :: d :: quote_body s''
            else unicode_escape c ++ quote_body s'
        | [] => unicode_escape c
        end
      else if is_trail c then unicode_escape c ++ quote_body s'
      else c :: quote_body s'
  end.

Definition QuoteJSONString (s : jsstring) : jsstring :=
  [34%N] ++ quote_body s ++ [34%N].

(** A double is infinite when the literal is at least [2^1024 - 2^970]. *)
Definition number_overflows (n : number) : bool :=
  let bound := (2 ^ 1024 - 2 ^ 970)%Z in
  if (0 <=? n_exp10 n)%Z
  then (bound <=? Z.of_N (n_mant n) * 10 ^ n_exp10 n)%Z
  else (bound * 10 ^ (- n_exp10 n) <=? Z.of_N (n_mant n))%Z.

Section Stringify.

Variable rt : Runtime.

Definition gap : jsstring := lit "  ".

(** [indent] is the indentation of the line the value starts on. *)
Fixpoint stringify (indent : jsstring) (v : json) : jsstring :=
  let inner := indent ++ gap in
  let sep := lit "," ++ [LF] ++ inner in
  match v with
  | JNull => lit "null"
  | JBool true => lit "true"
  | JBool false => lit "false"
  | JNumber n => if number_overflows n then lit "null" else Number_toString rt n
  | JString s => QuoteJSONString s
  | JArray items =>
      match items with
      | [] => lit "[]"
      | _ =>
          lit "[" ++ [LF] ++ inner ++
          (fix each (l : list json) : jsstring :=
             match l with
             | [] => []
             | x :: l' =>
                 stringify inner x ++
                 match l' with [] => [] | _ => sep ++ each l' end
             end) items
          ++ [LF] ++ indent ++ lit "]"
      end
  | JObject m =>
      match m with
      | [] => lit "{}"
      | _ =>
          lit "{" ++ [LF] ++ inner ++
          (fix each (l : list (jsstring * json)) : jsstring :=
             match l with
             | [] => []
             | (k, x) :: l' =>
                 QuoteJSONString k ++ lit ": " ++ stringify inner x ++
                 match l' with [] => [] | _ => sep ++ each l' end
             end) m
          ++ [LF] ++ indent ++ lit "}"
      end
  end.

Definition JSON_stringify2 (v : json) : jsstring := stringify [] v.

End Stringify.

(* ===================================================================== *)
(** ** Map links *)
(* ===================================================================== *)

(** The code units [encodeURIComponent] leaves as they are: letters, digits
    and [- _ . ! ~ * ' ( )]. *)
Definition uri_unreserved (c : char) : bool :=
  ((65 <=? c) && (c <=? 90) || (97 <=? c) && (c <=? 122)
   || (48 <=? c) && (c <=? 57)
   || (c =? 45) || (c =? 95) || (c =? 46) || (c =? 33) || (c =? 126)
   || (c =? 42) || (c =? 39) || (c =? 40) || (c =? 41))%N.

Definition percent (b : N) : jsstring :=
  [37; hex_upper (b / 16); hex_upper (b mod 16)]%N.

(** The UTF-8 octets of a code point, each percent-encoded. *)
Definition percent_utf8 (v : N) : jsstring :=
  (if v <? 128 then percent v
   else if v <? 2048 then percent (192 + v / 64) ++ percent (128 + v mod 64)
   else if v <? 65536 then
     percent (224 + v / 4096) ++ percent (128 + v / 64 mod 64)
     ++ percent (128 + v mod 64)
   else
     percent (240 + v / 262144) ++ percent (128 + v / 4096 mod 64)
     ++ percent (128 + v / 64 mod 64) ++ percent (128 + v mod 64))%N.

(** [None] is the [URIError] raised at a surrogate without its pair. *)
Fixpoint encodeURIComponent (s : jsstring) : option jsstring :=
  match s with
  | [] => Some []
  | c :: s' =>
      if uri_unreserved c then option_map (cons c) (encodeURIComponent s')
      else if is_trail c then None
      else if is_lead c then
        match s' with
        | d :: s'' =>
            if is_trail d then
              option_map (app (percent_utf8 ((c - 55296) * 1024 + (d - 56320) + 65536)))
                         (encodeURIComponent s'')
            else None
        | [] => None
        end
      else option_map (app (percent_utf8 c)) (encodeURIComponent s')
  end.

(** [Activity["location"]]; an absent field ([undefined], or [null]) is
    [None]. *)
Record Location := {
  loc_name : option jsstring;
  loc_address : option jsstring;
  loc_lat : option number;
  loc_lon : option number;
  loc_place_id : option jsstring }.

(** Truthiness of an optional string field. *)
Definition nonempty (x : option jsstring) : bool :=
  match x with
  | Some (_ :: _) => true
  | _ => false
  end.

Definition coord_prefix : jsstring := lit "https://maps.google.com/?q=".
Definition search_prefix : jsstring :=
  lit "https://www.google.com/maps/search/?api=1&query=".

Section MapLink.

Variable rt : Runtime.

Definition search_link (q : option jsstring) : outcome (option jsstring) :=
  match q with
  | Some text =>
      match encodeURIComponent text with
      | Some enc => Ret (Some (search_prefix ++ enc))
      | None => raise rt MalformedURI
      end
  | None => Ret None
  end.

(** The result [None] is [undefined]: no link. *)
Definition googleMapsLink (loc : option Location) : outcome (option jsstring) :=
  match loc with
  | None => Ret None
  | Some loc =>
      match loc_lat loc, loc_lon loc with
      | Some lat, Some lon =>
          Ret (Some (coord_prefix ++ Number_toString rt lat ++ lit ","
                     ++ Number_toString rt lon))
      | _, _ =>
          if nonempty (loc_name loc) then search_link (loc_name loc)
          else if nonempty (loc_address loc) then search_link (loc_address loc)
          else Ret None
      end
  end.

End MapLink.

(* ===================================================================== *)
(** ** Day and image navigation *)
(* ===================================================================== *)

Module Viewer.

(** [ItineraryView]: the day index and the two buttons. [len] is
    [days.length]. *)
Definition dayIndex0 : Z := 0.

Definition prevDay (i : Z) : Z := Z.max 0 (i - 1).
Definition nextDay (len : Z) (i : Z) : Z := Z.min (len - 1) (i + 1).

Definition prevDisabled (i : Z) : bool := (i =? 0)%Z.
Definition nextDisabled (len : Z) (i : Z) : bool := (len - 1 <=? i)%Z.

(** A click reaches the handler only when the button is not disabled. *)
Definition clickPrev (i : Z) : Z := if prevDisabled i then i else prevDay i.
Definition clickNext (len : Z) (i : Z) : Z :=
  if nextDisabled len i then i else nextDay len i.

Inductive nav := Prev | Next.

Definition click (len : Z) (i : Z) (b : nav) : Z :=
  match b with
  | Prev => clickPrev i
  | Next => clickNext len i
  end.

(** The index after a sequence of clicks, from the initial one. *)
Definition navigate (len : Z) (clicks : list nav) : Z :=
  fold_left (click len) clicks dayIndex0.

(** [days[dayIndex]]: [None] is [undefined]. *)
Definition currentDay {A} (days : list A) (i : Z) : option A :=
  if (i <? 0)%Z then None else nth_error days (Z.to_nat i).

(** [ActivityItem]: the image index. The remainder [%] takes the sign of
    the dividend, as [Z.rem] does. *)
Definition safeIndex (len : Z) (n : Z) : Z :=
  if (len =? 0)%Z then 0 else Z.rem (Z.rem n len + len) len.

Definition idx0 : Z := 0.
Definition prevImage (len : Z) (i : Z) : Z := safeIndex len (i - 1).
Definition nextImage (len : Z) (i : Z) : Z := safeIndex len (i + 1).

Definition hasImages {A} (imgs : list A) : bool := (0 <? Z.of_nat (List.length imgs))%Z.

(** [hasImages ? imgs[safeIndex(idx)] : undefined] *)
Definition currentImage {A} (imgs : list A) (idx : Z) : option A :=
  if hasImages imgs
  then nth_error imgs (Z.to_nat (safeIndex (Z.of_nat (List.length imgs)) idx))
  else None.

(** What the image column of an activity shows. *)
Inductive image_column (A : Type) :=
| Gallery (src : option A) (buttons : bool) (position : Z)
| Placeholder.
Arguments Gallery {A} src buttons position.
Arguments Placeholder {A}.

Definition imageColumn {A} (imgs : list A) (idx : Z) : image_column A :=
  let len := Z.of_nat (List.length imgs) in
  if hasImages imgs
  then Gallery (currentImage imgs idx) (1 <? len)%Z (safeIndex len idx + 1)
  else Placeholder.

End Viewer.

(* ===================================================================== *)
(** ** The chat page: state, send, speech *)
(* ===================================================================== *)

Inductive Role := user | assistant | error.

(** The [itinerary] of a message is the parsed payload itself. *)
Record ChatMessage := {
  msg_id : jsstring;
  msg_role : Role;
  msg_content : jsstring;
  msg_itinerary : option json }.

(** The result of [fetch] followed by [res.json()]: the promise rejects, or
    a response arrives with its status and a body that parses ([Some]) or
    does not ([None]). *)
Inductive fetch_result :=
| Rejected (e : thrown)
| Responded (status : N) (body : option json).

(** [res.ok] *)
Definition res_ok (status : N) : bool := ((200 <=? status) && (status <=? 299))%N.

(** What a timer runs when it fires. *)
Inductive timer_cb :=
| CbScheduleSpeak (toSpeak : jsstring)   (* [scheduleSpeak] of a reply *)
| CbTyping (text : jsstring).            (* the read-as-you-type closure *)

Record timer := { t_id : nat; t_delay : N; t_cb : timer_cb }.

(** A call of [send] that awaits its response, with the values its closure
    holds. *)
Record inflight := { f_input : jsstring; f_autoRead : bool; f_tts : bool }.

(** Who asked the engine to speak. *)
Inductive speech_source := SrcReply | SrcTyping | SrcError | SrcVisible.

(** An entry of the history of utterances: who, what, and whether the
    recognition flag was set at that moment. *)
Record spoken_entry := {
  sp_source : speech_source; sp_text : jsstring; sp_listening : bool }.

Record State := {
  messages : list ChatMessage                (* the conversation *);
  message : jsstring                         (* the input field *);
  loading : bool                             (* a send is outstanding *);
  autoRead : bool                            (* the auto-read option *);
  ttsSupported : bool                        (* speech synthesis exists *);
  sttSupported : bool                        (* speech recognition exists *);
  listening : bool                           (* the recognition flag *);
  listeningRef : bool                        (* its copy for timers *);
  readDelayAfterMicRef : bool                (* a recognition session has just ended *);
  pendingSpeakRef : option nat               (* the timer of the scheduled read *);
  typingTimer : option nat                   (* the timer of the read-as-you-type effect *);
  timers : list timer                        (* timers set, not yet fired or cleared *);
  nextTimerId : nat                          (* the next timer id *);
  requests : list inflight                   (* sends awaiting their response *);
  recActive : bool                           (* a recognition session is running in the engine *);
  finalTranscript : jsstring                 (* the session buffer *);
  utterance : option (speech_source * jsstring) (* what the engine is speaking *);
  spoken : list spoken_entry                 (* every utterance handed to the engine *) }.

Definition set_messages (v : list ChatMessage) (s : State) : State :=
  {| messages := v;
     message := message s;
     loading := loading s;
     autoRead := autoRead s;
     ttsSupported := ttsSupported s;
     sttSupported := sttSupported s;
     listening := listening s;
     listeningRef := listeningRef s;
     readDelayAfterMicRef := readDelayAfterMicRef s;
     pendingSpeakRef := pendingSpeakRef s;
     typingTimer := typingTimer s;
     timers := timers s;
     nextTimerId := nextTimerId s;
     requests := requests s;
     recActive := recActive s;
     finalTranscript := finalTranscript s;
     utterance := utterance s;
     spoken := spoken s |}.

Definition set_message (v : jsstring) (s : State) : State :=
  {| messages := messages s;
     message := v;
     loading := loading s;
     autoRead := autoRead s;
     ttsSupported := ttsSupported s;
     sttSupported := sttSupported s;
     listening := listening s;
     listeningRef := listeningRef s;
     readDelayAfterMicRef := readDelayAfterMicRef s;
     pendingSpeakRef := pendingSpeakRef s;
     typingTimer := typingTimer s;
     timers := timers s;
     nextTimerId := nextTimerId s;
     requests := requests s;
     recActive := recActive s;
     finalTranscript := finalTranscript s;
     utterance := utterance s;
     spoken := spoken s |}.

Definition set_loading (v : bool) (s : State) : State :=
  {| messages := messages s;
     message := message s;
     loading := v;
     autoRead := autoRead s;
     ttsSupported := ttsSupported s;
     sttSupported := sttSupported s;
     listening := listening s;
     listeningRef := listeningRef s;
     readDelayAfterMicRef := readDelayAfterMicRef s;
     pendingSpeakRef := pendingSpeakRef s;
     typingTimer := typingTimer s;
     timers := timers s;
     nextTimerId := nextTimerId s;
     requests := requests s;
     recActive := recActive s;
     finalTranscript := finalTranscript s;
     utterance := utterance s;
     spoken := spoken s |}.

Definition set_autoRead (v : bool) (s : State) : State :=
  {| messages := messages s;
     message := message s;
     loading := loading s;
     autoRead := v;
     ttsSupported := ttsSupported s;
     sttSupported := sttSupported s;
     listening := listening s;
     listeningRef := listeningRef s;
     readDelayAfterMicRef := readDelayAfterMicRef s;
     pendingSpeakRef := pendingSpeakRef s;
     typingTimer := typingTimer s;
     timers := timers s;
     nextTimerId := nextTimerId s;
     requests := requests s;
     recActive := recActive s;
     finalTranscript := finalTranscript s;
     utterance := utterance s;
     spoken := spoken s |}.

Definition set_ttsSupported (v : bool) (s : State) : State :=
  {| messages := messages s;
     message := message s;
     loading := loading s;
     autoRead := autoRead s;
     ttsSupported := v;
     sttSupported := sttSupported s;
     listening := listening s;
     listeningRef := listeningRef s;
     readDelayAfterMicRef := readDelayAfterMicRef s;
     pendingSpeakRef := pendingSpeakRef s;
     typingTimer := typingTimer s;
     timers := timers s;
     nextTimerId := nextTimerId s;
     requests := requests s;
     recActive := recActive s;
     finalTranscript := finalTranscript s;
     utterance := utterance s;
     spoken := spoken s |}.

Definition set_sttSupported (v : bool) (s : State) : State :=
  {| messages := messages s;
     message := message s;
     loading := loading s;
     autoRead := autoRead s;
     ttsSupported := ttsSupported s;
     sttSupported := v;
     listening := listening s;
     listeningRef := listeningRef s;
     readDelayAfterMicRef := readDelayAfterMicRef s;
     pendingSpeakRef := pendingSpeakRef s;
     typingTimer := typingTimer s;
     timers := timers s;
     nextTimerId := nextTimerId s;
     requests := requests s;
     recActive := recActive s;
     finalTranscript := finalTranscript s;
     utterance := utterance s;
     spoken := spoken s |}.

Definition set_listening (v : bool) (s : State) : State :=
  {| messages := messages s;
     message := message s;
     loading := loading s;
     autoRead := autoRead s;
     ttsSupported := ttsSupported s;
     sttSupported := sttSupported s;
     listening := v;
     listeningRef := listeningRef s;
     readDelayAfterMicRef := readDelayAfterMicRef s;
     pendingSpeakRef := pendingSpeakRef s;
     typingTimer := typingTimer s;
     timers := timers s;
     nextTimerId := nextTimerId s;
     requests := requests s;
     recActive := recActive s;
     finalTranscript := finalTranscript s;
     utterance := utterance s;
     spoken := spoken s |}.

Definition set_listeningRef (v : bool) (s : State) : State :=
  {| messages := messages s;
     message := message s;
     loading := loading s;
     autoRead := autoRead s;
     ttsSupported := ttsSupported s;
     sttSupported := sttSupported s;
     listening := listening s;
     listeningRef := v;
     readDelayAfterMicRef := readDelayAfterMicRef s;
     pendingSpeakRef := pendingSpeakRef s;
     typingTimer := typingTimer s;
     timers := timers s;
     nextTimerId := nextTimerId s;
     requests := requests s;
     recActive := recActive s;
     finalTranscript := finalTranscript s;
     utterance := utterance s;
     spoken := spoken s |}.

Definition set_readDelayAfterMicRef (v : bool) (s : State) : State :=
  {| messages := messages s;
     message := message s;
     loading := loading s;
     autoRead := autoRead s;
     ttsSupported := ttsSupported s;
     sttSupported := sttSupported s;
     listening := listening s;
     listeningRef := listeningRef s;
     readDelayAfterMicRef := v;
     pendingSpeakRef := pendingSpeakRef s;
     typingTimer := typingTimer s;
     timers := timers s;
     nextTimerId := nextTimerId s;
     requests := requests s;
     recActive := recActive s;
     finalTranscript := finalTranscript s;
     utterance := utterance s;
     spoken := spoken s |}.

Definition set_pendingSpeakRef (v : option nat) (s : State) : State :=
  {| messages := messages s;
     message := message s;
     loading := loading s;
     autoRead := autoRead s;
     ttsSupported := ttsSupported s;
     sttSupported := sttSupported s;
     listening := listening s;
     listeningRef := listeningRef s;
     readDelayAfterMicRef := readDelayAfterMicRef s;
     pendingSpeakRef := v;
     typingTimer := typingTimer s;
     timers := timers s;
     nextTimerId := nextTimerId s;
     requests := requests s;
     recActive := recActive s;
     finalTranscript := finalTranscript s;
     utterance := utterance s;
     spoken := spoken s |}.

Definition set_typingTimer (v : option nat) (s : State) : State :=
  {| messages := messages s;
     message := message s;
     loading := loading s;
     autoRead := autoRead s;
     ttsSupported := ttsSupported s;
     sttSupported := sttSupported s;
     listening := listening s;
     listeningRef := listeningRef s;
     readDelayAfterMicRef := readDelayAfterMicRef s;
     pendingSpeakRef := pendingSpeakRef s;
     typingTimer := v;
     timers := timers s;
     nextTimerId := nextTimerId s;
     requests := requests s;
     recActive := recActive s;
     finalTranscript := finalTranscript s;
     utterance := utterance s;
     spoken := spoken s |}.

Definition set_timers (v : list timer) (s : State) : State :=
  {| messages := messages s;
     message := message s;
     loading := loading s;
     autoRead := autoRead s;
     ttsSupported := ttsSupported s;
     sttSupported := sttSupported s;
     listening := listening s;
     listeningRef := listeningRef s;
     readDelayAfterMicRef := readDelayAfterMicRef s;
     pendingSpeakRef := pendingSpeakRef s;
     typingTimer := typingTimer s;
     timers := v;
     nextTimerId := nextTimerId s;
     requests := requests s;
     recActive := recActive s;
     finalTranscript := finalTranscript s;
     utterance := utterance s;
     spoken := spoken s |}.

Definition set_nextTimerId (v : nat) (s : State) : State :=
  {| messages := messages s;
     message := message s;
     loading := loading s;
     autoRead := autoRead s;
     ttsSupported := ttsSupported s;
     sttSupported := sttSupported s;
     listening := listening s;
     listeningRef := listeningRef s;
     readDelayAfterMicRef := readDelayAfterMicRef s;
     pendingSpeakRef := pendingSpeakRef s;
     typingTimer := typingTimer s;
     timers := timers s;
     nextTimerId := v;
     requests := requests s;
     recActive := recActive s;
     finalTranscript := finalTranscript s;
     utterance := utterance s;
     spoken := spoken s |}.

Definition set_requests (v : list inflight) (s : State) : State :=
  {| messages := messages s;
     message := message s;
     loading := loading s;
     autoRead := autoRead s;
     ttsSupported := ttsSupported s;
     sttSupported := sttSupported s;
     listening := listening s;
     listeningRef := listeningRef s;
     readDelayAfterMicRef := readDelayAfterMicRef s;
     pendingSpeakRef := pendingSpeakRef s;
     typingTimer := typingTimer s;
     timers := timers s;
     nextTimerId := nextTimerId s;
     requests := v;
     recActive := recActive s;
     finalTranscript := finalTranscript s;
     utterance := utterance s;
     spoken := spoken s |}.

Definition set_recActive (v : bool) (s : State) : State :=
  {| messages := messages s;
     message := message s;
     loading := loading s;
     autoRead := autoRead s;
     ttsSupported := ttsSupported s;
     sttSupported := sttSupported s;
     listening := listening s;
     listeningRef := listeningRef s;
     readDelayAfterMicRef := readDelayAfterMicRef s;
     pendingSpeakRef := pendingSpeakRef s;
     typingTimer := typingTimer s;
     timers := timers s;
     nextTimerId := nextTimerId s;
     requests := requests s;
     recActive := v;
     finalTranscript := finalTranscript s;
     utterance := utterance s;
     spoken := spoken s |}.

Definition set_finalTranscript (v : jsstring) (s : State) : State :=
  {| messages := messages s;
     message := message s;
     loading := loading s;
     autoRead := autoRead s;
     ttsSupported := ttsSupported s;
     sttSupported := sttSupported s;
     listening := listening s;
     listeningRef := listeningRef s;
     readDelayAfterMicRef := readDelayAfterMicRef s;
     pendingSpeakRef := pendingSpeakRef s;
     typingTimer := typingTimer s;
     timers := timers s;
     nextTimerId := nextTimerId s;
     requests := requests s;
     recActive := recActive s;
     finalTranscript := v;
     utterance := utterance s;
     spoken := spoken s |}.

Definition set_utterance (v : option (speech_source * jsstring)) (s : State) : State :=
  {| messages := messages s;
     message := message s;
     loading := loading s;
     autoRead := autoRead s;
     ttsSupported := ttsSupported s;
     sttSupported := sttSupported s;
     listening := listening s;
     listeningRef := listeningRef s;
     readDelayAfterMicRef := readDelayAfterMicRef s;
     pendingSpeakRef := pendingSpeakRef s;
     typingTimer := typingTimer s;
     timers := timers s;
     nextTimerId := nextTimerId s;
     requests := requests s;
     recActive := recActive s;
     finalTranscript := finalTranscript s;
     utterance := v;
     spoken := spoken s |}.

Definition set_spoken (v : list spoken_entry) (s : State) : State :=
  {| messages := messages s;
     message := message s;
     loading := loading s;
     autoRead := autoRead s;
     ttsSupported := ttsSupported s;
     sttSupported := sttSupported s;
     listening := listening s;
     listeningRef := listeningRef s;
     readDelayAfterMicRef := readDelayAfterMicRef s;
     pendingSpeakRef := pendingSpeakRef s;
     typingTimer := typingTimer s;
     timers := timers s;
     nextTimerId := nextTimerId s;
     requests := requests s;
     recActive := recActive s;
     finalTranscript := finalTranscript s;
     utterance := utterance s;
     spoken := v |}.


Definition welcome : ChatMessage :=
  {| msg_id := lit "welcome"; msg_role := assistant;
     msg_content :=
       lit "Hey! I" ++ [8217%N] ++ lit "m your trip-planning buddy. Tell me where, when, and your vibe, and I" ++ [8217%N] ++ lit "ll draft an itinerary.";
     msg_itinerary := None |}.

(** The page once mounted, for a browser with or without the two speech
    interfaces. Timer ids start at 1: an id is never falsy. *)
Definition init (tts stt : bool) : State :=
  {| messages := [welcome]; message := []; loading := false;
     autoRead := false; ttsSupported := tts; sttSupported := stt;
     listening := false; listeningRef := false;
     readDelayAfterMicRef := false; pendingSpeakRef := None;
     typingTimer := None; timers := []; nextTimerId := 1; requests := [];
     recActive := false; finalTranscript := []; utterance := None;
     spoken := [] |}.

(** *** Timers and the synthesis engine *)

Definition clearTimeout (tid : nat) (s : State) : State :=
  set_timers (filter (fun t => negb (Nat.eqb (t_id t) tid)) (timers s)) s.

(** [window.setTimeout(cb, delay)]; the id is [nextTimerId] of the state
    before. *)
Definition setTimeout (cb : timer_cb) (delay : N) (s : State) : State :=
  set_nextTimerId (S (nextTimerId s))
    (set_timers (timers s ++ [{| t_id := nextTimerId s; t_delay := delay; t_cb := cb |}]) s).

(** [if (pendingSpeakRef.current) { clearTimeout(...); ... = null }] *)
Definition clear_pending (s : State) : State :=
  match pendingSpeakRef s with
  | Some tid => set_pendingSpeakRef None (clearTimeout tid s)
  | None => s
  end.

(** [speak(text)] of [useTTS]: nothing without the engine or for an empty
    text; otherwise the engine drops what it has and takes the text. *)
Definition speak (src : speech_source) (text : jsstring) (s : State) : State :=
  if negb (ttsSupported s) then s
  else if is_empty text then s
  else set_spoken (spoken s ++ [{| sp_source := src; sp_text := text;
                                  sp_listening := listening s |}])
         (set_utterance (Some (src, text)) s).

(** [cancel()] of [useTTS], and [synth.cancel()]. *)
Definition cancel (s : State) : State :=
  if negb (ttsSupported s) then s else set_utterance None s.

(** *** The text to read *)

(** The pieces a [for ... of] over a string yields: one per code point. *)
Fixpoint code_points (s : jsstring) : list jsstring :=
  match s with
  | [] => []
  | c :: s' =>
      match s' with
      | d :: s'' =>
          if is_lead c && is_trail d then [c; d] :: code_points s''
          else [c] :: code_points s'
      | [] => [[c]]
      end
  end.

Fixpoint mapM {A B} (f : A -> outcome B) (l : list A) : outcome (list B) :=
  match l with
  | [] => Ret []
  | x :: l' => y <- f x ;; ys <- mapM f l' ;; Ret (y :: ys)
  end.

Definition caption : jsstring :=
  lit "Here" ++ [8217%N] ++ lit "s your itinerary " ++ [10024%N].

Section Speech.

Variable rt : Runtime.

(** [new Date(iso)] throws exactly when [iso] has no primitive value; the
    handler then returns [iso], or the empty string for a falsy one, and
    [iso] is truthy there. *)
Definition fmtDate (iso : option json) : json :=
  if negb (truthy_opt iso) then JString []
  else match iso with
       | Some v =>
           match ToString rt v with
           | Ret _ => JString (toLocaleDateString rt v)
           | Throw _ => v
           end
       | None => JString []
       end.

Definition iterate (x : option json) : outcome (list json) :=
  match x with
  | Some (JArray l) => Ret l
  | Some (JString s) => Ret (map JString (code_points s))
  | _ => raise rt NotIterable
  end.

Definition activity_line (a : json) : outcome jsstring :=
  time <- getp rt (lit "time") (Some a) ;;
  t <- (if truthy_opt time
        then x <- template rt time ;; Ret (x ++ lit ": ")
        else Ret []) ;;
  title <- getp rt (lit "title") (Some a) ;;
  x <- template rt title ;;
  Ret (t ++ x).

Definition day_lines (d : json) : outcome (list jsstring) :=
  iso <- getp rt (lit "date") (Some d) ;;
  let date := fmtDate iso in
  day <- getp rt (lit "day") (Some d) ;;
  n <- template rt day ;;
  x <- template rt (Some date) ;;
  acts <- getp rt (lit "activities") (Some d) ;;
  items <- iterate (if truthy_opt acts then acts else Some (JArray [])) ;;
  ls <- mapM activity_line items ;;
  Ret ((lit "Day " ++ n ++ [32; 8212; 32]%N ++ x ++ lit ".") :: ls).

Definition summarizeItinerary (it : option json) : outcome jsstring :=
  match it with
  | None => Ret []
  | Some it =>
      let meta := get (lit "meta") it in
      let itinerary := get (lit "itinerary") it in
      dest <- getp rt (lit "destination") meta ;;
      a <- template rt dest ;;
      start <- getp rt (lit "start_date") meta ;;
      b <- template rt (Some (fmtDate start)) ;;
      stop <- getp rt (lit "end_date") meta ;;
      c <- template rt (Some (fmtDate stop)) ;;
      days <- getp rt (lit "days") meta ;;
      d <- template rt days ;;
      let header := a ++ lit ". " ++ b ++ lit " to " ++ c ++ lit ". " ++ d ++ lit " days." in
      ds <- iterate itinerary ;;
      ls <- mapM day_lines ds ;;
      Ret (join (32%N :: [LF]) (header :: List.concat ls))
  end.

(** *** Send *)

(** [x ?? y]: [null] counts as absent. *)
Definition nullish (x : option json) : option json :=
  match x with
  | Some JNull => None
  | _ => x
  end.

(** [data?.output ?? data] *)
Definition select_output (data : json) : json :=
  match nullish (get (lit "output") data) with
  | Some o => o
  | None => data
  end.

(** The itinerary and the text of a reply ([itinerary] and [botText]). *)
Definition interpret (output : json) : option json * jsstring :=
  match output with
  | JString str =>
      let itinerary := safeParseItinerary str in
      (itinerary, match itinerary with Some _ => [] | None => trim str end)
  | _ =>
      if truthy output && typeof_object output then
        let itinerary := if isItinerary output then Some output else None in
        (itinerary,
         match itinerary with Some _ => [] | None => JSON_stringify2 rt output end)
      else (None, [])
  end.

Definition nextMsg (uid : jsstring) (output : json) : ChatMessage :=
  let '(itinerary, botText) := interpret output in
  {| msg_id := uid; msg_role := assistant;
     msg_content :=
       if negb (is_empty botText) then botText
       else match itinerary with Some _ => caption | None => [] end;
     msg_itinerary := itinerary |}.

Definition toSpeakOf (m : ChatMessage) : outcome jsstring :=
  sum <- summarizeItinerary (msg_itinerary m) ;;
  Ret (join (32%N :: [LF])
         (filter (fun x => negb (is_empty x)) [stripMarkdown rt (msg_content m); sum])).

(** The message of [new Error(data?.error ?? `Request failed (...)`)]. *)
Definition failure_message (status : N) (data : json) : outcome jsstring :=
  match nullish (get (lit "error") data) with
  | Some v => ToString rt v
  | None => Ret (lit "Request failed (" ++ N_toString status ++ lit ")")
  end.

(** The call of [send] up to its first [await]. The request it issues is
    recorded in [requests]; [uid] is what [crypto.randomUUID()] returns. *)
Definition send (textOverride : option jsstring) (uid : jsstring) (s : State) : State :=
  let text := trim (match textOverride with Some t => t | None => message s end) in
  if is_empty text || loading s then s
  else
    set_requests (requests s ++ [{| f_input := text; f_autoRead := autoRead s;
                                    f_tts := ttsSupported s |}])
      (set_message []
         (set_messages (messages s ++ [{| msg_id := uid; msg_role := user;
                                          msg_content := text; msg_itinerary := None |}])
            (set_loading true s))).

(** The body of the [try] after the response: the state it leaves, and the
    exception when it ends by one. *)
Definition send_try (f : inflight) (r : fetch_result) (uid : jsstring) (s : State)
  : State * option thrown :=
  match r with
  | Rejected e => (s, Some e)
  | Responded status body =>
      let data := match body with Some d => d | None => JObject [] end in
      if negb (res_ok status) then
        match failure_message status data with
        | Ret msg => (s, Some (ErrorObj msg))
        | Throw e => (s, Some e)
        end
      else
        let m := nextMsg uid (select_output data) in
        let s1 := set_messages (messages s ++ [m]) s in
        if f_autoRead f && f_tts f then
          match toSpeakOf m with
          | Throw e => (s1, Some e)
          | Ret toSpeak =>
              if is_empty toSpeak then (s1, None)
              else
                let s2 := clear_pending s1 in
                let delay := if readDelayAfterMicRef s2 then 6000%N else 0%N in
                let s3 := set_readDelayAfterMicRef false s2 in
                (set_pendingSpeakRef (Some (nextTimerId s3))
                   (setTimeout (CbScheduleSpeak toSpeak) delay s3), None)
          end
        else (s1, None)
  end.

(** The [catch] clause. *)
Definition send_catch (f : inflight) (e : thrown) (uid : jsstring) (s : State) : State :=
  let msg := match e with
             | ErrorObj m => m
             | NotAnError => lit "Unknown error"
             end in
  let s1 := set_messages (messages s ++ [{| msg_id := uid; msg_role := error;
                                            msg_content := lit "Error: " ++ msg;
                                            msg_itinerary := None |}]) s in
  if f_autoRead f && f_tts f
  then speak SrcError (lit "An error occurred: " ++ msg) s1
  else s1.

(** The rest of [send] once the request has settled, [finally] included.
    [uid] is the first value [crypto.randomUUID()] returns on the way, and
    [uid2] the second, drawn when an error message follows the reply. *)
Definition settle (f : inflight) (r : fetch_result) (uid uid2 : jsstring) (s : State) : State :=
  let '(s1, exn) := send_try f r uid s in
  let replied := match r with
                 | Responded status _ => res_ok status
                 | Rejected _ => false
                 end in
  let s2 := match exn with
            | Some e => send_catch f e (if replied then uid2 else uid) s1
            | None => s1
            end in
  set_loading false s2.

End Speech.

(** *** Effects that follow a render *)

(** [text.replace(/\s{2,}/g, " ")]: a run of two or more white-space code
    units becomes one space; [run] is the first unit of the run being read
    and whether a second one was seen. *)
Fixpoint collapse_ws (run : option (char * bool)) (s : jsstring) : jsstring :=
  let flush := match run with
               | Some (w, many) => [if many then 32%N else w]
               | None => []
               end in
  match s with
  | [] => flush
  | c :: s' =>
      if isWS c then
        collapse_ws (match run with
                     | Some (w, _) => Some (w, true)
                     | None => Some (c, false)
                     end) s'
      else flush ++ c :: collapse_ws None s'
  end.

(** [readVisible()]; [visible] is the [innerText] of the message list. *)
Definition readVisible (visible : jsstring) (s : State) : State :=
  let text := trim (collapse_ws None visible) in
  if is_empty text then s else speak SrcVisible text s.

(** [listeningRef.current = listening] *)
Definition effect_listeningRef (s : State) : State :=
  set_listeningRef (listening s) s.

Definition typing_deps_changed (old s : State) : bool :=
  negb (Str.eqb (message old) (message s))
  || negb (Bool.eqb (autoRead old) (autoRead s))
  || negb (Bool.eqb (listening old) (listening s)).

(** The read-as-you-type effect: its clean-up clears the timer it had set,
    then it sets a new one unless a guard returns first. *)
Definition effect_typing (old s : State) : State :=
  if typing_deps_changed old s then
    let s1 := match typingTimer s with
              | Some h => set_typingTimer None (clearTimeout h s)
              | None => s
              end in
    if negb (autoRead s1) || listening s1 then s1
    else if readDelayAfterMicRef s1 then s1
    else
      let text := trim (message s1) in
      if is_empty text then s1
      else set_typingTimer (Some (nextTimerId s1)) (setTimeout (CbTyping text) 800 s1)
  else s.

(** [if (!autoRead) { ... clearTimeout ...; cancel() }], when [autoRead]
    has changed. *)
Definition effect_autoReadOff (old s : State) : State :=
  if negb (Bool.eqb (autoRead old) (autoRead s)) && negb (autoRead s)
  then cancel (clear_pending s)
  else s.

(** [if (autoRead) readVisible()], when [autoRead] has changed. *)
Definition effect_readVisible (visible : jsstring) (old s : State) : State :=
  if negb (Bool.eqb (autoRead old) (autoRead s)) && autoRead s
  then readVisible visible s
  else s.

(** The effects of the render that follows a handler, in the order the
    page declares them; [old] is the state of the render before. *)
Definition render (visible : jsstring) (old s : State) : State :=
  effect_readVisible visible old
    (effect_autoReadOff old (effect_typing old (effect_listeningRef s))).

(** *** Handlers *)

Definition toggleMic (s : State) : State :=
  if negb (sttSupported s) then s
  else
    let s1 := if negb (listening s) then clear_pending s else s in
    let s2 := cancel s1 in
    if listening s then s2                     (* [rec.stop()] *)
    else
      let s3 := set_message [] s2 in
      if recActive s3 then s3                  (* [rec.start()] throws *)
      else set_listening true (set_recActive true s3).

Definition rec_onstart (s : State) : State := set_finalTranscript [] s.

Definition rec_onresult (results : list (jsstring * bool)) (s : State) : State :=
  let finals := List.concat (map fst (filter snd results)) in
  let interim := List.concat (map fst (filter (fun r => negb (snd r)) results)) in
  let finalTranscript' := finalTranscript s ++ finals in
  let combined := trim (finalTranscript' ++ lit " " ++ interim) in
  set_message combined (set_finalTranscript finalTranscript' s).

Definition rec_onerror (s : State) : State := set_listening false s.

(** The silent utterance that is spoken and cancelled at once leaves the
    engine with nothing to say. *)
Definition rec_onend (s : State) : State :=
  let s1 := set_listening false s in
  let s2 := cancel s1 in
  let s3 := clear_pending s2 in
  set_finalTranscript [] (set_readDelayAfterMicRef true s3).

Definition onAutoReadChange (s : State) : State :=
  let checked := negb (autoRead s) in
  let s1 := set_autoRead checked s in
  if negb checked then cancel s1 else s1.

(** [scheduleSpeak]: while the recognition flag is set it re-arms itself.
    (The [resume] it starts with changes nothing here: the page never
    pauses the engine.) *)
Definition scheduleSpeak (toSpeak : jsstring) (s : State) : State :=
  if listeningRef s then
    set_pendingSpeakRef (Some (nextTimerId s))
      (setTimeout (CbScheduleSpeak toSpeak) 250 s)
  else set_pendingSpeakRef None (speak SrcReply toSpeak s).

Definition run_timer (cb : timer_cb) (s : State) : State :=
  match cb with
  | CbScheduleSpeak toSpeak => scheduleSpeak toSpeak s
  | CbTyping text => speak SrcTyping text s
  end.

(** *** Events *)

Inductive event :=
| EChange (text : jsstring)                       (* the user edits the input *)
| EClickSend (uid : jsstring)                     (* the send button *)
| EEnter (uid : jsstring)                         (* Enter in the input *)
| ESettle (k : nat) (r : fetch_result) (uid uid2 : jsstring)
| ETimer (tid : nat)                              (* a timer fires *)
| EToggleMic
| ERecStart
| ERecResult (results : list (jsstring * bool))
| ERecError
| ERecEnd
| EToggleAutoRead (visible : jsstring)
| EVoice (visible : jsstring)                     (* the selected voice changes *)
| EUtteranceEnd.                                  (* the engine has finished *)

Fixpoint remove_nth {A} (k : nat) (l : list A) : list A :=
  match k, l with
  | _, [] => []
  | O, _ :: l' => l'
  | S k', x :: l' => x :: remove_nth k' l'
  end.

Section Step.

Variable rt : Runtime.

(** One event: its handler, then the effects of the render. [None] when the
    event cannot happen in the state (a disabled control, a timer that is
    not set, no such request, no recognition session). *)
Definition step (e : event) (s : State) : option State :=
  match e with
  | EChange text =>
      if loading s then None
      else Some (render [] s (set_message text s))
  | EClickSend uid =>
      if loading s || is_empty (trim (message s)) then None
      else Some (render [] s (send None uid s))
  | EEnter uid =>
      if loading s then None
      else Some (render [] s (send None uid s))
  | ESettle k r uid uid2 =>
      match nth_error (requests s) k with
      | Some f =>
          Some (render [] s (settle rt f r uid uid2
                               (set_requests (remove_nth k (requests s)) s)))
      | None => None
      end
  | ETimer tid =>
      match find (fun t => Nat.eqb (t_id t) tid) (timers s) with
      | Some t => Some (render [] s (run_timer (t_cb t) (clearTimeout tid s)))
      | None => None
      end
  | EToggleMic => Some (render [] s (toggleMic s))
  | ERecStart =>
      if recActive s then Some (render [] s (rec_onstart s)) else None
  | ERecResult results =>
      if recActive s then Some (render [] s (rec_onresult results s)) else None
  | ERecError =>
      if recActive s then Some (render [] s (rec_onerror s)) else None
  | ERecEnd =>
      if recActive s
      then Some (render [] s (rec_onend (set_recActive false s)))
      else None
  | EToggleAutoRead visible => Some (render visible s (onAutoReadChange s))
  | EVoice visible =>
      Some (if autoRead s then readVisible visible s else s)
  | EUtteranceEnd =>
      match utterance s with
      | Some _ => Some (set_utterance None s)
      | None => None
      end
  end.

Fixpoint run (s : State) (es : list event) : option State :=
  match es with
  | [] => Some s
  | e :: es' =>
      match step e s with
      | Some s' => run s' es'
      | None => None
      end
  end.

(** The states the page can be in, for a browser with the given speech
    interfaces. *)
Definition reachable (tts stt : bool) (s : State) : Prop :=
  exists es, run (init tts stt) es = Some s.

End Step.

(* ===================================================================== *)
(** ** The Markdown renderer *)
(* ===================================================================== *)

Module Markdown.

(** The code units the dot of a regular expression does not match. *)
Definition is_line_terminator (c : char) : bool :=
  ((c =? 10) || (c =? 13) || (c =? 8232) || (c =? 8233))%N.

(** A piece of a line: plain text, or the inside of a bold span. *)
Inductive seg :=
| Text (s : jsstring)
| Strong (s : jsstring).

(** The lazy group [(.+?)] followed by the delimiter again: [n] units of
    the group are read; the result is the length of the shortest group
    (one unit at least, no line terminator) after which the delimiter
    [d d] stands. *)
Fixpoint find_close (d : char) (n : nat) (r : jsstring) : option nat :=
  match r with
  | [] => None
  | c :: r' =>
      if (1 <=? n)%nat && startsWith [d; d] r then Some n
      else if is_line_terminator c then None
      else find_close d (S n) r'
  end.

(** One attempt of [/(\*\*|__)(.+?)\1/] at the start of [s]: the group and
    the length of the whole match. *)
Definition bold_at (s : jsstring) : option (jsstring * nat) :=
  match s with
  | a :: b :: r =>
      if (N.eqb a 42 && N.eqb b 42) || (N.eqb a 95 && N.eqb b 95) then
        match find_close a 0 r with
        | Some n => Some (firstn n r, n + 4)
        | None => None
        end
      else None
  | _ => None
  end.

(** [text.slice(last, m.index)], pushed when it is not empty; [acc] holds
    it in reverse. *)
Definition flush_text (acc : jsstring) : list seg :=
  match acc with
  | [] => []
  | _ => [Text (rev acc)]
  end.

(** The loop of [renderInlineBold]: [skip] units of the last match are
    still to be passed, [acc] is the text since [last]. *)
Fixpoint inline_go (skip : nat) (acc : jsstring) (s : jsstring) : list seg :=
  match s with
  | [] => flush_text acc
  | c :: s' =>
      match skip with
      | S k => inline_go k acc s'
      | O =>
          match bold_at s with
          | Some (inner, len) =>
              flush_text acc ++ Strong inner :: inline_go (len - 1) [] s'
          | None => inline_go 0 (c :: acc) s'
          end
      end
  end.

Definition renderInlineBold (text : jsstring) : list seg := inline_go 0 [] text.

Fixpoint takeWhile (p : char -> bool) (s : jsstring) : jsstring :=
  match s with
  | [] => []
  | c :: s' => if p c then c :: takeWhile p s' else []
  end.

(** [/^###\s+(.+)\s*$/] after the three hashes: white space is given [k]
    units, the longest choice first; the group then takes every unit up to
    the first line terminator, and what is left must be white space. *)
Fixpoint h3_try (k : nat) (rest : jsstring) : option jsstring :=
  match k with
  | O => None
  | S k' =>
      let r := skipn k rest in
      let p := takeWhile (fun c => negb (is_line_terminator c)) r in
      if negb (is_empty p) && forallb isWS (skipn (List.length p) r) then Some p
      else h3_try k' rest
  end.

(** The group of the heading pattern on a line, when the line matches. *)
Definition h3_capture (line : jsstring) : option jsstring :=
  if startsWith (lit "###") line then
    let rest := skipn 3 line in
    h3_try (List.length (takeWhile isWS rest)) rest
  else None.

(** [/^\*\s+/.test(line)] and [line.replace(/^\*\s+/, "")] *)
Definition is_bullet (line : jsstring) : bool :=
  match line with
  | c :: w :: _ => N.eqb c 42 && isWS w
  | _ => false
  end.

Definition bullet_item (line : jsstring) : jsstring := dropWhile isWS (tl line).

(** A node of the rendering, with the line index its key is made of. *)
Inductive node :=
| H3 (i : nat) (content : list seg)
| UL (i : nat) (items : list (list seg))
| Br (i : nat)
| P (i : nat) (content : list seg).

(** The loops of [renderMarkdown] from line [i] on. [items] holds, in
    reverse, the bullets the inner loop has collected; it is empty outside
    that loop. *)
Fixpoint md_go (i : nat) (items : list (list seg)) (lines : list jsstring) : list node :=
  match lines with
  | [] =>
      match items with
      | [] => []
      | _ => [UL i (rev items)]
      end
  | line :: rest =>
      let outer :=
        match h3_capture line with
        | Some title => H3 i (renderInlineBold title) :: md_go (S i) [] rest
        | None =>
            if is_bullet line
            then md_go (S i) [renderInlineBold (bullet_item line)] rest
            else if is_empty (trim line) then Br i :: md_go (S i) [] rest
            else P i (renderInlineBold line) :: md_go (S i) [] rest
        end in
      match items with
      | [] => outer
      | _ =>
          if is_bullet line
          then md_go (S i) (renderInlineBold (bullet_item line) :: items) rest
          else UL i (rev items) :: outer
      end
  end.

Definition renderMarkdown (text : jsstring) : list node :=
  md_go 0 [] (split_lines text).

(** The React key of a node: its kind and its index. *)
Inductive kind := KH3 | KUL | KBr | KP.

Definition key (n : node) : kind * nat :=
  match n with
  | H3 i _ => (KH3, i)
  | UL i _ => (KUL, i)
  | Br i => (KBr, i)
  | P i _ => (KP, i)
  end.

(** The lines a node stands for. *)
Definition node_lines (n : node) : nat :=
  match n with
  | UL _ items => List.length items
  | _ => 1
  end.

(** The units of the source a piece stands for: a bold span has two
    delimiters of two units around it. *)
Definition seg_units (x : seg) : nat :=
  match x with
  | Text s => List.length s
  | Strong s => List.length s + 4
  end.

End Markdown.

(* ===================================================================== *)
(** ** The last reply, and the voices *)
(* ===================================================================== *)

(** [arr.findIndex(p)]: the first index at which [p] holds, or -1; the
    search is at index [i]. *)
Fixpoint findIndex_from {A} (p : A -> bool) (i : Z) (l : list A) : Z :=
  match l with
  | [] => -1
  | x :: l' => if p x then i else findIndex_from p (i + 1) l'
  end.

Definition findIndex {A} (p : A -> bool) (l : list A) : Z := findIndex_from p 0 l.

(** [arr[i]] for an integer [i]: [None] is [undefined]. *)
Definition item {A} (l : list A) (i : Z) : option A :=
  if (i <? 0)%Z then None else nth_error l (Z.to_nat i).

Definition is_assistant (m : ChatMessage) : bool :=
  match msg_role m with assistant => true | _ => false end.

(** [[...messages].reverse().findIndex((m) => m.role === "assistant")] *)
Definition lastAssistantIndex (messages : list ChatMessage) : Z :=
  findIndex is_assistant (rev messages).

Definition lastAssistantMsg (messages : list ChatMessage) : option ChatMessage :=
  if (lastAssistantIndex messages =? -1)%Z then None
  else item messages (Z.of_nat (List.length messages) - 1 - lastAssistantIndex messages).

Module TTS.

(** A [SpeechSynthesisVoice], as far as the page reads it. *)
Record Voice := { v_name : jsstring; v_lang : jsstring }.

(** The canonical form the [i] flag compares, for a code unit: an ASCII
    lower-case letter becomes upper case; a code unit from 128 on never
    compares equal to an ASCII one. *)
Definition upper (c : char) : char :=
  if ((97 <=? c) && (c <=? 122))%N then (c - 32)%N else c.

Fixpoint prefix_ci (p s : jsstring) : bool :=
  match p, s with
  | [], _ => true
  | x :: p', y :: s' => N.eqb (upper x) (upper y) && prefix_ci p' s'
  | _ :: _, [] => false
  end.

(** [/p/i.test(s)] for a pattern [p] of ASCII letters and hyphens: [s]
    contains [p] somewhere, letters compared without case. *)
Fixpoint test_ci (p s : jsstring) : bool :=
  prefix_ci p s
  || match s with
     | [] => false
     | _ :: s' => test_ci p s'
     end.

Definition is_enUS (v : Voice) : bool := test_ci (lit "en-US") (v_lang v).
Definition is_google (v : Voice) : bool := test_ci (lit "google") (v_name v).

(** The effect that picks the voice once the voices are there; the result
    is the voice index after it. *)
Definition pickVoice (ready : bool) (voices : list Voice) (voiceIndex : Z) : Z :=
  if negb ready || (List.length voices =? 0)%nat then voiceIndex
  else
    let googleUS := findIndex (fun v => is_enUS v && is_google v) voices in
    let anyUS := findIndex is_enUS voices in
    if (0 <=? googleUS)%Z then googleUS
    else if (0 <=? anyUS)%Z then anyUS else 0%Z.

(** [voices[voiceIndex]] *)
Definition selectedVoice (voices : list Voice) (voiceIndex : Z) : option Voice :=
  item voices voiceIndex.

(** The loading of the voices in [useTTS]: the counter of the closure,
    the two pieces of state, and the polls that are set and have not fired
    yet. *)
Record Loader := {
  tries : nat;
  voices : list Voice;
  ready : bool;
  polls : nat }.

(** [loadVoices], for the list [v] that [synth.getVoices()] returns. *)
Definition loadVoices (v : list Voice) (st : Loader) : Loader :=
  if (0 <? List.length v)%nat || (20 <? tries st)%nat then
    {| tries := tries st; voices := v; ready := true; polls := polls st |}
  else
    {| tries := tries st + 1; voices := voices st; ready := ready st;
       polls := polls st + 1 |}.

(** The effect at mount calls [loadVoices] once. *)
Definition mount (v : list Voice) : Loader :=
  loadVoices v {| tries := 0; voices := []; ready := false; polls := 0 |}.

(** What calls [loadVoices] afterwards: a poll that fires after its 150 ms,
    or the [voiceschanged] event of the engine. *)
Inductive load_event :=
| Poll (v : list Voice)
| VoicesChanged (v : list Voice).

Definition load_step (e : load_event) (st : Loader) : option Loader :=
  match e with
  | Poll v =>
      match polls st with
      | O => None
      | S n => Some (loadVoices v {| tries := tries st; voices := voices st;
                                     ready := ready st; polls := n |})
      end
  | VoicesChanged v => Some (loadVoices v st)
  end.

Fixpoint load_run (st : Loader) (es : list load_event) : option Loader :=
  match es with
  | [] => Some st
  | e :: es' =>
      match load_step e st with
      | Some st' => load_run st' es'
      | None => None
      end
  end.

End TTS.

(* ===================================================================== *)
(** ** The route of the webhook *)
(* ===================================================================== *)

Section Compact.

Variable rt : Runtime.

(** [JSON.stringify(x)] of a parsed value: no white space. *)
Fixpoint JSON_stringify (v : json) : jsstring :=
  match v with
  | JNull => lit "null"
  | JBool true => lit "true"
  | JBool false => lit "false"
  | JNumber n => if number_overflows n then lit "null" else Number_toString rt n
  | JString s => QuoteJSONString s
  | JArray items =>
      lit "[" ++
      (fix each (l : list json) : jsstring :=
         match l with
         | [] => []
         | x :: l' =>
             JSON_stringify x ++
             match l' with [] => [] | _ => lit "," ++ each l' end
         end) items
      ++ lit "]"
  | JObject m =>
      lit "{" ++
      (fix each (l : list (jsstring * json)) : jsstring :=
         match l with
         | [] => []
         | (k, x) :: l' =>
             QuoteJSONString k ++ lit ":" ++ JSON_stringify x ++
             match l' with [] => [] | _ => lit "," ++ each l' end
         end) m
      ++ lit "}"
  end.

(** The body of the request of [send]: [JSON.stringify({ input: text })]. *)
Definition request_body (text : jsstring) : jsstring :=
  JSON_stringify (JObject [(lit "input", JString text)]).

(** A [Response], as far as the page reads it. *)
Record Response := { r_status : N; r_body : jsstring }.

(** The statuses a response with a body cannot have. *)
Definition null_body_status (status : N) : bool :=
  ((status =? 101) || (status =? 103) || (status =? 204) || (status =? 205)
   || (status =? 304))%N.

(** [new Response(body, { status })] for a body that is a string: [None]
    is the [RangeError] for a status outside 200..599, or the [TypeError]
    for a status that allows no body. *)
Definition new_Response (body : jsstring) (status : N) : option Response :=
  if negb ((200 <=? status) && (status <=? 599))%N then None
  else if null_body_status status then None
  else Some {| r_status := status; r_body := body |}.

(** The response of the [catch] clause. *)
Definition failure_response : Response :=
  {| r_status := 500;
     r_body := JSON_stringify
                 (JObject [(lit "message", JString (lit "Webhook trigger failed"))]) |}.

(** [POST]: [req] is what [req.json()] gives ([None] when it rejects), and
    [webhook] what the [fetch] of the webhook followed by [response.json()]
    gives for the body of the request it is sent. *)
Definition POST (req : option json) (webhook : jsstring -> fetch_result) : Response :=
  match req with
  | None => failure_response
  | Some body =>
      match webhook (JSON_stringify body) with
      | Rejected _ => failure_response
      | Responded _ None => failure_response
      | Responded status (Some data) =>
          match new_Response (JSON_stringify data) status with
          | Some r => r
          | None => failure_response
          end
      end
  end.

(** What [fetch] and [res.json()] give the page for a response of the
    route. *)
Definition through_route (r : Response) : fetch_result :=
  Responded (r_status r) (JSON_parse (r_body r)).

End Compact.

(* ===================================================================== *)
(** ** Inputs of the scenarios *)
(* ===================================================================== *)

(** A JSON text inside a fence with the [json] tag. *)
Definition fenced (J : jsstring) : jsstring :=
  lit "```json" ++ [LF] ++ J ++ [LF] ++ fence.

(** The text between the first and the last line of [fenced J], with the
    line ends as [join] writes them: every CR LF has become LF, and a CR
    that ends [J] has gone with the line feed after it. *)
Fixpoint unix_lines (s : jsstring) : jsstring :=
  match s with
  | [] => []
  | c :: s' =>
      if N.eqb c CR then
        match s' with
        | [] => []
        | d :: s'' => if N.eqb d LF then LF :: unix_lines s'' else c :: unix_lines s'
        end
      else c :: unix_lines s'
  end.

Definition rome_json : jsstring :=
  qlit "{'meta':{'destination':'Rome','start_date':'2025-06-01','end_date':'2025-06-03','timezone':'Europe/Rome','days':2},'itinerary':[{'day':1,'date':'2025-06-01','activities':[{'activity_id':'a1','title':'Colosseum','time':'09:00'}]}]}".

(** The backend output of the Rome scenario. *)
Definition rome_output : jsstring := fenced rome_json.

Definition jnum (n : N) : json := JNumber (Number false n 0).
Definition jstr (s : string) : json := JString (lit s).

Definition rome_activity : json :=
  JObject [(lit "activity_id", jstr "a1"); (lit "title", jstr "Colosseum");
           (lit "time", jstr "09:00")].

Definition rome_day1 : json :=
  JObject [(lit "day", jnum 1); (lit "date", jstr "2025-06-01");
           (lit "activities", JArray [rome_activity])].

Definition rome_payload : json :=
  JObject [(lit "meta",
            JObject [(lit "destination", jstr "Rome");
                     (lit "start_date", jstr "2025-06-01");
                     (lit "end_date", jstr "2025-06-03");
                     (lit "timezone", jstr "Europe/Rome");
                     (lit "days", jnum 2)]);
           (lit "itinerary", JArray [rome_day1])].

(** A runtime to evaluate examples with: numbers print their digits, dates
    print as they are written, and [stripMarkdown] changes nothing. *)
Definition demo_runtime : Runtime :=
  {| Number_toString := fun n => N_toString (n_mant n);
     toLocaleDateString := fun v => match v with JString s => s | _ => lit "Invalid Date" end;
     engine_message := fun _ => lit "TypeError";
     stripMarkdown := fun s => s |}.

(* ===================================================================== *)
(** ** Notions the properties are stated with *)
(* ===================================================================== *)

(** The lines of a text that is followed by a line feed and the closing
    fence: at least two, and all but the last joined give [unix_lines]. *)
Definition lines_before_close (J : jsstring) : Prop :=
  exists l ls,
    split_lines (J ++ LF :: fence) = l :: ls /\ ls <> [] /\
    join [LF] (pop (l :: ls)) = unix_lines J.

(** A literal in progress expects no white space. *)
Definition lit_ok (st : lstate) : Prop :=
  match st with
  | LLit rest _ => Forall (fun c => isWS c = false) rest
  | _ => True
  end.

(** The message the [catch] clause of [send] appends for a thrown value. *)
Definition error_message (uid : jsstring) (e : thrown) : ChatMessage :=
  {| msg_id := uid; msg_role := error;
     msg_content := lit "Error: " ++ match e with
                                     | ErrorObj m => m
                                     | NotAnError => lit "Unknown error"
                                     end;
     msg_itinerary := None |}.

(** The assistant message of the Rome scenario. *)
Definition rome_message (uid : jsstring) : ChatMessage :=
  {| msg_id := uid; msg_role := assistant; msg_content := caption;
     msg_itinerary := Some rome_payload |}.

(** The response that carries the Rome text as its [output]. *)
Definition rome_response : fetch_result :=
  Responded 200 (Some (JObject [(lit "output", JString rome_output)])).

(** Whether a message has the error role. *)
Definition is_error (m : ChatMessage) : bool :=
  match msg_role m with error => true | _ => false end.

(** A location with the given fields, for examples. *)
Definition colosseum (name address : option jsstring) (lat lon : option number) : Location :=
  {| loc_name := name; loc_address := address; loc_lat := lat; loc_lon := lon;
     loc_place_id := None |}.

(** What a timer that is set tells about the state: the timer of a reply
    read is the pending one, it was set with the synthesis engine present
    and for a text that is not empty; the timer of a read-as-you-type is
    the one the effect holds, set while the recognition flag ([l0], the
    flag at the last render) was off. *)
Definition timer_ok (p tt : option nat) (l0 tts : bool) (t : timer) : Prop :=
  match t_cb t with
  | CbScheduleSpeak txt => p = Some (t_id t) /\ tts = true /\ txt <> []
  | CbTyping _ => tt = Some (t_id t) /\ l0 = false
  end.

(** The reads that test the recognition flag before they speak. *)
Definition guarded (src : speech_source) : Prop := src = SrcReply \/ src = SrcTyping.

(** What holds of the timers, the engine and the history of utterances:
    every timer is accounted for, timer ids are fresh and distinct, a
    guarded read is spoken only with the recognition flag off and was
    never started with it set, and a send that captured the presence of
    the engine did so rightly. *)
Record quiet (l0 : bool) (s : State) : Prop := {
  q_timers : Forall (timer_ok (pendingSpeakRef s) (typingTimer s) l0 (ttsSupported s))
                    (timers s);
  q_fresh : Forall (fun t => t_id t < nextTimerId s) (timers s);
  q_nodup : NoDup (map t_id (timers s));
  q_utterance : forall src txt, utterance s = Some (src, txt) ->
                                guarded src -> listening s = false;
  q_engine : ttsSupported s = false -> utterance s = None;
  q_requests : Forall (fun f => f_tts f = true -> ttsSupported s = true) (requests s);
  q_spoken : Forall (fun e => guarded (sp_source e) -> sp_listening e = false) (spoken s) }.

(** The invariant of the page between two events. *)
Definition Inv (s : State) : Prop :=
  listeningRef s = listening s /\ quiet (listening s) s.

(** A conversation in which the reply arrives while the microphone is on:
    auto-read is switched on, "Rome" is typed and sent, the microphone is
    started, and the backend answers "Hello". *)
Definition reply_during_dictation : list event :=
  [EToggleAutoRead (lit "Hey!"); EChange (lit "Rome"); EClickSend (lit "u1");
   EToggleMic; ERecStart;
   ESettle 0 (Responded 200 (Some (JObject [(lit "output", jstr "Hello")])))
           (lit "u2") (lit "u3")].

(** The state a conversation leads to, from the fresh page of a browser
    with both speech interfaces. *)
Definition state_after (es : list event) : State :=
  match run demo_runtime (init true true) es with
  | Some s => s
  | None => init true true
  end.

(** The timer of the read of "Hello". *)
Definition hello_timer (tid : nat) (delay : N) : timer :=
  {| t_id := tid; t_delay := delay; t_cb := CbScheduleSpeak (lit "Hello") |}.

(** What cancels a pending read: the end of the recognition session, the
    start of the microphone, and switching auto-read off. *)
Definition cancels_pending (e : event) (s : State) : Prop :=
  e = ERecEnd
  \/ (e = EToggleMic /\ listening s = false /\ sttSupported s = true)
  \/ (exists visible, e = EToggleAutoRead visible /\ autoRead s = true).

(** The source text of a rendered line: every bold span between two
    copies of its delimiter, taken from [ds] in order. *)
Fixpoint rebuild (ds : list char) (l : list Markdown.seg) : jsstring :=
  match l with
  | [] => []
  | Markdown.Text s :: l' => s ++ rebuild ds l'
  | Markdown.Strong s :: l' =>
      match ds with
      | d :: ds' => [d; d] ++ s ++ [d; d] ++ rebuild ds' l'
      | [] => []
      end
  end.

(** A piece of a rendered line is never empty, and a bold span holds no
    line terminator. *)
Definition seg_ok (x : Markdown.seg) : Prop :=
  match x with
  | Markdown.Text s => s <> []
  | Markdown.Strong s =>
      s <> [] /\ Forall (fun c => Markdown.is_line_terminator c = false) s
  end.

(** Plain text as a rendered line. *)
Definition text_seg (s : jsstring) : list Markdown.seg :=
  match s with
  | [] => []
  | _ => [Markdown.Text s]
  end.

(** Neither an asterisk nor an underscore. *)
Definition no_marker (c : char) : Prop := c <> 42%N /\ c <> 95%N.

(** No two lists in a row. *)
Fixpoint no_adjacent_lists (l : list Markdown.node) : Prop :=
  match l with
  | Markdown.UL _ _ :: ((Markdown.UL _ _ :: _) as l') => False
  | _ :: l' => no_adjacent_lists l'
  | [] => True
  end.

(** A list node holds one item at least. *)
Definition list_not_empty (n : Markdown.node) : Prop :=
  match n with
  | Markdown.UL _ items => items <> []
  | _ => True
  end.

(** A line end: a line feed, alone or after a carriage return. *)
Definition is_newline (nl : jsstring) : Prop := nl = [LF] \/ nl = [CR; LF].

(** No line end inside. *)
Definition one_line (s : jsstring) : Prop :=
  Forall (fun c => N.eqb c LF = false /\ N.eqb c CR = false) s.

(** No backtick inside. *)
Definition no_backtick (s : jsstring) : Prop := Forall (fun c => c <> 96%N) s.

(** The tag of a fence the pattern of [stripCodeFence] knows: none, or
    [json] in any case. *)
Definition json_tag (tag : jsstring) : Prop :=
  tag = [] \/ (List.length tag = 4%nat /\ startsWith_ci (lit "json") tag = true).

(** A request that fails: the promise of [fetch] rejects, or the status
    of the response is outside 200..299. *)
Definition failed (r : fetch_result) : Prop :=
  match r with
  | Rejected _ => True
  | Responded status _ => res_ok status = false
  end.

(** The value [res.json()] leaves in [data]. *)
Definition data_of (body : option json) : json :=
  match body with Some d => d | None => JObject [] end.

(** The text the [catch] clause of [send] takes from what was thrown. *)
Definition thrown_text (e : thrown) : jsstring :=
  match e with
  | ErrorObj m => m
  | NotAnError => lit "Unknown error"
  end.

(** The utterance of an error. *)
Definition error_utterance (e : thrown) (l : bool) : spoken_entry :=
  {| sp_source := SrcError; sp_text := lit "An error occurred: " ++ thrown_text e;
     sp_listening := l |}.

(** The message of a reply that carries an itinerary. *)
Definition itinerary_message (uid : jsstring) (payload : json) : ChatMessage :=
  {| msg_id := uid; msg_role := assistant; msg_content := caption;
     msg_itinerary := Some payload |}.

(** A value without structure: [null], a boolean, a number or a string.
    [None] is [undefined]. *)
Definition primitive (x : option json) : Prop :=
  match x with
  | Some (JArray _) | Some (JObject _) => False
  | _ => True
  end.

(** An activity as the type [Activity] has it, as far as the summary reads
    it: an object whose [time] and [title] are primitive or absent. *)
Definition activity_ok (a : json) : Prop :=
  (exists m, a = JObject m)
  /\ primitive (get (lit "time") a) /\ primitive (get (lit "title") a).

(** A day as the type [DayPlan] has it, as far as the summary reads it: an
    object with primitive [day] and [date], and activities that are an
    array of activities, or absent, or falsy. *)
Definition day_ok (d : json) : Prop :=
  (exists m, d = JObject m)
  /\ primitive (get (lit "day") d) /\ primitive (get (lit "date") d)
  /\ match get (lit "activities") d with
     | None => True
     | Some (JArray acts) => Forall activity_ok acts
     | Some v => truthy v = false
     end.

(** A payload [isItinerary] accepts whose parts have the shape of their
    types, as far as the summary reads them. *)
Definition payload_ok (p : json) : Prop :=
  isItinerary p = true
  /\ (forall meta, get (lit "meta") p = Some meta ->
      primitive (get (lit "destination") meta)
      /\ primitive (get (lit "start_date") meta)
      /\ primitive (get (lit "end_date") meta)
      /\ primitive (get (lit "days") meta))
  /\ (forall days, get (lit "itinerary") p = Some (JArray days) -> Forall day_ok days).

(** The timers that remain when the pending read is cleared. *)
Definition timers_without_pending (s : State) : list timer :=
  match pendingSpeakRef s with
  | Some tid => filter (fun t => negb (Nat.eqb (t_id t) tid)) (timers s)
  | None => timers s
  end.

(** What the flow of requests and messages is read from: the messages, the
    loading flag, the requests in flight, the two speech interfaces, the
    recognition flag and whether a recognition session is open. *)
Definition core (s : State) :=
  (messages s, loading s, requests s, (ttsSupported s, sttSupported s),
   (listening s, recActive s)).

(** What a settled request appends: one message or two, none of the user. *)
Definition reply_like (new : list ChatMessage) : Prop :=
  (List.length new = 1 \/ List.length new = 2)%nat
  /\ Forall (fun m => msg_role m <> user) new.

(** What holds of requests, messages and the microphone between events. *)
Record flow (tts stt : bool) (s : State) : Prop := {
  fl_tts : ttsSupported s = tts;
  fl_stt : sttSupported s = stt;
  fl_requests : List.length (requests s) = if loading s then 1%nat else 0%nat;
  fl_welcome : exists rest, messages s = welcome :: rest;
  fl_last : msg_role (last (messages s) welcome) = user <-> loading s = true;
  fl_mic : listening s = true -> recActive s = true;
  fl_nomic : stt = false -> recActive s = false }.

(** The utterances so far and the pending read. *)
Definition hush (s : State) := (spoken s, pendingSpeakRef s).

(** The message a send appends. *)
Definition user_message (uid text : jsstring) : ChatMessage :=
  {| msg_id := uid; msg_role := user; msg_content := text; msg_itinerary := None |}.

(** Not a message of the assistant. *)
Definition not_assistant (m : ChatMessage) : Prop := msg_role m <> assistant.

(** The voice [v] is the first one with the property [p]: none of those
    before it has it. *)
Definition first_of (p : TTS.Voice -> bool) (pre : list TTS.Voice) (v : TTS.Voice) : Prop :=
  p v = true /\ Forall (fun x => p x = false) pre.

Definition none_of (p : TTS.Voice -> bool) (l : list TTS.Voice) : Prop :=
  Forall (fun x => p x = false) l.

(** A voice of Google for US English. *)
Definition googleUS (v : TTS.Voice) : bool := TTS.is_enUS v && TTS.is_google v.

(** What holds of the loader after [n] calls of [loadVoices]: the counter
    is bounded, and as long as the voices are not ready every call has
    counted and a poll is set. *)
Definition loading_inv (n : nat) (st : TTS.Loader) : Prop :=
  (TTS.tries st <= 21)%nat
  /\ (TTS.tries st <= n)%nat
  /\ (TTS.ready st = false -> TTS.voices st = [] /\ (1 <= TTS.polls st)%nat /\ TTS.tries st = n).

(** The route fails: the body of the request does not parse, the webhook
    cannot be reached, its answer does not parse, or its status cannot be
    the status of a response with a body. *)
Definition route_fails (rt : Runtime) (req : option json)
    (webhook : jsstring -> fetch_result) : Prop :=
  match req with
  | None => True
  | Some body =>
      match webhook (JSON_stringify rt body) with
      | Rejected _ => True
      | Responded _ None => True
      | Responded status (Some data) =>
          new_Response (JSON_stringify rt data) status = None
      end
  end.

(** A code unit of a string: 16 bits. *)
Definition code_unit (c : char) : Prop := (c < 65536)%N.

(** Every surrogate of the text has its pair. *)
Fixpoint paired (s : jsstring) : bool :=
  match s with
  | [] => true
  | c :: s' =>
      if is_trail c then false
      else if is_lead c then
        match s' with
        | d :: s'' => is_trail d && paired s''
        | [] => false
        end
      else paired s'
  end.

(** A character [encodeURIComponent] writes: one it leaves as it is, or the
    percent sign. *)
Definition url_safe (c : char) : Prop := uri_unreserved c = true \/ c = 37%N.

(** No two white-space characters in a row. *)
Fixpoint no_double_ws (s : jsstring) : Prop :=
  match s with
  | a :: s' =>
      match s' with
      | b :: _ => isWS a && isWS b = false
      | [] => True
      end /\ no_double_ws s'
  | [] => True
  end.

(** Whether a text begins with white space. *)
Definition hd_ws (s : jsstring) : bool :=
  match s with
  | c :: _ => isWS c
  | [] => false
  end.

(** The characters of a text that are not white space. *)
Definition visible_units (s : jsstring) : jsstring :=
  filter (fun c => negb (isWS c)) s.

(** The final and the interim pieces of one result event. *)
Definition finals_of (results : list (jsstring * bool)) : jsstring :=
  List.concat (map fst (filter snd results)).

Definition interim_of (results : list (jsstring * bool)) : jsstring :=
  List.concat (map fst (filter (fun r => negb (snd r)) results)).

(** A recognition session: its start, then one result event after the
    other. *)
Definition session (batches : list (list (jsstring * bool))) (s : State) : State :=
  fold_left (fun st results => rec_onresult results st) batches (rec_onstart s).

(** A bullet line: an asterisk, white space, and the text of the item,
    which does not begin with white space. *)
Definition bullet_of (body line : jsstring) : Prop :=
  exists w, w <> [] /\ Forall (fun c => isWS c = true) w
            /\ hd_ws body = false /\ line = 42%N :: w ++ body.

(** A line that is no bullet line. *)
Definition not_bullet (line : jsstring) : Prop :=
  forall body, ~ bullet_of body line.

(* ===================================================================== *)
(** * Properties *)
(* ===================================================================== *)

(** ** The model at work *)

Example parse_object :
  JSON_parse (qlit " {'b': [1, -2.50e1, true, null], 'a': 'xA\n', 'b': {}} ")
  = Some (JObject [(lit "b", JObject []);
                   (lit "a", JString ([120; 65; 10]%N))]).
Proof. vm_compute. reflexivity. Qed.

Example parse_number :
  JSON_parse (lit "-2.50e1") = Some (JNumber (Number true 250 (-1))).
Proof. vm_compute. reflexivity. Qed.

Example parse_rejects :
  map JSON_parse [lit "01"; lit "[1,]"; qlit "{'a':1,}"; lit "1."; lit "tru";
                  qlit "'a" ++ [LF] ++ qlit "b'"; lit ""; lit "1 2"; [160%N; 49%N]]
  = [None; None; None; None; None; None; None; None; None].
Proof. vm_compute. reflexivity. Qed.

Example tiny_numbers_are_falsy :
  map truthy [JNumber (Number false 1 (-400)); JNumber (Number true 0 3);
              JNumber (Number false 5 (-324)); jnum 0; jnum 7]
  = [false; false; true; false; true].
Proof. vm_compute. reflexivity. Qed.

Example strip_fence_in_prose :
  stripCodeFence (lit "Here you go: ```JSON" ++ [LF] ++ qlit "{'a': 1}" ++ [LF]
                  ++ lit "``` enjoy!")
  = qlit "{'a': 1}".
Proof. vm_compute. reflexivity. Qed.

Example strip_no_fence : stripCodeFence (lit "  plain text ") = lit "plain text".
Proof. vm_compute. reflexivity. Qed.

Example stringify_nested :
  JSON_stringify2 demo_runtime
    (JObject [(lit "a", JArray [jnum 1; JArray []]); (lit "b", JString [34; 10]%N)])
  = lit "{" ++ [LF] ++ qlit "  'a': [" ++ [LF] ++ lit "    1," ++ [LF]
    ++ lit "    []" ++ [LF] ++ lit "  ]," ++ [LF]
    ++ qlit "  'b': '" ++ [92; 34]%N ++ lit "\n" ++ qlit "'" ++ [LF] ++ lit "}".
Proof. vm_compute. reflexivity. Qed.

Example encode_component :
  encodeURIComponent (lit "Caf" ++ [233; 32; 8364; 55357; 56832]%N ++ lit "a&b/c!")
  = Some (lit "Caf%C3%A9%20%E2%82%AC%F0%9F%98%80a%26b%2Fc!")
  /\ encodeURIComponent [55357%N] = None.
Proof. vm_compute. split; reflexivity. Qed.

(** The response [{"error":"rate limited"}] with status 429 gives an error
    message that contains the text. *)
Example rate_limited :
  messages (settle demo_runtime (Build_inflight (lit "Rome") false true)
              (Responded 429 (Some (JObject [(lit "error", jstr "rate limited")])))
              (lit "u2") (lit "u3") (init true true))
  = [welcome;
     {| msg_id := lit "u2"; msg_role := error;
        msg_content := lit "Error: rate limited"; msg_itinerary := None |}].
Proof. vm_compute. reflexivity. Qed.

Example carousel_of_three :
  map (Viewer.safeIndex 3) [-4; -1; 0; 2; 3; 7]%Z = [2; 2; 0; 2; 0; 1]%Z.
Proof. vm_compute. reflexivity. Qed.

(** ** Strings *)

Lemma dropWhile_split (p : char -> bool) (s : jsstring) :
  exists w, s = w ++ dropWhile p s /\ Forall (fun c => p c = true) w.
Proof.
  induction s as [|c s IH]; simpl.
  - exists []. split; [reflexivity | constructor].
  - destruct (p c) eqn:E.
    + destruct IH as [w [Hw Hall]].
      exists (c :: w). split.
      * simpl. f_equal. exact Hw.
      * constructor; assumption.
    + exists []. split; [reflexivity | constructor].
Qed.

Lemma trimEnd_split (s : jsstring) :
  exists w, s = trimEnd s ++ w /\ Forall (fun c => isWS c = true) w.
Proof.
  unfold trimEnd.
  destruct (dropWhile_split isWS (rev s)) as [w [Hw Hall]].
  exists (rev w). split.
  - rewrite <- (rev_involutive s) at 1. rewrite Hw at 1.
    rewrite rev_app_distr. reflexivity.
  - apply Forall_rev. exact Hall.
Qed.

Lemma dropWhile_all (p : char -> bool) (s : jsstring) :
  Forall (fun c => p c = true) s -> dropWhile p s = [].
Proof.
  induction 1 as [|c s Hc _ IH]; simpl; [reflexivity|].
  rewrite Hc. exact IH.
Qed.

Lemma trim_all_ws (s : jsstring) :
  Forall (fun c => isWS c = true) s -> trim s = [].
Proof.
  intros H. unfold trim, trimStart. rewrite dropWhile_all by exact H. reflexivity.
Qed.

Lemma dropWhile_head (p : char -> bool) (c : char) (s : jsstring) :
  p c = false -> dropWhile p (c :: s) = c :: s.
Proof. intros H. simpl. rewrite H. reflexivity. Qed.

Lemma split_lines_nonempty (s : jsstring) : split_lines s <> [].
Proof.
  induction s as [|c s IH]; simpl; [discriminate|].
  destruct (N.eqb c LF); [discriminate|].
  destruct (split_lines s) as [|l ls] eqn:E; [contradiction|].
  destruct (N.eqb c CR); [|discriminate].
  destruct s as [|d s']; [discriminate|].
  destruct (N.eqb d LF); discriminate.
Qed.

Lemma split_lines_keep (c : char) (s : jsstring) :
  N.eqb c LF = false -> N.eqb c CR = false ->
  split_lines (c :: s) = (c :: hd [] (split_lines s)) :: tl (split_lines s).
Proof.
  intros H1 H2. simpl. rewrite H1, H2.
  destruct (split_lines s) eqn:E; [|reflexivity].
  exfalso. exact (split_lines_nonempty s E).
Qed.

Lemma join_cons_head (sep : jsstring) (c : char) (l : jsstring) (ls : list jsstring) :
  join sep ((c :: l) :: ls) = c :: join sep (l :: ls).
Proof. destruct ls; reflexivity. Qed.

Lemma lines_before_close_keep (c : char) (J : jsstring) :
  lines_before_close J ->
  split_lines (c :: J ++ LF :: fence)
  = (c :: hd [] (split_lines (J ++ LF :: fence))) :: tl (split_lines (J ++ LF :: fence)) ->
  unix_lines (c :: J) = c :: unix_lines J ->
  lines_before_close (c :: J).
Proof.
  intros (l & ls & Hs & Hne & Hj) Hk Hu.
  exists (c :: l), ls. rewrite Hs in Hk. simpl in Hk.
  split; [exact Hk|]. split; [exact Hne|].
  rewrite Hu, <- Hj. unfold pop.
  destruct ls as [|l2 ls2]; [contradiction|].
  change (removelast ((c :: l) :: l2 :: ls2)) with ((c :: l) :: removelast (l2 :: ls2)).
  change (removelast (l :: l2 :: ls2)) with (l :: removelast (l2 :: ls2)).
  apply join_cons_head.
Qed.

Lemma lines_before_close_break (J : jsstring) :
  lines_before_close J ->
  exists l ls, [] :: split_lines (J ++ LF :: fence) = l :: ls /\ ls <> [] /\
               join [LF] (pop (l :: ls)) = LF :: unix_lines J.
Proof.
  intros (l & ls & Hs & Hne & Hj).
  exists [], (l :: ls). rewrite Hs. split; [reflexivity|]. split; [discriminate|].
  rewrite <- Hj. unfold pop.
  destruct ls as [|l2 ls2]; [contradiction|].
  reflexivity.
Qed.

Lemma lines_before_close_all (n : nat) :
  forall J, (List.length J <= n)%nat -> lines_before_close J.
Proof.
  induction n as [|n IH]; intros J Hlen.
  - destruct J; [|simpl in Hlen; lia].
    exists [], [fence]. repeat split; discriminate.
  - destruct J as [|c J].
    + exists [], [fence]. repeat split; discriminate.
    + simpl in Hlen.
      assert (HJ : lines_before_close J) by (apply IH; lia).
      destruct (N.eqb c LF) eqn:Elf.
      * apply N.eqb_eq in Elf. subst c.
        destruct (lines_before_close_break _ HJ) as (l & ls & Hs & Hne & Hj).
        exists l, ls. split; [exact Hs|]. split; [exact Hne|exact Hj].
      * destruct (N.eqb c CR) eqn:Ecr.
        -- apply N.eqb_eq in Ecr. subst c.
           destruct J as [|d J'].
           ++ exists [], [fence]. repeat split; discriminate.
           ++ destruct (N.eqb d LF) eqn:Ed.
              ** apply N.eqb_eq in Ed. subst d.
                 assert (HJ' : lines_before_close J') by (apply IH; simpl in Hlen; lia).
                 destruct (lines_before_close_break _ HJ') as (l & ls & Hs & Hne & Hj).
                 exists l, ls. split; [exact Hs|]. split; [exact Hne|exact Hj].
              ** apply lines_before_close_keep; [exact HJ| |].
                 --- change ((d :: J') ++ LF :: fence) with (d :: J' ++ LF :: fence).
                     set (rest := J' ++ LF :: fence).
                     change (split_lines (CR :: d :: rest)) with
                       (if N.eqb d LF then [] :: split_lines rest
                        else match split_lines (d :: rest) with
                             | l :: ls => (CR :: l) :: ls
                             | [] => [[CR]]
                             end).
                     rewrite Ed.
                     destruct (split_lines (d :: rest)) eqn:E; [|reflexivity].
                     exfalso. exact (split_lines_nonempty _ E).
                 --- simpl. rewrite Ed. reflexivity.
        -- apply lines_before_close_keep; [exact HJ| |].
           ++ apply split_lines_keep; assumption.
           ++ simpl. rewrite Ecr. reflexivity.
Qed.

Lemma trim_fenced (J : jsstring) : trim (fenced J) = fenced J.
Proof.
  unfold trim, trimStart, trimEnd.
  change (fenced J) with (96%N :: lit "``json" ++ [LF] ++ J ++ [LF] ++ fence) at 1.
  rewrite dropWhile_head by reflexivity.
  change (96%N :: lit "``json" ++ [LF] ++ J ++ [LF] ++ fence) with (fenced J).
  assert (Hrev : exists r, rev (fenced J) = 96%N :: r).
  { exists (lit "``" ++ [LF] ++ rev (lit "```json" ++ [LF] ++ J)).
    unfold fenced.
    replace (lit "```json" ++ [LF] ++ J ++ [LF] ++ fence)
      with ((lit "```json" ++ [LF] ++ J) ++ [LF] ++ fence)
      by (rewrite <- !app_assoc; reflexivity).
    rewrite rev_app_distr. reflexivity. }
  destruct Hrev as [r Hrev].
  rewrite Hrev. rewrite dropWhile_head by reflexivity.
  transitivity (rev (rev (fenced J))); [|apply rev_involutive].
  f_equal. symmetry. exact Hrev.
Qed.

Lemma fenced_is_fenced (J : jsstring) :
  startsWith fence (fenced J) && endsWith fence (fenced J) = true.
Proof.
  apply andb_true_intro. split; [reflexivity|].
  unfold endsWith, fenced.
  rewrite !app_assoc. rewrite rev_app_distr. reflexivity.
Qed.

Lemma split_lines_fenced (J : jsstring) :
  shift (split_lines (fenced J)) = split_lines (J ++ LF :: fence).
Proof.
  unfold fenced.
  change (lit "```json" ++ [LF] ++ J ++ [LF] ++ fence)
    with (96 :: 96 :: 96 :: 106 :: 115 :: 111 :: 110 :: LF :: (J ++ LF :: fence))%N.
  rewrite !split_lines_keep by reflexivity.
  reflexivity.
Qed.

(** What [stripCodeFence] returns for a fenced text. *)
Lemma stripCodeFence_fenced (J : jsstring) :
  stripCodeFence (fenced J) = trim (unix_lines J).
Proof.
  unfold stripCodeFence. rewrite trim_fenced, fenced_is_fenced.
  rewrite split_lines_fenced.
  destruct (lines_before_close_all _ J (le_n _)) as (l & ls & Hs & _ & Hj).
  rewrite Hs, Hj. reflexivity.
Qed.

(** ** The lexer and white space *)

(** Boolean comparisons on code units as arithmetic facts. *)
Ltac bool_arith :=
  rewrite ?orb_true_iff, ?andb_true_iff, ?orb_false_iff, ?andb_false_iff,
    ?negb_true_iff, ?negb_false_iff, ?N.eqb_eq, ?N.eqb_neq, ?N.leb_le,
    ?N.leb_gt, ?N.ltb_lt, ?N.ltb_ge in *.

(** Split on the tests of a conditional in hypothesis [H], closing the
    branches that contradict the arithmetic known about the code unit. *)
Ltac split_ifs H :=
  repeat match type of H with
         | context [if ?b then _ else _] =>
             let E := fresh "E" in
             destruct b eqn:E; try discriminate H;
             try (exfalso; bool_arith; unfold LF, CR in *; intuition lia)
         end.

Lemma isWS_facts (c : char) :
  isWS c = true ->
  (9 <= c <= 13 \/ c = 32 \/ c = 160 \/ c = 5760 \/ 8192 <= c <= 8202 \/ c = 8232
   \/ c = 8233 \/ c = 8239 \/ c = 8287 \/ c = 12288 \/ c = 65279)%N.
Proof. unfold isWS. intros H. bool_arith. intuition lia. Qed.

Lemma json_ws_step (c : char) :
  is_json_ws c = true -> default_step c = Some ([], LDefault).
Proof. intros H. unfold default_step. rewrite H. reflexivity. Qed.

Lemma ws_default_step (c : char) (r : list token * lstate) :
  isWS c = true -> default_step c = Some r -> is_json_ws c = true.
Proof.
  intros Hws H. apply isWS_facts in Hws.
  destruct (is_json_ws c) eqn:E; [reflexivity|exfalso].
  unfold default_step in H. rewrite E in H.
  unfold is_digit in H. split_ifs H.
Qed.

Lemma default_step_lit_ok (c : char) (out : list token) (st : lstate) :
  default_step c = Some (out, st) -> lit_ok st.
Proof.
  unfold default_step. intros H.
  repeat match type of H with
         | context [if ?b then _ else _] =>
             destruct b; [injection H as <- <-; simpl; auto|]
         end; try discriminate H.
  all: repeat constructor.
Qed.

Lemma lex_step_lit_ok (st st' : lstate) (c : char) (out : list token) :
  lit_ok st -> lex_step st c = Some (out, st') -> lit_ok st'.
Proof.
  intros Hok H. destruct st as [|rest tok|acc|acc|acc k v|ph a]; simpl in H.
  - exact (default_step_lit_ok _ _ _ H).
  - destruct rest as [|e rest']; [discriminate|].
    destruct (N.eqb c e); [|discriminate].
    inversion Hok; subst.
    destruct rest'; injection H as <- <-; simpl; auto.
  - split_ifs H; injection H as <- <-; exact I.
  - destruct (c =? 117)%N; [injection H as <- <-; exact I|].
    destruct (escape_char c); [injection H as <- <-; exact I|discriminate].
  - destruct (hex_value c); [|discriminate].
    destruct (k =? 3)%nat; injection H as <- <-; exact I.
  - destruct a as [neg m fl en e]. unfold num_step, end_number in H.
    destruct ph;
      repeat match type of H with
             | context [if ?b then _ else _] =>
                 destruct b; [injection H as <- <-; exact I|]
             end; try discriminate H;
      (destruct (default_step c) as [[o s1]|] eqn:Ed; [|discriminate]);
      injection H as <- <-; exact (default_step_lit_ok _ _ _ Ed).
Qed.

(** A white-space code unit is taken either between tokens, where it must
    be one of the four of JSON and ends a number that was being read, or
    inside a string. *)
Lemma ws_step (st st' : lstate) (c : char) (out : list token) :
  lit_ok st -> isWS c = true -> lex_step st c = Some (out, st') ->
  (is_json_ws c = true /\ st' = LDefault /\ lex_end st = Some out)
  \/ (exists acc, st = LStr acc /\ st' = LStr (c :: acc) /\ out = []).
Proof.
  intros Hok Hws H.
  destruct st as [|rest tok|acc|acc|acc k v|ph a]; simpl in H.
  - left. pose proof (ws_default_step _ _ Hws H) as Hj.
    rewrite (json_ws_step _ Hj) in H. injection H as <- <-. auto.
  - exfalso. destruct rest as [|e rest']; [discriminate|].
    destruct (N.eqb c e) eqn:E; [|discriminate].
    apply N.eqb_eq in E. subst e. inversion Hok; subst. congruence.
  - right. apply isWS_facts in Hws. split_ifs H.
    injection H as <- <-. eauto.
  - exfalso. apply isWS_facts in Hws. unfold escape_char in H. split_ifs H.
  - exfalso. apply isWS_facts in Hws. unfold hex_value in H. split_ifs H.
  - left. destruct a as [neg m fl en e].
    unfold num_step, end_number, is_digit, is_e in H.
    pose proof (isWS_facts _ Hws) as Hf.
    destruct ph; split_ifs H;
      (destruct (default_step c) as [[o s1]|] eqn:Ed; [|discriminate]);
      pose proof (ws_default_step _ _ Hws Ed) as Hj;
      rewrite (json_ws_step _ Hj) in Ed; injection Ed as <- <-;
      injection H as <- <-; auto.
Qed.

(** Where the input may end, a JSON white-space unit may follow. *)
Lemma end_then_ws (st : lstate) (c : char) (out : list token) :
  is_json_ws c = true -> lex_end st = Some out ->
  lex_step st c = Some (out, LDefault).
Proof.
  intros Hj He.
  assert (Hc : (c = 32 \/ c = 9 \/ c = 10 \/ c = 13)%N).
  { unfold is_json_ws in Hj. bool_arith. intuition. }
  destruct st as [|rest tok|acc|acc|acc k v|ph a]; simpl in He; try discriminate.
  - injection He as <-. apply json_ws_step. exact Hj.
  - destruct a as [neg m fl en e].
    destruct ph; try discriminate; injection He as <-;
      destruct Hc as [-> | [-> | [-> | ->]]]; reflexivity.
Qed.

Lemma option_map_app_nil (x : option (list token)) :
  option_map (app []) x = x.
Proof. destruct x; reflexivity. Qed.

(** White space at the end of the input changes nothing. *)
Lemma lex_go_ws_only (w : jsstring) :
  Forall (fun c => isWS c = true) w ->
  forall st toks, lit_ok st -> lex_go st w = Some toks -> lex_end st = Some toks.
Proof.
  induction 1 as [|c w Hc _ IH]; intros st toks Hok H; simpl in H; [exact H|].
  destruct (lex_step st c) as [[out st']|] eqn:Es; [|discriminate].
  destruct (lex_go st' w) as [r|] eqn:Er; [|discriminate].
  injection H as <-.
  destruct (ws_step _ _ _ _ Hok Hc Es) as [(_ & -> & He)|(acc & _ & -> & _)].
  - apply (IH LDefault r I) in Er. injection Er as <-.
    rewrite app_nil_r. exact He.
  - apply (IH (LStr (c :: acc)) r I) in Er. discriminate Er.
Qed.

Lemma lex_go_drop_suffix (s w : jsstring) :
  Forall (fun c => isWS c = true) w ->
  forall st toks, lit_ok st -> lex_go st (s ++ w) = Some toks -> lex_go st s = Some toks.
Proof.
  intros Hw. induction s as [|c s IH]; intros st toks Hok H.
  - exact (lex_go_ws_only _ Hw st _ Hok H).
  - simpl in *. destruct (lex_step st c) as [[out st']|] eqn:Es; [|discriminate].
    destruct (lex_go st' (s ++ w)) as [r|] eqn:Er; [|discriminate].
    rewrite (IH st' r (lex_step_lit_ok _ _ _ _ Hok Es) Er). exact H.
Qed.

Lemma lex_trimStart (s : jsstring) (toks : list token) :
  lex s = Some toks -> lex (trimStart s) = Some toks.
Proof.
  unfold lex, trimStart. induction s as [|c s IH]; intros H; [exact H|].
  simpl. destruct (isWS c) eqn:Ec; [|exact H].
  apply IH. simpl in H.
  destruct (default_step c) as [r|] eqn:Ed; [|discriminate].
  rewrite (json_ws_step _ (ws_default_step _ _ Ec Ed)) in Ed. injection Ed as <-.
  rewrite option_map_app_nil in H. exact H.
Qed.

Lemma lex_trim (s : jsstring) (toks : list token) :
  lex s = Some toks -> lex (trim s) = Some toks.
Proof.
  intros H. apply lex_trimStart in H. unfold trim.
  destruct (trimEnd_split (trimStart s)) as [w [Hw Hall]].
  rewrite Hw in H. exact (lex_go_drop_suffix _ _ Hall LDefault _ I H).
Qed.

(** Joining the lines again keeps the tokens: a line end inside a string
    would have made the text invalid, and elsewhere it is white space. *)
Lemma lex_go_unix_lines (n : nat) :
  forall J st toks, (List.length J <= n)%nat -> lit_ok st ->
    lex_go st J = Some toks -> lex_go st (unix_lines J) = Some toks.
Proof.
  induction n as [|n IH]; intros J st toks Hlen Hok H.
  - destruct J; [exact H|simpl in Hlen; lia].
  - destruct J as [|c J]; [exact H|]. simpl in Hlen.
    assert (Hkeep : lex_go st (c :: unix_lines J) = Some toks).
    { simpl in *. destruct (lex_step st c) as [[out st']|] eqn:Es; [|discriminate].
      destruct (lex_go st' J) as [r|] eqn:Er; [|discriminate].
      rewrite (IH J st' r ltac:(lia) (lex_step_lit_ok _ _ _ _ Hok Es) Er). exact H. }
    simpl unix_lines. destruct (N.eqb c CR) eqn:Ecr; [|exact Hkeep].
    apply N.eqb_eq in Ecr. subst c.
    simpl in H. destruct (lex_step st CR) as [[out st']|] eqn:Es; [|discriminate].
    destruct (ws_step _ _ CR _ Hok eq_refl Es) as [(_ & -> & He)|(acc & -> & _ & _)];
      [|discriminate Es].
    destruct J as [|d J'].
    + simpl in H. injection H as <-. rewrite app_nil_r. exact He.
    + destruct (N.eqb d LF) eqn:Ed; [|exact Hkeep].
      apply N.eqb_eq in Ed. subst d.
      change (lex_go LDefault (LF :: J')) with (option_map (app []) (lex_go LDefault J')) in H.
      rewrite option_map_app_nil in H.
      destruct (lex_go LDefault J') as [r|] eqn:Er; [|discriminate].
      simpl. rewrite (end_then_ws st LF _ eq_refl He).
      rewrite (IH J' LDefault r ltac:(simpl in Hlen; lia) I Er). exact H.
Qed.

(** ** C6: stripping the fence of a fenced JSON text *)

(** [C6] For every JSON text [J] (a text [JSON.parse] accepts, with value
    [v]), the text [stripCodeFence] returns for [J] wrapped in a fence with
    the [json] tag parses to the same value [v]. *)
Theorem stripCodeFence_fenced_parse (J : jsstring) (v : json) :
  JSON_parse J = Some v ->
  JSON_parse (stripCodeFence (fenced J)) = Some v.
Proof.
  unfold JSON_parse. intros H.
  destruct (lex J) as [toks|] eqn:El; [|discriminate].
  rewrite stripCodeFence_fenced.
  assert (Hl : lex (trim (unix_lines J)) = Some toks).
  { apply lex_trim. exact (lex_go_unix_lines _ J LDefault toks (le_n _) I El). }
  rewrite Hl. exact H.
Qed.

(** A text with a carriage return and line feed inside and white space
    around, as an instance. *)
Lemma stripCodeFence_fenced_parse_witness :
  JSON_parse (stripCodeFence (fenced ([32; CR; LF]%N ++ qlit "{'a':" ++ [CR; LF]%N ++ qlit "[1, 'x']}" ++ [CR])))
  = Some (JObject [(lit "a", JArray [jnum 1; jstr "x"])]).
Proof.
  apply (stripCodeFence_fenced_parse
           ([32; CR; LF]%N ++ qlit "{'a':" ++ [CR; LF]%N ++ qlit "[1, 'x']}" ++ [CR])).
  vm_compute. reflexivity.
Defined.

(** ** C1: what the normaliser accepts *)

Lemma isItinerary_shape (x : json) :
  isItinerary x = true ->
  exists members meta items,
    x = JObject members /\ get (lit "meta") x = Some meta /\
    get (lit "itinerary") x = Some (JArray items).
Proof.
  unfold isItinerary. intros H.
  destruct x as [| b | n | str | items | members];
    cbn [truthy typeof_object negb orb andb] in H; try discriminate H.
  - destruct b; discriminate H.
  - rewrite orb_true_r in H. discriminate H.
  - rewrite orb_true_r in H. discriminate H.
  - destruct (get (lit "meta") (JObject members)) as [meta|] eqn:Em;
      [|discriminate H].
    destruct (get (lit "itinerary") (JObject members)) as [[| | | | items |]|] eqn:Ei;
      cbn [isArray negb] in H;
      try (destruct (negb (truthy_opt (Some meta)) || _); discriminate H).
    exists members, meta, items. auto.
Qed.

Lemma isItinerary_rejects (x : json) :
  get (lit "meta") x = None \/ isArray (get (lit "itinerary") x) = false ->
  isItinerary x = false.
Proof.
  intros H. destruct (isItinerary x) eqn:E; [|reflexivity].
  destruct (isItinerary_shape x E) as (m & meta & items & _ & Hm & Hi).
  rewrite Hm, Hi in H. destruct H; discriminate.
Qed.

Lemma nextMsg_text (rt : Runtime) (uid : jsstring) (output : json) (text : jsstring) :
  interpret rt output = (None, text) ->
  nextMsg rt uid output
  = {| msg_id := uid; msg_role := assistant; msg_content := text; msg_itinerary := None |}.
Proof.
  intros H. unfold nextMsg. rewrite H. destruct text; reflexivity.
Qed.

(** [C1] The normaliser accepts a payload as an itinerary only if, after
    the fence is stripped and the text parsed, it is an object with a
    [meta] field and an array [itinerary]; a payload without [meta] or
    whose [itinerary] is not an array gives [null]; so does a text that
    does not parse. The reply then shows plain text under the assistant
    role: the trimmed string, or the serialised object. *)
Theorem normaliser_accepts_itineraries_only
  (rt : Runtime) (raw uid : jsstring) (x : json) :
  (forall v, safeParseItinerary raw = Some v ->
     JSON_parse (stripCodeFence raw) = Some v /\
     exists members meta items,
       v = JObject members /\ get (lit "meta") v = Some meta /\
       get (lit "itinerary") v = Some (JArray items))
  /\ (forall v, JSON_parse (stripCodeFence raw) = Some v ->
        get (lit "meta") v = None \/ isArray (get (lit "itinerary") v) = false ->
        safeParseItinerary raw = None)
  /\ (JSON_parse (stripCodeFence raw) = None -> safeParseItinerary raw = None)
  /\ (safeParseItinerary raw = None ->
        nextMsg rt uid (JString raw)
        = {| msg_id := uid; msg_role := assistant; msg_content := trim raw;
             msg_itinerary := None |})
  /\ (isItinerary x = true ->
        exists members meta items,
          x = JObject members /\ get (lit "meta") x = Some meta /\
          get (lit "itinerary") x = Some (JArray items))
  /\ (get (lit "meta") x = None \/ isArray (get (lit "itinerary") x) = false ->
        isItinerary x = false)
  /\ (forall members, x = JObject members -> isItinerary x = false ->
        nextMsg rt uid x
        = {| msg_id := uid; msg_role := assistant;
             msg_content := JSON_stringify2 rt x; msg_itinerary := None |}).
Proof.
  unfold safeParseItinerary.
  split; [|split; [|split; [|split; [|split; [|split]]]]].
  - intros v H. destruct (JSON_parse (stripCodeFence raw)) as [obj|]; [|discriminate].
    destruct (isItinerary obj) eqn:E; [|discriminate].
    injection H as <-. split; [reflexivity|]. exact (isItinerary_shape obj E).
  - intros v Hp Hv. rewrite Hp. rewrite (isItinerary_rejects v Hv). reflexivity.
  - intros Hp. rewrite Hp. reflexivity.
  - intros Hn. apply nextMsg_text. unfold interpret, safeParseItinerary.
    rewrite Hn. reflexivity.
  - apply isItinerary_shape.
  - apply isItinerary_rejects.
  - intros members -> Hx. apply nextMsg_text. unfold interpret.
    rewrite Hx. reflexivity.
Qed.

(** A fenced object without [itinerary], a text that is no JSON, and an
    object whose [itinerary] is a string. *)
Lemma normaliser_accepts_itineraries_only_witness :
  safeParseItinerary (fenced (qlit "{'meta':{'days':1}}")) = None
  /\ safeParseItinerary (lit "Sure, here is a plan") = None
  /\ msg_content (nextMsg demo_runtime (lit "u") (JString (lit " Sure, here is a plan ")))
     = lit "Sure, here is a plan"
  /\ isItinerary (JObject [(lit "meta", jnum 1); (lit "itinerary", jstr "x")]) = false
  /\ msg_content (nextMsg demo_runtime (lit "u") (JObject [(lit "meta", jnum 1)]))
     = lit "{" ++ [LF] ++ qlit "  'meta': 1" ++ [LF] ++ lit "}".
Proof.
  pose proof (normaliser_accepts_itineraries_only demo_runtime
                (fenced (qlit "{'meta':{'days':1}}")) (lit "u")
                (JObject [(lit "meta", jnum 1); (lit "itinerary", jstr "x")])) as T1.
  pose proof (normaliser_accepts_itineraries_only demo_runtime
                (lit " Sure, here is a plan ") (lit "u")
                (JObject [(lit "meta", jnum 1)])) as T2.
  pose proof (normaliser_accepts_itineraries_only demo_runtime
                (lit "Sure, here is a plan") (lit "u") JNull) as T3.
  destruct T1 as (_ & A2 & _ & _ & _ & A6 & _).
  destruct T2 as (_ & _ & B3 & B4 & _ & _ & B7).
  destruct T3 as (_ & _ & C3 & _).
  split; [|split; [|split; [|split]]].
  - apply (A2 (JObject [(lit "meta", JObject [(lit "days", jnum 1)])])).
    + vm_compute. reflexivity.
    + right. vm_compute. reflexivity.
  - apply C3. vm_compute. reflexivity.
  - rewrite (B4 (B3 eq_refl)). vm_compute. reflexivity.
  - apply A6. right. vm_compute. reflexivity.
  - rewrite (B7 _ eq_refl eq_refl). vm_compute. reflexivity.
Defined.

(** ** Send: what a settled request appends *)

Lemma messages_clear_pending (s : State) :
  messages (clear_pending s) = messages s.
Proof. unfold clear_pending. destruct (pendingSpeakRef s); reflexivity. Qed.

Lemma messages_speak (src : speech_source) (text : jsstring) (s : State) :
  messages (speak src text s) = messages s.
Proof.
  unfold speak. destruct (negb (ttsSupported s)); [reflexivity|].
  destruct (is_empty text); reflexivity.
Qed.

Lemma messages_send_catch (f : inflight) (e : thrown) (uid : jsstring) (s : State) :
  messages (send_catch f e uid s) = messages s ++ [error_message uid e].
Proof.
  unfold send_catch.
  destruct (f_autoRead f && f_tts f); [rewrite messages_speak|]; reflexivity.
Qed.

(** After a response with a success status the reply is appended, and
    nothing else unless composing the text to read raises an exception. *)
Lemma settle_ok_messages (rt : Runtime) (f : inflight) (status : N)
      (body : option json) (uid uid2 : jsstring) (s : State) :
  res_ok status = true ->
  let data := match body with Some d => d | None => JObject [] end in
  let m := nextMsg rt uid (select_output data) in
  let s' := settle rt f (Responded status body) uid uid2 s in
  loading s' = false /\
  messages s' =
    messages s ++ m ::
      (if f_autoRead f && f_tts f
       then match toSpeakOf rt m with
            | Throw e => [error_message uid2 e]
            | Ret _ => []
            end
       else []).
Proof.
  intros Hok data m s'. split.
  { subst s'. unfold settle. destruct (send_try _ _ _ _ _); reflexivity. }
  subst s'. unfold settle, send_try. rewrite Hok. cbn [negb].
  fold data. fold m.
  destruct (f_autoRead f && f_tts f) eqn:Ea.
  - destruct (toSpeakOf rt m) as [toSpeak|e].
    + destruct (is_empty toSpeak); cbn; [reflexivity|].
      rewrite messages_clear_pending. reflexivity.
    + cbn. rewrite messages_send_catch. cbn. rewrite <- app_assoc. reflexivity.
  - reflexivity.
Qed.

(** ** C2: the Rome scenario *)

Lemma rome_parses : safeParseItinerary rome_output = Some rome_payload.
Proof. vm_compute. reflexivity. Qed.

Lemma rome_nextMsg (rt : Runtime) (uid : jsstring) :
  nextMsg rt uid (JString rome_output) = rome_message uid.
Proof. unfold nextMsg, interpret. rewrite rome_parses. reflexivity. Qed.

Lemma rome_toSpeak (rt : Runtime) (uid : jsstring) :
  exists text, toSpeakOf rt (rome_message uid) = Ret text.
Proof. eexists. vm_compute. reflexivity. Qed.

(** [C2], as the code has it. When the backend output is the fenced Rome
    text, a settled send appends exactly one message: an assistant message
    whose itinerary is the parsed payload, in which day 1 has exactly one
    activity, titled Colosseum, at 09:00. The reply has no text of its own
    ([botText] is empty); the content of the message is the fixed caption
    that stands in for it. *)
Theorem rome_scenario (rt : Runtime) (f : inflight) (status : N) (data : json)
        (uid uid2 : jsstring) (s : State) :
  res_ok status = true ->
  select_output data = JString rome_output ->
  messages (settle rt f (Responded status (Some data)) uid uid2 s)
  = messages s ++ [{| msg_id := uid; msg_role := assistant;
                      msg_content := caption;
                      msg_itinerary := Some rome_payload |}]
  /\ interpret rt (JString rome_output) = (Some rome_payload, [])
  /\ get (lit "itinerary") rome_payload = Some (JArray [rome_day1])
  /\ get (lit "day") rome_day1 = Some (jnum 1)
  /\ get (lit "activities") rome_day1 = Some (JArray [rome_activity])
  /\ get (lit "title") rome_activity = Some (jstr "Colosseum")
  /\ get (lit "time") rome_activity = Some (jstr "09:00").
Proof.
  intros Hok Hout. split.
  - destruct (settle_ok_messages rt f status (Some data) uid uid2 s Hok) as [_ Hm].
    rewrite Hm, Hout, rome_nextMsg.
    destruct (rome_toSpeak rt uid) as [text Ht]. rewrite Ht.
    destruct (f_autoRead f && f_tts f); reflexivity.
  - split.
    + unfold interpret. rewrite rome_parses. reflexivity.
    + repeat split; reflexivity.
Qed.

Lemma rome_scenario_witness :
  messages (settle demo_runtime (Build_inflight (lit "Rome") true true)
              rome_response (lit "u2") (lit "u3")
              (send None (lit "u1") (set_message (lit "Rome") (init true true))))
  = [welcome;
     {| msg_id := lit "u1"; msg_role := user; msg_content := lit "Rome";
        msg_itinerary := None |};
     rome_message (lit "u2")].
Proof.
  exact (proj1 (rome_scenario demo_runtime (Build_inflight (lit "Rome") true true)
                  200 (JObject [(lit "output", JString rome_output)])
                  (lit "u2") (lit "u3")
                  (send None (lit "u1") (set_message (lit "Rome") (init true true)))
                  eq_refl eq_refl)).
Defined.

(** [C2], as stated, fails: in the conversation that sends "Rome" and
    receives the fenced text, the content of the assistant message is the
    caption, which is not empty. *)
Lemma rome_content_not_empty :
  exists s',
    run demo_runtime (init true true)
        [EChange (lit "Rome"); EClickSend (lit "u1");
         ESettle 0 rome_response (lit "u2") (lit "u3")] = Some s'
    /\ map msg_role (messages s') = [assistant; user; assistant]
    /\ map msg_content (skipn 2 (messages s')) = [caption]
    /\ caption <> [].
Proof.
  eexists. split; [vm_compute; reflexivity|].
  split; [reflexivity|]. split; [reflexivity|]. discriminate.
Qed.

(** ** C3: sends that are rejected *)

(** [C3] A send whose input (the override, or the input field without one)
    is empty or white space only, and any send while an earlier one is
    outstanding, returns the state it was given: no message is appended,
    the input field and the loading flag are as before, and no request is
    issued. *)
Theorem send_rejected (textOverride : option jsstring) (uid : jsstring) (s : State) :
  Forall (fun c => isWS c = true)
         (match textOverride with Some t => t | None => message s end)
  \/ loading s = true ->
  send textOverride uid s = s
  /\ messages (send textOverride uid s) = messages s
  /\ message (send textOverride uid s) = message s
  /\ loading (send textOverride uid s) = loading s
  /\ requests (send textOverride uid s) = requests s.
Proof.
  intros H.
  assert (E : send textOverride uid s = s).
  { unfold send. cbv zeta. destruct H as [H|H].
    - assert (Ht : trim (match textOverride with Some t => t | None => message s end) = [])
        by (apply trim_all_ws; exact H).
      rewrite Ht. reflexivity.
    - rewrite H, orb_true_r. reflexivity. }
  rewrite E. auto.
Qed.

(** White space typed into the field of the fresh page, and a second send
    while the first is outstanding. *)
Lemma send_rejected_witness :
  send None (lit "u") (set_message [32; 9; 160; 10]%N (init true true))
  = set_message [32; 9; 160; 10]%N (init true true)
  /\ send (Some (lit "again")) (lit "u2")
          (send None (lit "u1") (set_message (lit "Rome") (init true true)))
     = send None (lit "u1") (set_message (lit "Rome") (init true true)).
Proof.
  split.
  - apply (send_rejected None (lit "u")
             (set_message [32; 9; 160; 10]%N (init true true))).
    left. simpl. repeat constructor.
  - apply (send_rejected (Some (lit "again")) (lit "u2")
             (send None (lit "u1") (set_message (lit "Rome") (init true true)))).
    right. reflexivity.
Defined.

(** ** C5: a success status with a body that does not parse *)

Lemma toSpeakOf_no_itinerary (rt : Runtime) (m : ChatMessage) :
  msg_itinerary m = None -> exists text, toSpeakOf rt m = Ret text.
Proof. intros H. unfold toSpeakOf. rewrite H. eexists. reflexivity. Qed.

(** [C5], as the code has it. When the response has a success status and
    its body does not parse, the parse failure is ignored and the body
    counts as the empty object: the send appends exactly one message, of
    the assistant role, whose content is the serialised empty object, and
    ends with the loading flag cleared; nothing is thrown further. *)
Theorem unparseable_success_body (rt : Runtime) (f : inflight) (status : N)
        (uid uid2 : jsstring) (s : State) :
  res_ok status = true ->
  messages (settle rt f (Responded status None) uid uid2 s)
  = messages s ++ [{| msg_id := uid; msg_role := assistant;
                      msg_content := lit "{}"; msg_itinerary := None |}]
  /\ loading (settle rt f (Responded status None) uid uid2 s) = false.
Proof.
  intros Hok.
  destruct (settle_ok_messages rt f status None uid uid2 s Hok) as [Hl Hm].
  split; [|exact Hl]. rewrite Hm.
  change (nextMsg rt uid (select_output (JObject [])))
    with {| msg_id := uid; msg_role := assistant;
            msg_content := lit "{}"; msg_itinerary := None |}.
  destruct (toSpeakOf_no_itinerary rt
              {| msg_id := uid; msg_role := assistant;
                 msg_content := lit "{}"; msg_itinerary := None |} eq_refl)
    as [text Ht].
  rewrite Ht. destruct (f_autoRead f && f_tts f); reflexivity.
Qed.

Lemma unparseable_success_body_witness :
  messages (settle demo_runtime (Build_inflight (lit "Rome") true true)
              (Responded 200 None) (lit "u2") (lit "u3")
              (send None (lit "u1") (set_message (lit "Rome") (init true true))))
  = [welcome;
     {| msg_id := lit "u1"; msg_role := user; msg_content := lit "Rome";
        msg_itinerary := None |};
     {| msg_id := lit "u2"; msg_role := assistant; msg_content := lit "{}";
        msg_itinerary := None |}].
Proof.
  exact (proj1 (unparseable_success_body demo_runtime
                  (Build_inflight (lit "Rome") true true) 200 (lit "u2") (lit "u3")
                  (send None (lit "u1") (set_message (lit "Rome") (init true true)))
                  eq_refl)).
Defined.

(** [C5], as stated, fails: after a send that receives status 200 with a
    body that is not JSON, the conversation holds no message of the error
    role; the message appended is an assistant message. *)
Lemma unparseable_success_body_no_error :
  exists s',
    run demo_runtime (init true true)
        [EChange (lit "Rome"); EClickSend (lit "u1");
         ESettle 0 (Responded 200 None) (lit "u2") (lit "u3")] = Some s'
    /\ existsb is_error (messages s') = false
    /\ map msg_role (messages s') = [assistant; user; assistant]
    /\ map msg_content (skipn 2 (messages s')) = [lit "{}"].
Proof.
  eexists. split; [vm_compute; reflexivity|].
  repeat split; reflexivity.
Qed.

(** ** C10: a response without [output] *)

(** [C10] When the body of a successful response has no [output] field
    ([undefined], or [null]) the body itself is the output; a body that
    did not parse counts as the empty object and is the output likewise.
    So an itinerary object at the top level is accepted: the send appends
    an assistant message that carries it as its itinerary, under the
    caption. An error message follows that one only when composing the
    text to read raises an exception. *)
Theorem bare_body_is_output (rt : Runtime) (f : inflight) (status : N)
        (body : option json) (uid uid2 : jsstring) (s : State) :
  let data := match body with Some d => d | None => JObject [] end in
  res_ok status = true ->
  nullish (get (lit "output") data) = None ->
  select_output data = data
  /\ (body = None -> select_output data = JObject [])
  /\ (isItinerary data = true ->
      exists rest,
        messages (settle rt f (Responded status body) uid uid2 s)
        = messages s ++ {| msg_id := uid; msg_role := assistant;
                           msg_content := caption;
                           msg_itinerary := Some data |} :: rest
        /\ (rest = [] \/ exists e, rest = [error_message uid2 e])).
Proof.
  intros data Hok Hno.
  assert (Hsel : select_output data = data).
  { unfold select_output. rewrite Hno. reflexivity. }
  split; [exact Hsel|]. split.
  - intros ->. reflexivity.
  - intros Hit.
    destruct (settle_ok_messages rt f status body uid uid2 s Hok) as [_ Hm].
    fold data in Hm. rewrite Hsel in Hm.
    assert (Hn : nextMsg rt uid data
                 = {| msg_id := uid; msg_role := assistant;
                      msg_content := caption; msg_itinerary := Some data |}).
    { destruct (isItinerary_shape data Hit) as (members & _ & _ & Hd & _).
      unfold nextMsg, interpret. rewrite Hd in *. cbn [truthy typeof_object andb].
      rewrite Hit. reflexivity. }
    rewrite Hn in Hm. eexists. split; [exact Hm|].
    destruct (f_autoRead f && f_tts f); [|left; reflexivity].
    destruct (toSpeakOf rt _); [left; reflexivity|right; eexists; reflexivity].
Qed.

(** The Rome payload as the whole body, without a wrapper. *)
Lemma bare_body_is_output_witness :
  exists rest,
    messages (settle demo_runtime (Build_inflight (lit "Rome") true true)
                (Responded 200 (Some rome_payload)) (lit "u2") (lit "u3")
                (init true true))
    = [welcome] ++ rome_message (lit "u2") :: rest
    /\ (rest = [] \/ exists e, rest = [error_message (lit "u3") e]).
Proof.
  exact (proj2 (proj2 (bare_body_is_output demo_runtime
                  (Build_inflight (lit "Rome") true true) 200 (Some rome_payload)
                  (lit "u2") (lit "u3") (init true true) eq_refl eq_refl))
               eq_refl).
Defined.

(** ** C7: precedence of the map link *)

(** [C7] The map link of a location follows the order coordinates, name,
    address. With [lat] and [lon] both given (any number, zero included)
    the link is the coordinate link. Otherwise, with a name (a non-empty
    string) it is the search link of the name; otherwise, with an address
    (a non-empty string) the search link of the address; otherwise there is
    no link. The search link of a text is the search prefix followed by the
    encoded text (for a text with an unpaired surrogate the encoding, and
    with it the call, raises [URIError]). Without a location there is no
    link. *)
Theorem googleMapsLink_precedence (rt : Runtime) (loc : Location) :
  (forall lat lon, loc_lat loc = Some lat -> loc_lon loc = Some lon ->
     googleMapsLink rt (Some loc)
     = Ret (Some (coord_prefix ++ Number_toString rt lat ++ lit ","
                  ++ Number_toString rt lon)))
  /\ (loc_lat loc = None \/ loc_lon loc = None ->
      (forall name, loc_name loc = Some name -> name <> [] ->
         googleMapsLink rt (Some loc) = search_link rt (Some name)
         /\ forall enc, encodeURIComponent name = Some enc ->
              googleMapsLink rt (Some loc) = Ret (Some (search_prefix ++ enc)))
      /\ (loc_name loc = None \/ loc_name loc = Some [] ->
          (forall address, loc_address loc = Some address -> address <> [] ->
             googleMapsLink rt (Some loc) = search_link rt (Some address)
             /\ forall enc, encodeURIComponent address = Some enc ->
                  googleMapsLink rt (Some loc) = Ret (Some (search_prefix ++ enc)))
          /\ (loc_address loc = None \/ loc_address loc = Some [] ->
              googleMapsLink rt (Some loc) = Ret None)))
  /\ googleMapsLink rt None = Ret None.
Proof.
  split; [|split; [|reflexivity]].
  - intros lat lon Hlat Hlon. unfold googleMapsLink. rewrite Hlat, Hlon. reflexivity.
  - intros Hno.
    assert (Hg : googleMapsLink rt (Some loc)
                 = if nonempty (loc_name loc) then search_link rt (loc_name loc)
                   else if nonempty (loc_address loc) then search_link rt (loc_address loc)
                   else Ret None).
    { unfold googleMapsLink.
      destruct Hno as [-> | ->]; [|destruct (loc_lat loc)]; reflexivity. }
    rewrite Hg. split.
    + intros name Hn Hne. rewrite Hn.
      destruct name as [|c name]; [contradiction|]. split; [reflexivity|].
      intros enc He. cbn [nonempty search_link]. rewrite He. reflexivity.
    + intros Hname.
      assert (Hn : nonempty (loc_name loc) = false)
        by (destruct Hname as [-> | ->]; reflexivity).
      rewrite Hn. split.
      * intros address Ha Hne. rewrite Ha.
        destruct address as [|c address]; [contradiction|]. split; [reflexivity|].
        intros enc He. cbn [nonempty search_link]. rewrite He. reflexivity.
      * intros Haddr.
        assert (Ha : nonempty (loc_address loc) = false)
          by (destruct Haddr as [-> | ->]; reflexivity).
        rewrite Ha. reflexivity.
Qed.

(** The four cases of the precedence, on one place. *)
Lemma googleMapsLink_precedence_witness :
  let name := Some (lit "Colosseum") in
  let address := Some (lit "Piazza del Colosseo, 1") in
  let lat := Some (Number false 41 0) in
  let lon := Some (Number false 12 0) in
  googleMapsLink demo_runtime (Some (colosseum name address lat lon))
  = Ret (Some (lit "https://maps.google.com/?q=41,12"))
  /\ googleMapsLink demo_runtime (Some (colosseum name address None lon))
     = Ret (Some (lit "https://www.google.com/maps/search/?api=1&query=Colosseum"))
  /\ googleMapsLink demo_runtime (Some (colosseum (Some []) address None None))
     = Ret (Some (lit "https://www.google.com/maps/search/?api=1&query=Piazza%20del%20Colosseo%2C%201"))
  /\ googleMapsLink demo_runtime (Some (colosseum None None lat None)) = Ret None.
Proof.
  intros name address lat lon.
  split; [|split; [|split]].
  - exact (proj1 (googleMapsLink_precedence demo_runtime (colosseum name address lat lon))
             _ _ eq_refl eq_refl).
  - destruct (proj1 (proj2 (googleMapsLink_precedence demo_runtime
                              (colosseum name address None lon)))
                (or_introl eq_refl)) as [Hname _].
    destruct (Hname (lit "Colosseum") eq_refl ltac:(discriminate)) as [_ Henc].
    exact (Henc _ eq_refl).
  - destruct (proj1 (proj2 (googleMapsLink_precedence demo_runtime
                              (colosseum (Some []) address None None)))
                (or_introl eq_refl)) as [_ Hrest].
    destruct (Hrest (or_intror eq_refl)) as [Haddr _].
    destruct (Haddr (lit "Piazza del Colosseo, 1") eq_refl ltac:(discriminate)) as [_ Henc].
    exact (Henc _ eq_refl).
  - destruct (proj1 (proj2 (googleMapsLink_precedence demo_runtime
                              (colosseum None None lat None)))
                (or_intror eq_refl)) as [_ Hrest].
    destruct (Hrest (or_introl eq_refl)) as [_ Hnone].
    exact (Hnone (or_introl eq_refl)).
Defined.

(** ** C8: day navigation *)

Import Viewer.

Lemma click_in_range (D i : Z) (b : nav) :
  (1 <= D -> 0 <= i <= D - 1 -> 0 <= click D i b <= D - 1)%Z.
Proof.
  intros HD Hi. destruct b; unfold click, clickPrev, clickNext, prevDisabled,
    nextDisabled, prevDay, nextDay.
  - destruct (i =? 0)%Z; lia.
  - destruct (D - 1 <=? i)%Z; lia.
Qed.

Lemma navigate_in_range (D : Z) (clicks : list nav) :
  (1 <= D -> 0 <= navigate D clicks <= D - 1)%Z.
Proof.
  intros HD. unfold navigate.
  assert (H0 : (0 <= dayIndex0 <= D - 1)%Z) by (unfold dayIndex0; lia).
  revert H0. generalize dayIndex0.
  induction clicks as [|b clicks IH]; intros i Hi; simpl; [exact Hi|].
  apply IH. apply click_in_range; assumption.
Qed.

(** [C8], as the code has it. For an itinerary with [D >= 1] days the day
    index starts at 0 and stays within [0, D-1] under every sequence of
    clicks; Prev at index 0 and Next at index [D-1] leave it as it is,
    and elsewhere Prev subtracts one and Next adds one; the handlers give
    the same index as the clicks; Prev is disabled exactly at index 0 and
    Next exactly at index [D-1]. For an itinerary without days both
    buttons are disabled, at the start and after any clicks, a click
    changes nothing, and the index stays 0. *)
Theorem day_navigation_clamped (D i : Z) (b : nav) (clicks : list nav) :
  ((1 <= D ->
    dayIndex0 = 0
    /\ 0 <= navigate D clicks <= D - 1
    /\ click D 0 Prev = 0
    /\ click D (D - 1) Next = D - 1
    /\ (0 <= i <= D - 1 ->
        0 <= click D i b <= D - 1
        /\ (0 < i -> click D i Prev = i - 1)
        /\ (i < D - 1 -> click D i Next = i + 1)
        /\ prevDay i = click D i Prev
        /\ nextDay D i = click D i Next
        /\ (prevDisabled i = true <-> i = 0)
        /\ (nextDisabled D i = true <-> i = D - 1)))
   /\ (D = 0 ->
       navigate D clicks = 0
       /\ prevDisabled dayIndex0 = true
       /\ nextDisabled D dayIndex0 = true
       /\ prevDisabled (navigate D clicks) = true
       /\ nextDisabled D (navigate D clicks) = true
       /\ click D dayIndex0 Prev = dayIndex0
       /\ click D dayIndex0 Next = dayIndex0))%Z.
Proof.
  split.
  - intros HD. split; [reflexivity|]. split; [apply navigate_in_range; exact HD|].
    split; [reflexivity|]. split.
    { unfold click, clickNext, nextDisabled. rewrite Z.leb_refl. reflexivity. }
    intros Hi. split; [apply click_in_range; assumption|].
    unfold click, clickPrev, clickNext, prevDisabled, nextDisabled, prevDay, nextDay.
    repeat split; intros;
      try (destruct (i =? 0)%Z eqn:E; [apply Z.eqb_eq in E|apply Z.eqb_neq in E];
           try discriminate; lia);
      try (destruct (D - 1 <=? i)%Z eqn:E; [apply Z.leb_le in E|apply Z.leb_gt in E];
           try discriminate; lia).
  - intros ->.
    assert (Hnav : navigate 0 clicks = 0%Z).
    { unfold navigate. generalize (eq_refl dayIndex0).
      unfold dayIndex0 at 2. generalize dayIndex0.
      induction clicks as [|c clicks IH]; intros j Hj; simpl; [exact Hj|].
      apply IH. subst j. destruct c; reflexivity. }
    rewrite Hnav. repeat split.
Qed.

Lemma day_navigation_clamped_witness :
  (0 <= navigate 3 [Next; Next; Next; Prev; Next; Next] <= 3 - 1
   /\ click 3 2 Next = 2 /\ click 3 1 Next = 2 /\ click 3 0 Prev = 0
   /\ navigate 0 [Next; Prev] = 0
   /\ prevDisabled (navigate 0 [Next; Prev]) = true
   /\ nextDisabled 0 (navigate 0 [Next; Prev]) = true)%Z.
Proof.
  destruct (day_navigation_clamped 3 1 Next [Next; Next; Next; Prev; Next; Next])
    as [H3 _].
  destruct (H3 ltac:(lia)) as (_ & Hnav & Hprev & Hnext & Hmid).
  destruct (Hmid ltac:(lia)) as (_ & _ & Hinc & _).
  destruct (day_navigation_clamped 0 0 Next [Next; Prev]) as [_ H0].
  destruct (H0 eq_refl) as (Hz & _ & _ & Hp & Hn & _).
  split; [exact Hnav|]. split; [exact Hnext|]. split; [exact (Hinc ltac:(lia))|].
  split; [exact Hprev|]. split; [exact Hz|]. split; [exact Hp|exact Hn].
Defined.

(** [C8], as stated, fails for an itinerary without days: the index is 0
    from the start, and the range from 0 to [D-1] is then empty. (The
    handler of Next would even move the index to -1 there; the button is
    disabled.) *)
Lemma empty_itinerary_index_out_of_range :
  let days : list json := [] in
  let D := Z.of_nat (List.length days) in
  (~ (0 <= navigate D [] <= D - 1) /\ nextDay D dayIndex0 = -1
   /\ nextDisabled D dayIndex0 = true)%Z.
Proof. cbv. split; [intros [_ H]; apply H; reflexivity|split; reflexivity]. Qed.

(** ** C9: the image carousel *)

Lemma safeIndex_range (len n : Z) :
  (0 < len -> 0 <= safeIndex len n <= len - 1)%Z.
Proof.
  intros Hlen. unfold safeIndex.
  destruct (len =? 0)%Z eqn:E; [apply Z.eqb_eq in E; lia|].
  assert (Hr : (- len < Z.rem n len < len)%Z).
  { pose proof (Z.rem_bound_abs n len ltac:(lia)) as Hb.
    destruct (Z.abs_spec (Z.rem n len)) as [[_ Ha]|[_ Ha]];
      destruct (Z.abs_spec len) as [[_ Hb']|[_ Hb']]; lia. }
  rewrite Z.rem_mod_nonneg by lia.
  pose proof (Z.mod_pos_bound (Z.rem n len + len) len Hlen). lia.
Qed.

(** The double remainder of [safeIndex] is the remainder of the
    mathematicians: in [0, len-1] also for a negative index. *)
Lemma safeIndex_mod (len n : Z) : (0 < len -> safeIndex len n = n mod len)%Z.
Proof.
  intros Hlen. unfold safeIndex.
  destruct (len =? 0)%Z eqn:E; [apply Z.eqb_eq in E; lia|].
  assert (Hr : (- len < Z.rem n len < len)%Z).
  { pose proof (Z.rem_bound_abs n len ltac:(lia)) as Hb.
    destruct (Z.abs_spec (Z.rem n len)) as [[_ Ha]|[_ Ha]];
      destruct (Z.abs_spec len) as [[_ Hb']|[_ Hb']]; lia. }
  rewrite Z.rem_mod_nonneg by lia.
  pose proof (Z.quot_rem' n len) as Hq.
  replace (Z.rem n len + len)%Z with (n + (1 - Z.quot n len) * len)%Z by lia.
  apply Z.mod_add. lia.
Qed.

(** [C9] For a gallery of [N > 0] images, Prev from index 0 gives [N-1],
    Next from [N-1] gives 0, the index shown is within [0, N-1] whatever
    the stored index is, the image at it exists, and the gallery is what
    is shown; for an empty gallery no image is looked up and the
    placeholder is shown. The index wraps in both directions: from every
    index [i], Next gives [(i + 1) mod N] and Prev gives [(i - 1) mod N],
    so inside the range they step by one and at the ends they wrap; the
    index shown for a stored index is that index modulo [N], and the image
    shown is the image at that position of the list. *)
Theorem image_index_wraps (A : Type) (x : A) (xs : list A) (idx : Z) :
  let imgs := x :: xs in
  let N := Z.of_nat (List.length imgs) in
  (prevImage N 0 = N - 1
   /\ nextImage N (N - 1) = 0
   /\ 0 <= safeIndex N idx <= N - 1
   /\ 0 <= prevImage N idx <= N - 1
   /\ 0 <= nextImage N idx <= N - 1
   /\ (exists src, currentImage imgs idx = Some src
                   /\ imageColumn imgs idx
                      = Gallery (Some src) (1 <? N) (safeIndex N idx + 1))
   /\ currentImage (@nil A) idx = None
   /\ imageColumn (@nil A) idx = Placeholder
   /\ safeIndex 0 idx = 0
   /\ (forall i, nextImage N i = (i + 1) mod N)
   /\ (forall i, prevImage N i = (i - 1) mod N)
   /\ (forall i, 0 <= i < N - 1 -> nextImage N i = i + 1)
   /\ (forall i, 0 < i <= N - 1 -> prevImage N i = i - 1)
   /\ safeIndex N idx = idx mod N
   /\ currentImage imgs idx = nth_error imgs (Z.to_nat (idx mod N))
   /\ imageColumn imgs idx
      = Gallery (nth_error imgs (Z.to_nat (idx mod N))) (1 <? N) (idx mod N + 1))%Z.
Proof.
  intros imgs N.
  assert (HN : (0 < N)%Z) by (subst N imgs; simpl List.length; lia).
  assert (Hcur : currentImage imgs idx = nth_error imgs (Z.to_nat (idx mod N))).
  { unfold currentImage, hasImages. fold N.
    destruct (0 <? N)%Z eqn:E; [|apply Z.ltb_ge in E; lia].
    rewrite (safeIndex_mod N idx HN). reflexivity. }
  assert (Hcol : imageColumn imgs idx
                 = Gallery (nth_error imgs (Z.to_nat (idx mod N))) (1 <? N)%Z
                           (idx mod N + 1)%Z).
  { unfold imageColumn, hasImages. fold N. rewrite Hcur.
    destruct (0 <? N)%Z eqn:E; [|apply Z.ltb_ge in E; lia].
    rewrite (safeIndex_mod N idx HN). reflexivity. }
  assert (Hstep : (forall i, nextImage N i = (i + 1) mod N)%Z
                  /\ (forall i, prevImage N i = (i - 1) mod N)%Z).
  { split; intros i; [unfold nextImage|unfold prevImage]; apply safeIndex_mod; exact HN. }
  split.
  { unfold prevImage, safeIndex.
    destruct (N =? 0)%Z eqn:E; [apply Z.eqb_eq in E; lia|].
    destruct (Z.eq_dec N 1) as [->|Hne]; [reflexivity|].
    assert (H1 : Z.rem (0 - 1) N = (-1)%Z).
    { change (0 - 1)%Z with (- (1))%Z. rewrite Z.rem_opp_l by lia.
      rewrite Z.rem_small by lia. reflexivity. }
    rewrite H1. rewrite Z.rem_small by lia. lia. }
  split.
  { unfold nextImage, safeIndex.
    destruct (N =? 0)%Z eqn:E; [apply Z.eqb_eq in E; lia|].
    replace (N - 1 + 1)%Z with (1 * N)%Z by lia.
    rewrite Z.rem_mul by lia. simpl. rewrite Z.rem_same by lia. reflexivity. }
  split; [apply safeIndex_range; exact HN|].
  split; [apply safeIndex_range; exact HN|].
  split; [apply safeIndex_range; exact HN|].
  split.
  { assert (Hex : exists src, currentImage imgs idx = Some src).
    { unfold currentImage, hasImages. fold N.
      destruct (0 <? N)%Z eqn:E; [|apply Z.ltb_ge in E; lia].
      pose proof (safeIndex_range N idx HN) as Hr.
      destruct (nth_error imgs (Z.to_nat (safeIndex N idx))) eqn:En; [eauto|].
      apply nth_error_None in En. subst N. lia. }
    destruct Hex as [src Hsrc]. exists src. split; [exact Hsrc|].
    unfold imageColumn, hasImages. fold N. rewrite Hsrc.
    destruct (0 <? N)%Z eqn:E; [reflexivity|apply Z.ltb_ge in E; lia]. }
  split; [reflexivity|]. split; [reflexivity|]. split; [reflexivity|].
  destruct Hstep as [Hnext Hprev].
  split; [exact Hnext|]. split; [exact Hprev|].
  split; [intros i Hi; rewrite Hnext; apply Z.mod_small; lia|].
  split; [intros i Hi; rewrite Hprev; apply Z.mod_small; lia|].
  split; [apply safeIndex_mod; exact HN|].
  split; [exact Hcur|exact Hcol].
Qed.

(** Three images, and a stored index of -4: the third image is shown;
    Next from the last image gives the first, and from the first the
    second. *)
Lemma image_index_wraps_witness :
  (currentImage [10; 20; 30]%nat (-4) = Some 30%nat
   /\ nextImage 3 2 = 0 /\ nextImage 3 0 = 1 /\ prevImage 3 0 = 2)%Z.
Proof.
  destruct (image_index_wraps nat 10%nat [20; 30]%nat (-4)%Z)
    as (_ & _ & _ & _ & _ & _ & _ & _ & _ & Hn & Hp & _ & _ & _ & Hc & _).
  split; [rewrite Hc; reflexivity|].
  split; [rewrite Hn; reflexivity|].
  split; [rewrite Hn; reflexivity|rewrite Hp; reflexivity].
Defined.

(** ** C4: speech and recognition *)

Ltac frame :=
  let H := fresh "H" in
  intros H; destruct H;
  match goal with |- quiet _ (_ _ ?s) => destruct s end;
  constructor; cbn in *; assumption.

Lemma quiet_set_message l0 v s : quiet l0 s -> quiet l0 (set_message v s).
Proof. frame. Qed.
Lemma quiet_set_messages l0 v s : quiet l0 s -> quiet l0 (set_messages v s).
Proof. frame. Qed.
Lemma quiet_set_loading l0 v s : quiet l0 s -> quiet l0 (set_loading v s).
Proof. frame. Qed.
Lemma quiet_set_readDelay l0 v s : quiet l0 s -> quiet l0 (set_readDelayAfterMicRef v s).
Proof. frame. Qed.
Lemma quiet_set_finalTranscript l0 v s : quiet l0 s -> quiet l0 (set_finalTranscript v s).
Proof. frame. Qed.
Lemma quiet_set_recActive l0 v s : quiet l0 s -> quiet l0 (set_recActive v s).
Proof. frame. Qed.
Lemma quiet_set_autoRead l0 v s : quiet l0 s -> quiet l0 (set_autoRead v s).
Proof. frame. Qed.
Lemma quiet_set_listeningRef l0 v s : quiet l0 s -> quiet l0 (set_listeningRef v s).
Proof. frame. Qed.

Lemma quiet_set_requests l0 v s :
  Forall (fun f => f_tts f = true -> ttsSupported s = true) v ->
  quiet l0 s -> quiet l0 (set_requests v s).
Proof.
  intros Hv H. destruct H. destruct s. constructor; cbn in *; assumption.
Qed.

Lemma quiet_set_listening_false l0 s : quiet l0 s -> quiet l0 (set_listening false s).
Proof.
  intros H. destruct H. destruct s. constructor; cbn in *; try assumption.
  reflexivity.
Qed.

Lemma quiet_set_listening_true l0 s :
  utterance s = None -> quiet l0 s -> quiet l0 (set_listening true s).
Proof.
  intros Hu H. destruct H. destruct s. constructor; cbn in *; try assumption.
  intros src txt E. rewrite Hu in E. discriminate E.
Qed.

Lemma quiet_set_utterance_none l0 s : quiet l0 s -> quiet l0 (set_utterance None s).
Proof.
  intros H. destruct H. destruct s. constructor; cbn in *; try assumption.
  - intros src txt E. discriminate E.
  - reflexivity.
Qed.

Lemma quiet_cancel l0 s : quiet l0 s -> quiet l0 (cancel s).
Proof.
  intros H. unfold cancel. destruct (negb (ttsSupported s)); [exact H|].
  apply quiet_set_utterance_none. exact H.
Qed.

Lemma utterance_cancel l0 s : quiet l0 s -> utterance (cancel s) = None.
Proof.
  intros H. unfold cancel. destruct (ttsSupported s) eqn:E; cbn.
  - reflexivity.
  - apply (q_engine _ _ H). exact E.
Qed.

(** Speaking is harmless for the invariant when the source is not a
    guarded one, or when the recognition flag is off. *)
Lemma quiet_speak l0 src txt s :
  (guarded src -> listening s = false) -> quiet l0 s -> quiet l0 (speak src txt s).
Proof.
  intros Hsrc H. unfold speak.
  destruct (ttsSupported s) eqn:Et; [|exact H]. cbn [negb].
  destruct (is_empty txt); [exact H|].
  destruct H. destruct s. constructor; cbn in *; try assumption.
  - intros src' txt' E. injection E as <- <-. exact Hsrc.
  - intros E. rewrite E in Et. discriminate Et.
  - apply Forall_app. split; [assumption|]. constructor; [|constructor].
    cbn. exact Hsrc.
Qed.

(** *** Timers *)

Lemma Forall_filter_keep {A} (P : A -> Prop) (f : A -> bool) (l : list A) :
  Forall P l -> Forall P (filter f l).
Proof.
  induction 1 as [|x l Hx _ IH]; simpl; [constructor|].
  destruct (f x); [constructor; assumption|assumption].
Qed.

Lemma In_map_filter {A B} (g : A -> B) (f : A -> bool) (l : list A) (y : B) :
  In y (map g (filter f l)) -> In y (map g l).
Proof.
  induction l as [|x l IH]; simpl; [auto|].
  destruct (f x); simpl; intuition.
Qed.

Lemma NoDup_map_filter {A B} (g : A -> B) (f : A -> bool) (l : list A) :
  NoDup (map g l) -> NoDup (map g (filter f l)).
Proof.
  induction l as [|x l IH]; simpl; intros H; [constructor|].
  inversion H as [|y ys Hnin Hnd]; subst.
  destruct (f x); simpl; [|auto].
  constructor; [|auto]. intros Hin. apply Hnin. exact (In_map_filter _ _ _ _ Hin).
Qed.

(** Once the pending timer is cleared no reply read is set. *)
Lemma timer_ok_unpend tid tt l0 tts ts :
  Forall (timer_ok (Some tid) tt l0 tts) ts ->
  forall p', Forall (timer_ok p' tt l0 tts)
                    (filter (fun t => negb (Nat.eqb (t_id t) tid)) ts).
Proof.
  induction 1 as [|t ts Ht _ IH]; intros p'; simpl; [constructor|].
  destruct (Nat.eqb (t_id t) tid) eqn:E; simpl; [apply IH|].
  constructor; [|apply IH].
  unfold timer_ok in *. destruct (t_cb t); [|exact Ht].
  destruct Ht as [Hp _]. injection Hp as ->. rewrite Nat.eqb_refl in E. discriminate E.
Qed.

Lemma timer_ok_no_pending tt l0 tts ts :
  Forall (timer_ok None tt l0 tts) ts ->
  forall p', Forall (timer_ok p' tt l0 tts) ts.
Proof.
  induction 1 as [|t ts Ht _ IH]; intros p'; constructor; [|apply IH].
  unfold timer_ok in *. destruct (t_cb t); [|exact Ht].
  destruct Ht as [Hp _]. discriminate Hp.
Qed.

(** Once the timer of the effect is cleared no read-as-you-type is set. *)
Lemma timer_ok_untype p h l0 tts ts :
  Forall (timer_ok p (Some h) l0 tts) ts ->
  forall tt' l', Forall (timer_ok p tt' l' tts)
                        (filter (fun t => negb (Nat.eqb (t_id t) h)) ts).
Proof.
  induction 1 as [|t ts Ht _ IH]; intros tt' l'; simpl; [constructor|].
  destruct (Nat.eqb (t_id t) h) eqn:E; simpl; [apply IH|].
  constructor; [|apply IH].
  unfold timer_ok in *. destruct (t_cb t); [exact Ht|].
  destruct Ht as [Hp _]. injection Hp as ->. rewrite Nat.eqb_refl in E. discriminate E.
Qed.

Lemma timer_ok_no_typing p l0 tts ts :
  Forall (timer_ok p None l0 tts) ts ->
  forall tt' l', Forall (timer_ok p tt' l' tts) ts.
Proof.
  induction 1 as [|t ts Ht _ IH]; intros tt' l'; constructor; [|apply IH].
  unfold timer_ok in *. destruct (t_cb t); [exact Ht|].
  destruct Ht as [Hp _]. discriminate Hp.
Qed.

Lemma fresh_append (n : nat) (d : N) (cb : timer_cb) (ts : list timer) :
  Forall (fun t => t_id t < n) ts -> NoDup (map t_id ts) ->
  Forall (fun t => t_id t < S n) (ts ++ [{| t_id := n; t_delay := d; t_cb := cb |}])
  /\ NoDup (map t_id (ts ++ [{| t_id := n; t_delay := d; t_cb := cb |}])).
Proof.
  intros Hf Hn. split.
  - apply Forall_app. split.
    + eapply Forall_impl; [|exact Hf]. cbn. intros t Ht. lia.
    + constructor; [cbn; lia|constructor].
  - rewrite map_app. cbn.
    induction ts as [|t ts IH]; cbn; [constructor; [intros []|constructor]|].
    inversion Hf; subst. inversion Hn; subst.
    constructor; [|apply IH; assumption].
    rewrite in_app_iff. intros [Hin|[Heq|[]]]; [contradiction|lia].
Qed.

Lemma quiet_clearTimeout l0 tid s : quiet l0 s -> quiet l0 (clearTimeout tid s).
Proof.
  intros H. destruct H. destruct s. constructor; cbn in *; try assumption.
  - apply Forall_filter_keep. assumption.
  - apply Forall_filter_keep. assumption.
  - apply NoDup_map_filter. assumption.
Qed.

Lemma quiet_unpend l0 tid l' s :
  pendingSpeakRef s = Some tid -> quiet l0 s ->
  quiet l0 (set_pendingSpeakRef l' (clearTimeout tid s)).
Proof.
  intros Hp H. destruct H. destruct s. constructor; cbn in *; try assumption.
  - subst. apply timer_ok_unpend. assumption.
  - apply Forall_filter_keep. assumption.
  - apply NoDup_map_filter. assumption.
Qed.

Lemma quiet_clear_pending l0 s : quiet l0 s -> quiet l0 (clear_pending s).
Proof.
  intros H. unfold clear_pending.
  destruct (pendingSpeakRef s) as [tid|] eqn:E; [|exact H].
  apply quiet_unpend; assumption.
Qed.

Lemma pending_clear_pending s : pendingSpeakRef (clear_pending s) = None.
Proof.
  unfold clear_pending. destruct (pendingSpeakRef s) eqn:E; [reflexivity|exact E].
Qed.

(** Setting the timer of a reply read, when none is set. *)
Lemma quiet_schedule l0 txt d s :
  pendingSpeakRef s = None -> ttsSupported s = true -> txt <> [] ->
  quiet l0 s ->
  quiet l0 (set_pendingSpeakRef (Some (nextTimerId s))
              (setTimeout (CbScheduleSpeak txt) d s)).
Proof.
  intros Hp Ht Hx H. destruct H. destruct s. cbn in Hp, Ht. subst.
  destruct (fresh_append nextTimerId0 d (CbScheduleSpeak txt) timers0) as [Hf Hn];
    [assumption|assumption|].
  constructor; cbn in *; try assumption.
  apply Forall_app. split.
  - apply timer_ok_no_pending. assumption.
  - constructor; [|constructor]. unfold timer_ok. cbn. auto.
Qed.

(** Setting the timer of a read-as-you-type, when none is set and the
    recognition flag is off. *)
Lemma quiet_type text s :
  typingTimer s = None ->
  quiet false s ->
  quiet false (set_typingTimer (Some (nextTimerId s)) (setTimeout (CbTyping text) 800 s)).
Proof.
  intros Hp H. destruct H. destruct s. cbn in Hp. subst.
  destruct (fresh_append nextTimerId0 800 (CbTyping text) timers0) as [Hf Hn];
    [assumption|assumption|].
  constructor; cbn in *; try assumption.
  apply Forall_app. split.
  - apply timer_ok_no_typing with (l0 := false). assumption.
  - constructor; [|constructor]. unfold timer_ok. cbn. auto.
Qed.

(** The clean-up of the read-as-you-type effect: afterwards no such timer
    is set, whatever the recognition flag has become. *)
Lemma quiet_untype l0 l' s :
  quiet l0 s ->
  quiet l' (match typingTimer s with
            | Some h => set_typingTimer None (clearTimeout h s)
            | None => s
            end).
Proof.
  intros H. destruct (typingTimer s) as [h|] eqn:E.
  - destruct H. destruct s. cbn in E. subst. constructor; cbn in *; try assumption.
    + eapply timer_ok_untype. eassumption.
    + apply Forall_filter_keep. assumption.
    + apply NoDup_map_filter. assumption.
  - destruct H. destruct s. cbn in E. subst. constructor; cbn in *; try assumption.
    eapply timer_ok_no_typing. eassumption.
Qed.

(** *** The effects restore the invariant *)

Lemma listening_effect_typing old s :
  listening (effect_typing old s) = listening s
  /\ listeningRef (effect_typing old s) = listeningRef s.
Proof.
  unfold effect_typing.
  destruct (typing_deps_changed old s); [|auto].
  destruct (typingTimer s); cbn;
    repeat match goal with
           | |- context [if ?b then _ else _] => destruct b
           end; auto.
Qed.

Lemma quiet_effect_typing old s :
  quiet (listening old) s -> quiet (listening s) (effect_typing old s).
Proof.
  intros H. unfold effect_typing.
  destruct (typing_deps_changed old s) eqn:Ed.
  - pose proof (quiet_untype (listening old) (listening s) s H) as H1.
    set (s1 := match typingTimer s with
               | Some h => set_typingTimer None (clearTimeout h s)
               | None => s
               end) in *.
    assert (Hl : listening s1 = listening s) by (subst s1; destruct (typingTimer s); reflexivity).
    assert (Ht : typingTimer s1 = None).
    { subst s1. destruct (typingTimer s) eqn:E; [reflexivity|exact E]. }
    destruct (negb (autoRead s1) || listening s1) eqn:Eg; [exact H1|].
    destruct (readDelayAfterMicRef s1); [exact H1|].
    destruct (is_empty (trim (message s1))); [exact H1|].
    apply orb_false_iff in Eg. destruct Eg as [_ Eg]. rewrite Hl in Eg.
    rewrite Eg in *. apply quiet_type; assumption.
  - unfold typing_deps_changed in Ed.
    apply orb_false_iff in Ed. destruct Ed as [_ Ed].
    apply negb_false_iff, Bool.eqb_prop in Ed. rewrite <- Ed. exact H.
Qed.

Lemma listening_cancel s :
  listening (cancel s) = listening s /\ listeningRef (cancel s) = listeningRef s.
Proof. unfold cancel. destruct (negb (ttsSupported s)); auto. Qed.

Lemma listening_clear_pending s :
  listening (clear_pending s) = listening s
  /\ listeningRef (clear_pending s) = listeningRef s.
Proof. unfold clear_pending. destruct (pendingSpeakRef s); auto. Qed.

Lemma effect_autoReadOff_keeps old s l0 :
  quiet l0 s ->
  quiet l0 (effect_autoReadOff old s)
  /\ listening (effect_autoReadOff old s) = listening s
  /\ listeningRef (effect_autoReadOff old s) = listeningRef s.
Proof.
  intros H. unfold effect_autoReadOff.
  destruct (negb (Bool.eqb (autoRead old) (autoRead s)) && negb (autoRead s)); [|auto].
  split; [apply quiet_cancel, quiet_clear_pending; exact H|].
  destruct (listening_cancel (clear_pending s)) as [-> ->].
  apply listening_clear_pending.
Qed.

Lemma listening_speak src txt s :
  listening (speak src txt s) = listening s
  /\ listeningRef (speak src txt s) = listeningRef s.
Proof.
  unfold speak. destruct (negb (ttsSupported s)); [auto|].
  destruct (is_empty txt); auto.
Qed.

Lemma readVisible_keeps visible s l0 :
  quiet l0 s ->
  quiet l0 (readVisible visible s)
  /\ listening (readVisible visible s) = listening s
  /\ listeningRef (readVisible visible s) = listeningRef s.
Proof.
  intros H. unfold readVisible.
  destruct (is_empty (trim (collapse_ws None visible))); [auto|].
  split; [|apply listening_speak].
  apply quiet_speak; [|exact H]. intros [E|E]; discriminate E.
Qed.

(** Whatever a handler leaves, provided the timers of read-as-you-type
    were set with the flag off at the render before, the effects of the
    next render give the invariant back. *)
Lemma render_restores visible old s :
  quiet (listening old) s -> Inv (render visible old s).
Proof.
  intros H. unfold render, Inv.
  set (s1 := effect_listeningRef s).
  assert (H1 : quiet (listening old) s1) by (apply quiet_set_listeningRef; exact H).
  assert (L1 : listeningRef s1 = listening s1) by (destruct s; reflexivity).
  set (s2 := effect_typing old s1).
  assert (H2 : quiet (listening s2) s2).
  { subst s2. rewrite (proj1 (listening_effect_typing old s1)).
    apply quiet_effect_typing. exact H1. }
  assert (L2 : listeningRef s2 = listening s2).
  { subst s2. destruct (listening_effect_typing old s1) as [-> ->]. exact L1. }
  set (s3 := effect_autoReadOff old s2).
  destruct (effect_autoReadOff_keeps old s2 (listening s2) H2) as (H3 & E3 & R3).
  fold s3 in H3, E3, R3.
  unfold effect_readVisible.
  destruct (negb (Bool.eqb (autoRead old) (autoRead s3)) && autoRead s3).
  - destruct (readVisible_keeps visible s3 (listening s2) H3) as (H4 & E4 & R4).
    rewrite E4, R4, E3, R3. rewrite <- E3 in H4 at 1. rewrite E3 in H4.
    split; [exact L2|exact H4].
  - rewrite E3, R3. split; [exact L2|exact H3].
Qed.

(** *** The handlers *)

Lemma quiet_send l0 textOverride uid s :
  quiet l0 s -> quiet l0 (send textOverride uid s).
Proof.
  intros H. unfold send. cbv zeta.
  destruct (is_empty _ || loading s); [exact H|].
  apply quiet_set_requests.
  - cbn. apply Forall_app. split; [exact (q_requests _ _ H)|].
    constructor; [cbn; auto|constructor].
  - apply quiet_set_message, quiet_set_messages, quiet_set_loading. exact H.
Qed.

Lemma quiet_send_catch l0 f e uid s :
  quiet l0 s -> quiet l0 (send_catch f e uid s).
Proof.
  intros H. unfold send_catch.
  destruct (f_autoRead f && f_tts f).
  - apply quiet_speak; [intros [E|E]; discriminate E|].
    apply quiet_set_messages. exact H.
  - apply quiet_set_messages. exact H.
Qed.

Lemma quiet_send_try rt l0 f r uid s :
  (f_tts f = true -> ttsSupported s = true) ->
  quiet l0 s -> quiet l0 (fst (send_try rt f r uid s)).
Proof.
  intros Htts H. unfold send_try.
  destruct r as [e|status body]; [exact H|].
  destruct (negb (res_ok status)).
  { destruct (failure_message rt status _); exact H. }
  set (m := nextMsg rt uid _).
  assert (H1 : quiet l0 (set_messages (messages s ++ [m]) s))
    by (apply quiet_set_messages; exact H).
  destruct (f_autoRead f && f_tts f) eqn:Ea; [|exact H1].
  destruct (toSpeakOf rt m) as [toSpeak|e]; [|exact H1].
  destruct (is_empty toSpeak) eqn:Ee; [exact H1|]. cbn [fst].
  apply quiet_schedule.
  - cbn. apply pending_clear_pending.
  - apply andb_true_iff in Ea. destruct Ea as [_ Ea].
    specialize (Htts Ea). revert Htts. unfold clear_pending.
    destruct (pendingSpeakRef _); destruct s; cbn; auto.
  - intros ->. discriminate Ee.
  - apply quiet_set_readDelay, quiet_clear_pending. exact H1.
Qed.

Lemma quiet_settle rt l0 f r uid uid2 s :
  (f_tts f = true -> ttsSupported s = true) ->
  quiet l0 s -> quiet l0 (settle rt f r uid uid2 s).
Proof.
  intros Htts H. unfold settle.
  pose proof (quiet_send_try rt l0 f r uid s Htts H) as H1.
  destruct (send_try rt f r uid s) as [s1 [e|]]; cbn [fst] in H1;
    apply quiet_set_loading; [apply quiet_send_catch|]; exact H1.
Qed.

Lemma Forall_remove_nth {A} (P : A -> Prop) (k : nat) (l : list A) :
  Forall P l -> Forall P (remove_nth k l).
Proof.
  intros H. revert k. induction H as [|x l Hx Hl IH]; intros k.
  - destruct k; constructor.
  - destruct k; simpl; [assumption|constructor; auto].
Qed.

Lemma set_pending_setTimeout v cb d s :
  set_pendingSpeakRef v (setTimeout cb d (set_pendingSpeakRef None s))
  = set_pendingSpeakRef v (setTimeout cb d s).
Proof. destruct s; reflexivity. Qed.

Lemma set_pending_speak v src txt s :
  set_pendingSpeakRef v (speak src txt s) = speak src txt (set_pendingSpeakRef v s).
Proof.
  unfold speak. destruct s; cbn.
  destruct (negb ttsSupported0); [reflexivity|].
  destruct (is_empty txt); reflexivity.
Qed.

Lemma quiet_run_timer t s :
  Inv s -> In t (timers s) ->
  quiet (listening s) (run_timer (t_cb t) (clearTimeout (t_id t) s)).
Proof.
  intros [Href H] Hin.
  pose proof (proj1 (Forall_forall _ _) (q_timers _ _ H) t Hin) as Hok.
  unfold timer_ok in Hok. unfold run_timer.
  destruct (t_cb t) as [txt|text].
  - destruct Hok as (Hp & Htts & Hne).
    unfold scheduleSpeak.
    change (listeningRef (clearTimeout (t_id t) s)) with (listeningRef s).
    rewrite Href.
    pose proof (quiet_unpend (listening s) (t_id t) None s Hp H) as H1.
    destruct (listening s) eqn:El.
    + rewrite <- set_pending_setTimeout.
      change (nextTimerId (clearTimeout (t_id t) s))
        with (nextTimerId (set_pendingSpeakRef None (clearTimeout (t_id t) s))).
      apply quiet_schedule; [reflexivity| |exact Hne|exact H1].
      destruct s; exact Htts.
    + rewrite set_pending_speak. apply quiet_speak; [|exact H1].
      intros _. destruct s; exact El.
  - destruct Hok as (_ & Hl).
    apply quiet_speak; [|apply quiet_clearTimeout; exact H].
    intros _. destruct s; exact Hl.
Qed.

Lemma quiet_toggleMic s : quiet (listening s) s -> quiet (listening s) (toggleMic s).
Proof.
  intros H. unfold toggleMic.
  destruct (negb (sttSupported s)); [exact H|].
  set (s1 := if negb (listening s) then clear_pending s else s).
  assert (H1 : quiet (listening s) s1).
  { subst s1. destruct (negb (listening s)); [apply quiet_clear_pending|]; exact H. }
  pose proof (quiet_cancel _ _ H1) as H2.
  pose proof (utterance_cancel _ _ H1) as Hu.
  destruct (listening s) eqn:El; [exact H2|].
  pose proof (quiet_set_message false [] _ H2) as H3.
  destruct (recActive (set_message [] (cancel s1))); [exact H3|].
  apply quiet_set_listening_true.
  - destruct (cancel s1); exact Hu.
  - apply quiet_set_recActive. exact H3.
Qed.

Lemma quiet_rec_onend l0 s : quiet l0 s -> quiet l0 (rec_onend (set_recActive false s)).
Proof.
  intros H. unfold rec_onend.
  apply quiet_set_finalTranscript, quiet_set_readDelay, quiet_clear_pending,
    quiet_cancel, quiet_set_listening_false, quiet_set_recActive. exact H.
Qed.

Lemma quiet_onAutoReadChange l0 s : quiet l0 s -> quiet l0 (onAutoReadChange s).
Proof.
  intros H. unfold onAutoReadChange. cbv zeta.
  destruct (negb (negb (autoRead s)));
    [apply quiet_cancel|]; apply quiet_set_autoRead; exact H.
Qed.

(** *** The invariant holds in every reachable state *)

Lemma Inv_init tts stt : Inv (init tts stt).
Proof.
  split; [reflexivity|].
  constructor; cbn; try constructor; try discriminate.
Qed.

Lemma step_preserves rt e s s' : Inv s -> step rt e s = Some s' -> Inv s'.
Proof.
  intros HI Hs. pose proof HI as [Href H].
  destruct e as [text|uid|uid|k r uid uid2|tid| | |results| | |visible|visible| ];
    cbn [step] in Hs.
  - destruct (loading s); [discriminate|]. injection Hs as <-.
    apply render_restores, quiet_set_message. exact H.
  - destruct (loading s || _); [discriminate|]. injection Hs as <-.
    apply render_restores, quiet_send. exact H.
  - destruct (loading s); [discriminate|]. injection Hs as <-.
    apply render_restores, quiet_send. exact H.
  - destruct (nth_error (requests s) k) as [f|] eqn:En; [|discriminate].
    injection Hs as <-. apply render_restores, quiet_settle.
    + pose proof (proj1 (Forall_forall _ _) (q_requests _ _ H) f (nth_error_In _ _ En)) as Hf.
      destruct s; exact Hf.
    + apply quiet_set_requests; [|exact H].
      apply Forall_remove_nth. exact (q_requests _ _ H).
  - destruct (find _ (timers s)) as [t|] eqn:Ef; [|discriminate].
    injection Hs as <-. apply find_some in Ef. destruct Ef as [Hin Hid].
    apply Nat.eqb_eq in Hid. subst tid.
    apply render_restores, quiet_run_timer; assumption.
  - injection Hs as <-. apply render_restores, quiet_toggleMic. exact H.
  - destruct (recActive s); [|discriminate]. injection Hs as <-.
    apply render_restores, quiet_set_finalTranscript. exact H.
  - destruct (recActive s); [|discriminate]. injection Hs as <-.
    apply render_restores, quiet_set_message, quiet_set_finalTranscript. exact H.
  - destruct (recActive s); [|discriminate]. injection Hs as <-.
    apply render_restores, quiet_set_listening_false. exact H.
  - destruct (recActive s); [|discriminate]. injection Hs as <-.
    apply render_restores, quiet_rec_onend. exact H.
  - injection Hs as <-. apply render_restores, quiet_onAutoReadChange. exact H.
  - injection Hs as <-. destruct (autoRead s); [|exact HI].
    destruct (readVisible_keeps visible s (listening s) H) as (H1 & E1 & R1).
    unfold Inv. rewrite E1, R1. split; assumption.
  - destruct (utterance s); [|discriminate]. injection Hs as <-.
    split; [destruct s; exact Href|].
    change (listening (set_utterance None s)) with (listening s).
    apply quiet_set_utterance_none. exact H.
Qed.

Lemma run_preserves rt es : forall s s', Inv s -> run rt s es = Some s' -> Inv s'.
Proof.
  induction es as [|e es IH]; intros s s' HI Hr; simpl in Hr.
  - injection Hr as <-. exact HI.
  - destruct (step rt e s) as [s1|] eqn:Es; [|discriminate].
    exact (IH s1 s' (step_preserves rt e s s1 HI Es) Hr).
Qed.

Lemma reachable_Inv rt tts stt s : reachable rt tts stt s -> Inv s.
Proof.
  intros [es Hr]. exact (run_preserves rt es _ _ (Inv_init tts stt) Hr).
Qed.

(** *** What the timer of a reply read does *)

Lemma Str_eqb_refl (a : jsstring) : Str.eqb a a = true.
Proof. induction a as [|c a IH]; simpl; [reflexivity|]. rewrite N.eqb_refl. exact IH. Qed.

(** A handler that leaves the input, the option and the recognition flag
    as they were is followed by one effect only. *)
Lemma render_idle visible old s :
  message s = message old -> autoRead s = autoRead old -> listening s = listening old ->
  render visible old s = set_listeningRef (listening s) s.
Proof.
  intros Hm Ha Hl. unfold render, effect_readVisible, effect_autoReadOff, effect_typing.
  assert (Hd : typing_deps_changed old (effect_listeningRef s) = false).
  { unfold typing_deps_changed. destruct s; cbn in *. subst.
    rewrite Str_eqb_refl, !Bool.eqb_reflx. reflexivity. }
  rewrite Hd.
  change (autoRead (effect_listeningRef s)) with (autoRead s).
  rewrite Ha, Bool.eqb_reflx. cbn [negb andb].
  change (autoRead (effect_listeningRef s)) with (autoRead s).
  rewrite Ha, Bool.eqb_reflx. reflexivity.
Qed.

Lemma find_unique (t : timer) (ts : list timer) :
  NoDup (map t_id ts) -> In t ts ->
  find (fun x => Nat.eqb (t_id x) (t_id t)) ts = Some t.
Proof.
  induction ts as [|x ts IH]; intros Hn Hin; [destruct Hin|].
  simpl in *. inversion Hn as [|y ys Hnin Hnd]; subst.
  destruct Hin as [->|Hin]; [rewrite Nat.eqb_refl; reflexivity|].
  destruct (Nat.eqb (t_id x) (t_id t)) eqn:E; [|auto].
  exfalso. apply Nat.eqb_eq in E. apply Hnin. rewrite E. apply in_map. exact Hin.
Qed.

Lemma pending_render visible old s :
  pendingSpeakRef s = None -> pendingSpeakRef (render visible old s) = None.
Proof.
  intros H. unfold render.
  assert (H2 : pendingSpeakRef (effect_typing old (effect_listeningRef s)) = None).
  { unfold effect_typing.
    repeat match goal with
           | |- context [if ?b then _ else _] => destruct b
           | |- context [match typingTimer ?x with _ => _ end] => destruct (typingTimer x)
           end; destruct s; exact H. }
  set (s2 := effect_typing old (effect_listeningRef s)) in *.
  assert (H3 : pendingSpeakRef (effect_autoReadOff old s2) = None).
  { unfold effect_autoReadOff, cancel, clear_pending. rewrite H2.
    repeat match goal with
           | |- context [if ?b then _ else _] => destruct b
           end; exact H2. }
  set (s3 := effect_autoReadOff old s2) in *.
  unfold effect_readVisible, readVisible, speak.
  repeat match goal with
         | |- context [if ?b then _ else _] => destruct b
         end; exact H3.
Qed.

Lemma no_reply_timer s :
  Inv s -> pendingSpeakRef s = None ->
  forall t txt, In t (timers s) -> t_cb t <> CbScheduleSpeak txt.
Proof.
  intros [_ H] Hp t txt Hin Hcb.
  pose proof (proj1 (Forall_forall _ _) (q_timers _ _ H) t Hin) as Hok.
  unfold timer_ok in Hok. rewrite Hcb, Hp in Hok. destruct Hok as [E _]. discriminate E.
Qed.

Lemma autoRead_effects old s :
  autoRead (effect_typing old (effect_listeningRef s)) = autoRead s.
Proof.
  unfold effect_typing.
  repeat match goal with
         | |- context [if ?b then _ else _] => destruct b
         | |- context [match typingTimer ?x with _ => _ end] => destruct (typingTimer x)
         end; destruct s; reflexivity.
Qed.

Lemma pending_cancel s : pendingSpeakRef (cancel s) = pendingSpeakRef s.
Proof. unfold cancel. destruct (negb (ttsSupported s)); reflexivity. Qed.

(** Switching the option off clears the pending read. *)
Lemma pending_autoRead_off visible s :
  autoRead s = true ->
  pendingSpeakRef (render visible s (onAutoReadChange s)) = None.
Proof.
  intros Ha. unfold render.
  set (s2 := effect_typing s (effect_listeningRef (onAutoReadChange s))).
  assert (Ha2 : autoRead s2 = false).
  { subst s2. rewrite autoRead_effects. unfold onAutoReadChange. rewrite Ha. cbn.
    unfold cancel. destruct (negb (ttsSupported _)); reflexivity. }
  assert (H3 : effect_autoReadOff s s2 = cancel (clear_pending s2)).
  { unfold effect_autoReadOff. rewrite Ha, Ha2. reflexivity. }
  assert (Ha3 : autoRead (effect_autoReadOff s s2) = false).
  { rewrite H3. unfold cancel, clear_pending.
    repeat match goal with
           | |- context [if ?b then _ else _] => destruct b
           | |- context [match pendingSpeakRef ?x with _ => _ end] =>
               destruct (pendingSpeakRef x)
           end; exact Ha2. }
  unfold effect_readVisible. rewrite Ha3, andb_false_r.
  rewrite H3, pending_cancel. apply pending_clear_pending.
Qed.

(** [C4], as the code has it. In every reachable state: (1) while the
    recognition flag is set the engine is not speaking a reply read nor a
    read-as-you-type, and none was ever started with the flag set; (2) the
    timer of a reply read is the pending one; when it fires with the flag
    set it speaks nothing and sets itself again with a delay of 250 ms;
    when it fires with the flag off it speaks the text; (3) the pending
    read is not kept until then in every case: the end of the recognition
    session cancels it, and so do the start of the microphone and
    switching auto-read off. *)
Theorem scheduled_read_waits_for_recognition
        (rt : Runtime) (tts stt : bool) (s : State) :
  reachable rt tts stt s ->
  (forall src txt, utterance s = Some (src, txt) -> listening s = true ->
     src = SrcError \/ src = SrcVisible)
  /\ Forall (fun e => guarded (sp_source e) -> sp_listening e = false) (spoken s)
  /\ (forall t txt, In t (timers s) -> t_cb t = CbScheduleSpeak txt ->
      pendingSpeakRef s = Some (t_id t)
      /\ exists s',
          step rt (ETimer (t_id t)) s = Some s'
          /\ (listening s = true ->
              listening s' = true /\ utterance s' = utterance s
              /\ spoken s' = spoken s
              /\ pendingSpeakRef s' = Some (nextTimerId s)
              /\ timers s' = filter (fun x => negb (Nat.eqb (t_id x) (t_id t))) (timers s)
                             ++ [{| t_id := nextTimerId s; t_delay := 250;
                                    t_cb := CbScheduleSpeak txt |}])
          /\ (listening s = false ->
              utterance s' = Some (SrcReply, txt)
              /\ spoken s' = spoken s ++ [{| sp_source := SrcReply; sp_text := txt;
                                             sp_listening := false |}]
              /\ pendingSpeakRef s' = None))
  /\ (forall e s', cancels_pending e s -> step rt e s = Some s' ->
      pendingSpeakRef s' = None
      /\ forall t txt, In t (timers s') -> t_cb t <> CbScheduleSpeak txt).
Proof.
  intros Hreach. pose proof (reachable_Inv rt tts stt s Hreach) as HI.
  pose proof HI as [Href H].
  split; [|split; [exact (q_spoken _ _ H)|split]].
  - intros src txt Hu Hl.
    destruct src; auto;
      (rewrite (q_utterance _ _ H _ txt Hu) in Hl; [discriminate Hl|]);
      unfold guarded; auto.
  - intros t txt Hin Hcb.
    pose proof (proj1 (Forall_forall _ _) (q_timers _ _ H) t Hin) as Hok.
    unfold timer_ok in Hok. rewrite Hcb in Hok. destruct Hok as (Hp & Htts & Hne).
    split; [exact Hp|].
    eexists. split.
    { cbn [step]. rewrite (find_unique t (timers s) (q_nodup _ _ H) Hin).
      rewrite Hcb. cbn [run_timer]. reflexivity. }
    unfold scheduleSpeak.
    change (listeningRef (clearTimeout (t_id t) s)) with (listeningRef s).
    rewrite Href. split; intros Hl; rewrite Hl.
    + rewrite render_idle by (destruct s; reflexivity).
      destruct s; cbn in *. subst. auto.
    + rewrite render_idle
        by (rewrite set_pending_speak;
            first [apply (proj1 (listening_speak _ _ _))
                  |unfold speak; destruct s; cbn;
                   destruct (negb ttsSupported0); [reflexivity|];
                   destruct (is_empty txt); reflexivity]).
      unfold speak. destruct s; cbn in *. subst. cbn.
      destruct txt as [|c txt]; [contradiction|]. cbn. auto.
  - intros e s' Hc Hs.
    assert (Hp : pendingSpeakRef s' = None).
    { destruct Hc as [->|[(-> & Hl & Hstt)|(visible & -> & Ha)]]; cbn [step] in Hs.
      - destruct (recActive s); [|discriminate]. injection Hs as <-.
        apply pending_render. unfold rec_onend. cbn. apply pending_clear_pending.
      - injection Hs as <-. apply pending_render.
        unfold toggleMic. rewrite Hstt, Hl. cbn [negb].
        destruct (recActive _); cbn; rewrite pending_cancel; apply pending_clear_pending.
      - injection Hs as <-. apply pending_autoRead_off. exact Ha. }
    split; [exact Hp|].
    apply no_reply_timer; [|exact Hp].
    exact (step_preserves rt e s s' HI Hs).
Qed.

Lemma reply_during_dictation_reachable :
  reachable demo_runtime true true (state_after reply_during_dictation).
Proof. exists reply_during_dictation. vm_compute. reflexivity. Qed.

(** In the conversation above the timer of the reply fires while the
    microphone is on: nothing is spoken and the read is set again. *)
Lemma scheduled_read_waits_for_recognition_witness :
  let s := state_after reply_during_dictation in
  exists s',
    step demo_runtime (ETimer 2) s = Some s'
    /\ listening s' = true /\ spoken s' = spoken s
    /\ pendingSpeakRef s' = Some 3.
Proof.
  intros s.
  destruct (scheduled_read_waits_for_recognition demo_runtime true true s
              reply_during_dictation_reachable) as (_ & _ & Ht & _).
  assert (Hin : In (hello_timer 2 0) (timers s)) by (vm_compute; left; reflexivity).
  destruct (Ht (hello_timer 2 0) (lit "Hello") Hin eq_refl) as (_ & s' & Hstep & Hon & _).
  assert (Hl : listening s = true) by (vm_compute; reflexivity).
  destruct (Hon Hl) as (Hl' & _ & Hsp & Hp & _).
  exists s'. split; [exact Hstep|]. split; [exact Hl'|]. split; [exact Hsp|exact Hp].
Defined.

(** [C4], as stated, fails: a read that is scheduled while recognition is
    active can be dropped. In the conversation above the read of "Hello" is
    pending while the microphone is on; its timer fires and sets itself
    again; then the recognition session ends, and its handler clears the
    timer: no timer and no request is left, and the reply has not been and
    will not be spoken. *)
Lemma pending_read_dropped_at_recognition_end :
  let s1 := state_after reply_during_dictation in
  run demo_runtime (init true true) reply_during_dictation = Some s1
  /\ listening s1 = true /\ timers s1 = [hello_timer 2 0]
  /\ pendingSpeakRef s1 = Some 2
  /\ exists s2 s3,
      step demo_runtime (ETimer 2) s1 = Some s2
      /\ listening s2 = true /\ timers s2 = [hello_timer 3 250]
      /\ step demo_runtime ERecEnd s2 = Some s3
      /\ listening s3 = false /\ timers s3 = [] /\ pendingSpeakRef s3 = None
      /\ requests s3 = [] /\ utterance s3 = None
      /\ map sp_source (spoken s3) = [SrcVisible].
Proof.
  cbv zeta. split; [vm_compute; reflexivity|].
  split; [vm_compute; reflexivity|]. split; [vm_compute; reflexivity|].
  split; [vm_compute; reflexivity|].
  eexists. eexists. split; [vm_compute; reflexivity|].
  split; [reflexivity|]. split; [reflexivity|].
  split; [vm_compute; reflexivity|].
  repeat split; reflexivity.
Qed.

(** Outside the paths the theorem covers, the engine can speak while the
    recognition flag is set: the error of a send that fails while the
    microphone is on is spoken at once. *)
Lemma error_spoken_during_dictation :
  let s := state_after
             [EToggleAutoRead (lit "Hey!"); EChange (lit "Rome"); EClickSend (lit "u1");
              EToggleMic; ERecStart;
              ESettle 0 (Rejected (ErrorObj (lit "Failed to fetch"))) (lit "u2") (lit "u3")] in
  listening s = true
  /\ utterance s = Some (SrcError, lit "An error occurred: Failed to fetch")
  /\ map msg_role (messages s) = [assistant; user; error].
Proof. vm_compute. repeat split; reflexivity. Qed.

(* ===================================================================== *)
(** * Further properties *)
(* ===================================================================== *)

(** ** The Markdown renderer *)

Import Markdown.

Lemma startsWith_pair (d : char) (l : jsstring) :
  startsWith [d; d] l = true -> exists tail, l = d :: d :: tail.
Proof.
  destruct l as [|x [|y tail]]; simpl; intros H.
  - discriminate H.
  - rewrite andb_false_r in H. discriminate H.
  - apply andb_true_iff in H. destruct H as [Hx H].
    apply andb_true_iff in H. destruct H as [Hy _].
    apply N.eqb_eq in Hx, Hy. subst. eauto.
Qed.

Lemma find_close_spec (d : char) (r : jsstring) :
  forall n m, find_close d n r = Some m ->
    (n <= m)%nat /\ (1 <= m)%nat /\ (m - n + 2 <= List.length r)%nat
    /\ Forall (fun c => is_line_terminator c = false) (firstn (m - n) r)
    /\ startsWith [d; d] (skipn (m - n) r) = true.
Proof.
  induction r as [|c r IH]; intros n m H; cbn [find_close] in H; [discriminate|].
  destruct ((1 <=? n)%nat && startsWith [d; d] (c :: r)) eqn:E.
  - injection H as <-. apply andb_true_iff in E. destruct E as [E1 E2].
    apply Nat.leb_le in E1. rewrite Nat.sub_diag. simpl firstn. simpl skipn.
    repeat split; try lia; [|constructor|exact E2].
    destruct (startsWith_pair _ _ E2) as [tail Et]. rewrite Et. simpl. lia.
  - destruct (is_line_terminator c) eqn:Et; [discriminate|].
    destruct (IH (S n) m H) as (H1 & H2 & H3 & H4 & H5).
    replace (m - n)%nat with (S (m - S n)) by lia.
    simpl. repeat split; try lia; [|exact H5].
    constructor; assumption.
Qed.

Lemma bold_at_spec (s inner : jsstring) (len : nat) :
  bold_at s = Some (inner, len) ->
  exists d tail,
    (d = 42 \/ d = 95)%N /\ s = [d; d] ++ inner ++ [d; d] ++ tail
    /\ len = (List.length inner + 4)%nat /\ seg_ok (Strong inner).
Proof.
  unfold bold_at. intros H.
  destruct s as [|a [|b r]]; try discriminate.
  destruct ((N.eqb a 42 && N.eqb b 42) || (N.eqb a 95 && N.eqb b 95)) eqn:E;
    [|discriminate].
  destruct (find_close a 0 r) as [n|] eqn:Ef; [|discriminate].
  injection H as <- <-.
  destruct (find_close_spec a r 0 n Ef) as (_ & H1 & H2 & H3 & H4).
  rewrite Nat.sub_0_r in *.
  assert (Hab : b = a /\ (a = 42 \/ a = 95)%N).
  { apply orb_true_iff in E. destruct E as [E|E]; apply andb_true_iff in E;
      destruct E as [Ea Eb]; apply N.eqb_eq in Ea, Eb; subst; auto. }
  destruct Hab as [-> Ha].
  assert (Hlen : List.length (firstn n r) = n) by (apply firstn_length_le; lia).
  destruct (startsWith_pair _ _ H4) as [tail Es].
  exists a, tail. split; [exact Ha|]. split.
  - simpl. do 2 f_equal. rewrite <- (firstn_skipn n r) at 1. rewrite Es. reflexivity.
  - split; [lia|]. split; [|exact H3].
    intros Hnil. rewrite Hnil in Hlen. simpl in Hlen. lia.
Qed.

Lemma rebuild_app_text (ds : list char) (acc : jsstring) (l : list seg) :
  rebuild ds (flush_text acc ++ l) = rev acc ++ rebuild ds l.
Proof. destruct acc; reflexivity. Qed.

Lemma inline_go_rebuild (s : jsstring) :
  forall skip acc, (skip <= List.length s)%nat ->
    exists ds, Forall (fun d => d = 42 \/ d = 95)%N ds
               /\ rebuild ds (inline_go skip acc s) = rev acc ++ skipn skip s.
Proof.
  induction s as [|c s IH]; intros skip acc Hs.
  - exists []. split; [constructor|].
    cbn [inline_go]. rewrite skipn_nil.
    rewrite <- (app_nil_r (flush_text acc)). apply rebuild_app_text.
  - destruct skip as [|k].
    + cbn [inline_go skipn]. destruct (bold_at (c :: s)) as [[inner len]|] eqn:Eb.
      * destruct (bold_at_spec _ _ _ Eb) as (d & tail & Hd & Heq & Hlen & _).
        injection Heq as -> Hs'. subst len.
        assert (Hk : (List.length inner + 4 - 1 <= List.length s)%nat).
        { rewrite Hs'. simpl. rewrite !length_app. simpl. lia. }
        destruct (IH (List.length inner + 4 - 1)%nat [] Hk) as (ds & Hds & Hr).
        exists (d :: ds). split; [constructor; assumption|].
        rewrite rebuild_app_text. cbn [rebuild]. rewrite Hr. cbn [rev app].
        f_equal. rewrite Hs'.
        replace (List.length inner + 4 - 1)%nat with (1 + (List.length inner + 2))%nat by lia.
        cbn [Nat.add skipn app].
        replace (inner ++ d :: d :: tail) with ((inner ++ [d; d]) ++ tail)
          by (rewrite <- app_assoc; reflexivity).
        rewrite skipn_app.
        replace (List.length inner + 2)%nat with (List.length (inner ++ [d; d]))
          by (rewrite length_app; reflexivity).
        rewrite skipn_all, Nat.sub_diag. cbn [skipn app].
        rewrite <- app_assoc. reflexivity.
      * destruct (IH 0%nat (c :: acc) ltac:(lia)) as (ds & Hds & Hr).
        exists ds. split; [exact Hds|]. rewrite Hr. cbn [rev skipn].
        rewrite <- app_assoc. reflexivity.
    + cbn [inline_go skipn]. apply IH. simpl in Hs. lia.
Qed.

Lemma inline_go_ok (s : jsstring) :
  forall skip acc, Forall seg_ok (inline_go skip acc s).
Proof.
  assert (Hflush : forall acc, Forall seg_ok (flush_text acc)).
  { intros [|a acc]; [constructor|]. constructor; [|constructor].
    cbn. intros H. apply (f_equal (@List.length char)) in H.
    rewrite length_app in H. simpl in H. lia. }
  induction s as [|c s IH]; intros skip acc; [apply Hflush|].
  destruct skip as [|k]; cbn [inline_go]; [|apply IH].
  destruct (bold_at (c :: s)) as [[inner len]|] eqn:Eb; [|apply IH].
  destruct (bold_at_spec _ _ _ Eb) as (_ & _ & _ & _ & _ & Hok).
  apply Forall_app. split; [apply Hflush|].
  constructor; [exact Hok|apply IH].
Qed.

Lemma units_flush (acc : jsstring) :
  list_sum (map seg_units (flush_text acc)) = List.length acc.
Proof. destruct acc; [reflexivity|]. cbn. rewrite length_app, length_rev. simpl. lia. Qed.

Lemma inline_go_units (s : jsstring) :
  forall skip acc, (skip <= List.length s)%nat ->
    (list_sum (map seg_units (inline_go skip acc s)) + skip
     = List.length acc + List.length s)%nat.
Proof.
  induction s as [|c s IH]; intros skip acc Hs.
  - simpl in Hs. cbn [inline_go]. rewrite units_flush. simpl. lia.
  - destruct skip as [|k]; cbn [inline_go].
    + destruct (bold_at (c :: s)) as [[inner len]|] eqn:Eb.
      * destruct (bold_at_spec _ _ _ Eb) as (d & tail & _ & Heq & Hlen & _).
        injection Heq as _ Hs'. subst len.
        assert (Hk : (List.length inner + 4 - 1 <= List.length s)%nat).
        { rewrite Hs'. simpl. rewrite !length_app. simpl. lia. }
        specialize (IH _ [] Hk).
        rewrite map_app, list_sum_app, units_flush. cbn [map seg_units].
        unfold list_sum in *. cbn [fold_right List.length] in *. lia.
      * specialize (IH 0%nat (c :: acc) ltac:(lia)). cbn [List.length] in *. lia.
    + specialize (IH k acc ltac:(simpl in Hs; lia)). cbn [List.length]. lia.
Qed.

(** [X1] renderInlineBold loses nothing but the delimiters: putting each
    bold span back between two copies of a delimiter (two asterisks or two
    underscores) gives the text again, so the pieces account for every
    code unit, four per bold span being delimiters. No piece is empty,
    and a bold span holds no line terminator. *)
Theorem renderInlineBold_rebuild (text : jsstring) :
  (exists ds, Forall (fun d => d = 42 \/ d = 95)%N ds
              /\ rebuild ds (renderInlineBold text) = text)
  /\ Forall seg_ok (renderInlineBold text)
  /\ list_sum (map seg_units (renderInlineBold text)) = List.length text.
Proof.
  unfold renderInlineBold.
  destruct (inline_go_rebuild text 0 [] ltac:(lia)) as (ds & Hds & Hr).
  cbn [rev app skipn] in Hr.
  split; [exists ds; auto|]. split; [apply inline_go_ok|].
  pose proof (inline_go_units text 0 [] ltac:(lia)) as Hu.
  cbn [List.length] in Hu. lia.
Qed.

Lemma bold_at_plain (c : char) (s : jsstring) :
  no_marker c -> bold_at (c :: s) = None.
Proof.
  intros [H1 H2]. unfold bold_at. destruct s as [|b r]; [reflexivity|].
  apply N.eqb_neq in H1, H2. rewrite H1, H2. reflexivity.
Qed.

Lemma inline_go_plain (s : jsstring) :
  Forall no_marker s ->
  forall acc, inline_go 0 acc s = flush_text (rev s ++ acc).
Proof.
  induction 1 as [|c s Hc _ IH]; intros acc; [reflexivity|].
  cbn [inline_go]. rewrite (bold_at_plain c s Hc), IH.
  cbn [rev]. rewrite <- app_assoc. reflexivity.
Qed.

Lemma inline_go_skip (x s : jsstring) (acc : jsstring) :
  inline_go (List.length x) acc (x ++ s) = inline_go 0 acc s.
Proof.
  induction x as [|c x IH]; [reflexivity|].
  cbn [List.length app].
  change (inline_go (S (List.length x)) acc (c :: x ++ s))
    with (inline_go (List.length x) acc (x ++ s)).
  exact IH.
Qed.

Lemma inline_go_match (acc s inner : jsstring) (k : nat) :
  bold_at s = Some (inner, S k) ->
  inline_go 0 acc s = flush_text acc ++ Strong inner :: inline_go k [] (tl s).
Proof.
  intros H. destruct s as [|c s]; [discriminate H|].
  cbn [inline_go tl]. rewrite H. cbn [Nat.sub]. rewrite Nat.sub_0_r. reflexivity.
Qed.

Lemma find_close_here (d : char) (w post : jsstring) :
  Forall (fun c => c <> d /\ is_line_terminator c = false) w ->
  forall n, (1 <= n + List.length w)%nat ->
    find_close d n (w ++ d :: d :: post) = Some (n + List.length w)%nat.
Proof.
  induction 1 as [|c w [Hc Ht] _ IH]; intros n Hn.
  - simpl in Hn. cbn [app find_close startsWith].
    rewrite !N.eqb_refl. cbn [andb].
    replace (1 <=? n)%nat with true by (symmetry; apply Nat.leb_le; lia).
    cbn. f_equal. lia.
  - cbn [app find_close].
    assert (Hs : startsWith [d; d] (c :: w ++ d :: d :: post) = false).
    { cbn [startsWith]. apply N.eqb_neq in Hc. rewrite N.eqb_sym, Hc. reflexivity. }
    rewrite Hs, andb_false_r, Ht. rewrite IH by (simpl; lia).
    f_equal. simpl. lia.
Qed.

(** [X2] A bold span inside plain text is found as it is. For text without
    asterisks and underscores before and after, and a span [w] that is not
    empty and holds neither its delimiter nor a line terminator, the line
    renders as the text before, the bold [w], and the text after; a line
    without asterisks and underscores renders as itself. *)
Theorem renderInlineBold_span (d : char) (pre w post : jsstring) :
  (d = 42 \/ d = 95)%N ->
  Forall no_marker pre -> Forall no_marker post ->
  w <> [] -> Forall (fun c => c <> d /\ is_line_terminator c = false) w ->
  renderInlineBold (pre ++ [d; d] ++ w ++ [d; d] ++ post)
  = text_seg pre ++ [Strong w] ++ text_seg post
  /\ renderInlineBold pre = text_seg pre.
Proof.
  intros Hd Hpre Hpost Hw Hin.
  assert (Hflush : forall x, flush_text (rev x) = text_seg x).
  { intros [|a x]; [reflexivity|]. unfold flush_text, text_seg.
    rewrite rev_involutive. destruct (rev (a :: x)) eqn:E; [|reflexivity].
    apply (f_equal (@List.length char)) in E. rewrite length_rev in E. discriminate E. }
  assert (Hplain : forall x, Forall no_marker x -> inline_go 0 [] x = text_seg x).
  { intros x Hx. rewrite inline_go_plain by exact Hx. rewrite app_nil_r. apply Hflush. }
  split; [|apply Hplain; exact Hpre].
  unfold renderInlineBold.
  assert (Hgo : forall acc,
             inline_go 0 acc (pre ++ [d; d] ++ w ++ [d; d] ++ post)
             = flush_text (rev pre ++ acc) ++ [Strong w] ++ text_seg post).
  { induction Hpre as [|c pre Hc _ IH]; intros acc.
    - cbn [app rev].
      assert (Hb : bold_at (d :: d :: w ++ d :: d :: post)
                   = Some (w, (List.length w + 4)%nat)).
      { unfold bold_at.
        replace ((N.eqb d 42 && N.eqb d 42) || (N.eqb d 95 && N.eqb d 95)) with true
          by (destruct Hd as [-> | ->]; reflexivity).
        pose proof (find_close_here d w post Hin 0%nat) as Hf.
        cbn [Nat.add] in Hf. rewrite Hf.
        + rewrite firstn_app, firstn_all, Nat.sub_diag. cbn [firstn].
          rewrite app_nil_r. reflexivity.
        + destruct w; [contradiction|simpl; lia]. }
      replace (List.length w + 4)%nat with (S (List.length w + 3)) in Hb by lia.
      rewrite (inline_go_match acc _ w (List.length w + 3) Hb). cbn [tl].
      f_equal. f_equal.
      replace (List.length w + 3)%nat with (List.length (d :: w ++ [d; d]))
        by (simpl; rewrite length_app; simpl; lia).
      replace (d :: w ++ d :: d :: post) with ((d :: w ++ [d; d]) ++ post)
        by (simpl; rewrite <- app_assoc; reflexivity).
      rewrite inline_go_skip. apply Hplain. exact Hpost.
    - cbn [app inline_go]. rewrite (bold_at_plain c _ Hc), IH.
      cbn [rev]. rewrite <- app_assoc. reflexivity. }
  rewrite Hgo, app_nil_r, Hflush. reflexivity.
Qed.

Lemma renderInlineBold_span_witness :
  renderInlineBold (lit "Visit the **Colosseum** early")
  = [Text (lit "Visit the "); Strong (lit "Colosseum"); Text (lit " early")].
Proof.
  apply (proj1 (renderInlineBold_span 42%N (lit "Visit the ") (lit "Colosseum")
                  (lit " early") (or_introl eq_refl)
                  ltac:(repeat constructor; discriminate)
                  ltac:(repeat constructor; discriminate)
                  ltac:(discriminate)
                  ltac:(repeat constructor; discriminate))).
Defined.

(** *** Lines *)

Lemma md_go_lines (lines : list jsstring) :
  forall i items,
    list_sum (map node_lines (md_go i items lines))
    = (List.length items + List.length lines)%nat.
Proof.
  induction lines as [|line rest IH]; intros i items.
  - destruct items; cbn; [reflexivity|]. rewrite length_app, length_rev. simpl. lia.
  - cbn [md_go].
    assert (Houter :
      list_sum (map node_lines
        (match h3_capture line with
         | Some title => H3 i (renderInlineBold title) :: md_go (S i) [] rest
         | None =>
             if is_bullet line
             then md_go (S i) [renderInlineBold (bullet_item line)] rest
             else if is_empty (trim line) then Br i :: md_go (S i) [] rest
             else P i (renderInlineBold line) :: md_go (S i) [] rest
         end)) = S (List.length rest)).
    { destruct (h3_capture line); [cbn; rewrite IH; reflexivity|].
      destruct (is_bullet line); [rewrite IH; reflexivity|].
      destruct (is_empty (trim line)); cbn; rewrite IH; reflexivity. }
    destruct items as [|it items]; [rewrite Houter; reflexivity|].
    destruct (is_bullet line); [rewrite IH; simpl; lia|].
    cbn [map list_sum fold_right node_lines]. unfold list_sum in *.
    cbn [fold_right]. rewrite Houter.
    rewrite length_rev. simpl. lia.
Qed.

Lemma md_go_shape (lines : list jsstring) :
  forall i items,
    no_adjacent_lists (md_go i items lines)
    /\ Forall list_not_empty (md_go i items lines)
    /\ Forall (fun n => i <= snd (key n))%nat (md_go i items lines)
    /\ NoDup (map key (md_go i items lines)).
Proof.
  induction lines as [|line rest IH]; intros i items.
  - destruct items as [|it items]; cbn [md_go].
    + repeat split; constructor.
    + repeat split; try (constructor; [|constructor]); cbn; auto.
      intros H. apply (f_equal (@List.length _)) in H.
      rewrite length_app in H. simpl in H. lia.
  - cbn [md_go].
    set (outer := match h3_capture line with
                  | Some title => H3 i (renderInlineBold title) :: md_go (S i) [] rest
                  | None =>
                      if is_bullet line
                      then md_go (S i) [renderInlineBold (bullet_item line)] rest
                      else if is_empty (trim line) then Br i :: md_go (S i) [] rest
                      else P i (renderInlineBold line) :: md_go (S i) [] rest
                  end).
    assert (Hcons : forall n, (forall j its, n <> UL j its) -> snd (key n) = i ->
              let l := n :: md_go (S i) [] rest in
              no_adjacent_lists l /\ Forall list_not_empty l
              /\ Forall (fun n => i <= snd (key n))%nat l /\ NoDup (map key l)
              /\ ~ In (KUL, i) (map key l)).
    { intros n Hn Hi l. destruct (IH (S i) []) as (A & B & C & D).
      assert (Hfresh : forall k, ~ In (k, i) (map key (md_go (S i) [] rest))).
      { intros k Hin. apply in_map_iff in Hin. destruct Hin as (x & Hx & Hin).
        pose proof (proj1 (Forall_forall _ _) C x Hin) as Hle.
        cbv beta in Hle. rewrite Hx in Hle. simpl in Hle. lia. }
      subst l. repeat split.
      - destruct n; try exact A; cbn; try exact A. exfalso. eapply Hn. reflexivity.
      - constructor; [|exact B].
        destruct n; cbn; auto. exfalso. eapply Hn. reflexivity.
      - constructor; [lia|]. eapply Forall_impl; [|exact C]. cbn. intros; lia.
      - cbn [map]. constructor; [|exact D].
        destruct (key n) as [k j] eqn:Ek. simpl in Hi. subst j. apply Hfresh.
      - intros [Hin|Hin]; [|exact (Hfresh _ Hin)].
        destruct n; cbn in Hin; try discriminate Hin.
        eapply Hn. reflexivity. }
    assert (Houter : is_bullet line = false ->
              no_adjacent_lists outer /\ Forall list_not_empty outer
              /\ Forall (fun n => i <= snd (key n))%nat outer /\ NoDup (map key outer)
              /\ ~ In (KUL, i) (map key outer)
              /\ match outer with UL _ _ :: _ => False | _ => True end).
    { intros Hb. subst outer. rewrite Hb.
      destruct (h3_capture line); [|destruct (is_empty (trim line))];
        match goal with
        | |- context [?n :: md_go (S i) [] rest] =>
            destruct (Hcons n ltac:(discriminate) eq_refl) as (A & B & C & D & E)
        end; repeat split; auto. }
    assert (Hstart : is_bullet line = true ->
              forall its, let l := md_go (S i) its rest in
              no_adjacent_lists l /\ Forall list_not_empty l
              /\ Forall (fun n => i <= snd (key n))%nat l /\ NoDup (map key l)).
    { intros _ its l. destruct (IH (S i) its) as (A & B & C & D).
      repeat split; auto. eapply Forall_impl; [|exact C]. cbn. intros; lia. }
    destruct items as [|it items].
    + destruct (is_bullet line) eqn:Eb.
      * subst outer.
        destruct (h3_capture line) eqn:Eh.
        -- destruct (Hcons (H3 i (renderInlineBold j)) ltac:(discriminate) eq_refl)
             as (A & B & C & D & _). auto.
        -- apply Hstart. reflexivity.
      * destruct (Houter eq_refl) as (A & B & C & D & _). auto.
    + destruct (is_bullet line) eqn:Eb; [apply Hstart; reflexivity|].
      destruct (Houter eq_refl) as (A & B & C & D & E & F).
      repeat split.
      * cbn [no_adjacent_lists]. destruct outer as [|[] ?]; auto; contradiction.
      * constructor; [|exact B]. cbn. intros H.
        apply (f_equal (@List.length _)) in H. rewrite length_app in H. simpl in H. lia.
      * constructor; [cbn; lia|exact C].
      * cbn [map key]. constructor; assumption.
Qed.

(** [X3] renderMarkdown accounts for every line of the text: each heading,
    spacer and paragraph stands for one line and each list for as many
    lines as it has items, and together they are the lines of the text. *)
Theorem renderMarkdown_lines (text : jsstring) :
  list_sum (map node_lines (renderMarkdown text)) = List.length (split_lines text)
  /\ (1 <= List.length (split_lines text))%nat.
Proof.
  unfold renderMarkdown. rewrite md_go_lines. split; [reflexivity|].
  destruct (split_lines text) eqn:E; [|simpl; lia].
  exfalso. exact (split_lines_nonempty text E).
Qed.

(** [X5] The keys renderMarkdown gives its nodes (the kind of node with a
    line index) are pairwise distinct. *)
Theorem renderMarkdown_keys (text : jsstring) :
  NoDup (map key (renderMarkdown text)).
Proof.
  unfold renderMarkdown.
  destruct (md_go_shape (split_lines text) 0 []) as (_ & _ & _ & D). exact D.
Qed.

Lemma takeWhile_app_stop (p : char -> bool) (w : jsstring) (c : char) (t : jsstring) :
  Forall (fun x => p x = true) w -> p c = false ->
  takeWhile p (w ++ c :: t) = w.
Proof.
  induction 1 as [|x w Hx _ IH]; intros Hc; simpl.
  - rewrite Hc. reflexivity.
  - rewrite Hx, IH by exact Hc. reflexivity.
Qed.

Lemma takeWhile_all (p : char -> bool) (s : jsstring) :
  Forall (fun x => p x = true) s -> takeWhile p s = s.
Proof.
  induction 1 as [|x s Hx _ IH]; simpl; [reflexivity|]. rewrite Hx, IH. reflexivity.
Qed.

(** [X6] A line of three hashes, white space, and a title that starts with
    a visible character and holds no line terminator is a heading whose
    text is the whole rest of the line: white space that ends the title is
    kept. Without white space after the hashes the line is no heading. *)
Theorem h3_capture_heading (w : jsstring) (c : char) (t : jsstring) :
  Forall (fun x => isWS x = true) w -> w <> [] ->
  isWS c = false ->
  Forall (fun x => is_line_terminator x = false) (c :: t) ->
  h3_capture (lit "###" ++ w ++ c :: t) = Some (c :: t)
  /\ h3_capture (lit "###" ++ c :: t) = None
  /\ forall i rest,
       md_go i [] ((lit "###" ++ w ++ c :: t) :: rest)
       = H3 i (renderInlineBold (c :: t)) :: md_go (S i) [] rest.
Proof.
  intros Hw Hne Hc Ht.
  assert (H1 : h3_capture (lit "###" ++ w ++ c :: t) = Some (c :: t)).
  { unfold h3_capture.
    change (lit "###" ++ w ++ c :: t) with (35 :: 35 :: 35 :: (w ++ c :: t))%N.
    cbn [startsWith lit]. change (startsWith (lit "###") (35 :: 35 :: 35 :: (w ++ c :: t))%N)
      with true. cbn [skipn].
    rewrite (takeWhile_app_stop isWS w c t Hw Hc).
    destruct w as [|x w']; [contradiction|].
    cbn [List.length h3_try].
    change (skipn (S (List.length w')) ((x :: w') ++ c :: t))
      with (skipn (List.length w') (w' ++ c :: t)).
    rewrite skipn_app, skipn_all, Nat.sub_diag. cbn [skipn app].
    rewrite takeWhile_all
      by (eapply Forall_impl; [|exact Ht]; cbn; intros a Ha; rewrite Ha; reflexivity).
    rewrite skipn_all. reflexivity. }
  split; [exact H1|]. split.
  - unfold h3_capture.
    change (lit "###" ++ c :: t) with (35 :: 35 :: 35 :: c :: t)%N.
    change (startsWith (lit "###") (35 :: 35 :: 35 :: c :: t)%N) with true.
    cbn [skipn takeWhile]. rewrite Hc. reflexivity.
  - intros i rest. cbn [md_go]. rewrite H1. reflexivity.
Qed.

Lemma h3_capture_heading_witness :
  h3_capture (lit "### Day 1  ") = Some (lit "Day 1  ")
  /\ h3_capture (lit "###Day 1") = None.
Proof.
  destruct (h3_capture_heading (lit " ") 68%N (lit "ay 1  ")
              ltac:(repeat constructor) ltac:(discriminate) eq_refl
              ltac:(repeat constructor)) as (A & _).
  destruct (h3_capture_heading (lit " ") 68%N (lit "ay 1")
              ltac:(repeat constructor) ltac:(discriminate) eq_refl
              ltac:(repeat constructor)) as (_ & B & _).
  split; [exact A|exact B].
Defined.

(** ** Fence stripping *)

Lemma dropWhile_idem (p : char -> bool) (s : jsstring) :
  dropWhile p (dropWhile p s) = dropWhile p s.
Proof.
  induction s as [|c s IH]; [reflexivity|]. simpl.
  destruct (p c) eqn:E; [exact IH|]. simpl. rewrite E. reflexivity.
Qed.

Lemma dropWhile_app (p : char -> bool) (a b : jsstring) :
  dropWhile p (a ++ b)
  = match dropWhile p a with
    | [] => dropWhile p b
    | _ => dropWhile p a ++ b
    end.
Proof.
  induction a as [|c a IH]; simpl; [destruct (dropWhile p b); reflexivity|].
  destruct (p c); [exact IH|reflexivity].
Qed.

Lemma trimEnd_idem (s : jsstring) : trimEnd (trimEnd s) = trimEnd s.
Proof. unfold trimEnd. rewrite rev_involutive, dropWhile_idem. reflexivity. Qed.

Lemma dropWhile_head_false (p : char -> bool) (s : jsstring) (c : char) (t : jsstring) :
  dropWhile p s = c :: t -> p c = false.
Proof.
  induction s as [|x s IH]; simpl; [discriminate|].
  destruct (p x) eqn:E; [exact IH|].
  intros H. injection H as -> _. exact E.
Qed.

Lemma trimStart_trimEnd (s : jsstring) :
  trimStart (trimEnd (trimStart s)) = trimEnd (trimStart s).
Proof.
  destruct (trimEnd_split (trimStart s)) as [w [Hw _]].
  destruct (trimEnd (trimStart s)) as [|c t] eqn:E; [reflexivity|].
  unfold trimStart at 1. apply dropWhile_head.
  exact (dropWhile_head_false isWS s _ _ Hw).
Qed.

Lemma trim_idem (s : jsstring) : trim (trim s) = trim s.
Proof. unfold trim. rewrite trimStart_trimEnd. apply trimEnd_idem. Qed.

(** [X7] What stripCodeFence returns neither begins nor ends with white
    space: trimming it again changes nothing. *)
Theorem stripCodeFence_trimmed (input : jsstring) :
  trim (stripCodeFence input) = stripCodeFence input.
Proof.
  unfold stripCodeFence. cbv zeta.
  destruct (startsWith fence (trim input) && endsWith fence (trim input));
    [apply trim_idem|].
  destruct (fence_match (trim input)); apply trim_idem.
Qed.

Lemma Forall_dropWhile (P : char -> Prop) (p : char -> bool) (s : jsstring) :
  Forall P s -> Forall P (dropWhile p s).
Proof.
  induction 1 as [|c s Hc Hs IH]; simpl; [constructor|].
  destruct (p c); [exact IH|constructor; assumption].
Qed.

Lemma Forall_trim (P : char -> Prop) (s : jsstring) :
  Forall P s -> Forall P (trim s).
Proof.
  intros H. unfold trim, trimEnd, trimStart.
  apply Forall_rev, Forall_dropWhile, Forall_rev, Forall_dropWhile. exact H.
Qed.

Lemma fence_match_no_backtick (s : jsstring) :
  no_backtick s -> fence_match s = None /\ startsWith fence s = false.
Proof.
  induction 1 as [|c s Hc _ [IH _]].
  - split; reflexivity.
  - assert (Hs : startsWith fence (c :: s) = false).
    { change fence with [96; 96; 96]%N. cbn [startsWith].
      apply N.eqb_neq in Hc. rewrite N.eqb_sym, Hc. reflexivity. }
    split; [|exact Hs].
    cbn [fence_match]. unfold fence_match_here. rewrite Hs. exact IH.
Qed.

(** [X8] A text without a backtick is only trimmed. *)
Theorem stripCodeFence_plain (input : jsstring) :
  no_backtick input -> stripCodeFence input = trim input.
Proof.
  intros H. unfold stripCodeFence. cbv zeta.
  destruct (fence_match_no_backtick (trim input) (Forall_trim _ _ H)) as [Hm Hs].
  rewrite Hs, Hm. reflexivity.
Qed.

Lemma stripCodeFence_plain_witness :
  stripCodeFence (lit "  Sure, give me a minute. ") = lit "Sure, give me a minute.".
Proof.
  rewrite (stripCodeFence_plain (lit "  Sure, give me a minute. ")
             ltac:(repeat constructor; discriminate)).
  vm_compute. reflexivity.
Defined.


Lemma trimStart_app_visible (pre z : jsstring) :
  trimStart pre <> [] -> trimStart (pre ++ z) = trimStart pre ++ z.
Proof.
  intros H. unfold trimStart in *. rewrite dropWhile_app.
  destruct (dropWhile isWS pre); [contradiction|reflexivity].
Qed.

Lemma trimStart_skip (w : jsstring) (a : char) (m : jsstring) :
  Forall (fun c => isWS c = true) w -> isWS a = false ->
  trimStart (w ++ a :: m) = a :: m.
Proof.
  intros Hw Ha. unfold trimStart. rewrite dropWhile_app, (dropWhile_all _ _ Hw).
  apply dropWhile_head. exact Ha.
Qed.

Lemma trimEnd_app_visible (z : jsstring) (b : char) (post : jsstring) :
  isWS b = false -> trimEnd ((z ++ [b]) ++ post) = (z ++ [b]) ++ trimEnd post.
Proof.
  intros Hb. unfold trimEnd. rewrite rev_app_distr, dropWhile_app.
  assert (Hz : dropWhile isWS (rev (z ++ [b])) = rev (z ++ [b])).
  { rewrite rev_app_distr. apply dropWhile_head. exact Hb. }
  destruct (dropWhile isWS (rev post)) as [|x r] eqn:E.
  - rewrite Hz, rev_involutive. simpl. rewrite app_nil_r. reflexivity.
  - rewrite rev_app_distr, rev_involutive. reflexivity.
Qed.

Lemma trimEnd_all_ws (w : jsstring) :
  Forall (fun c => isWS c = true) w -> trimEnd w = [].
Proof.
  intros H. unfold trimEnd. rewrite dropWhile_all; [reflexivity|].
  apply Forall_rev. exact H.
Qed.

(** The first line of a text is what stands before its first line end. *)
Lemma split_lines_first (p nl r : jsstring) :
  one_line p -> is_newline nl ->
  split_lines (p ++ nl ++ r) = p :: split_lines r.
Proof.
  intros Hp Hnl. induction Hp as [|c p [H1 H2] _ IH].
  - destruct Hnl as [-> | ->]; reflexivity.
  - etransitivity; [exact (split_lines_keep c (p ++ nl ++ r) H1 H2)|].
    exact (f_equal (fun l => (c :: hd [] l) :: tl l) IH).
Qed.

(** White space of JSON after a complete text changes no token. *)
Lemma lex_go_add_ws (c : char) (s : jsstring) :
  is_json_ws c = true ->
  forall st toks, lex_go st s = Some toks -> lex_go st (s ++ [c]) = Some toks.
Proof.
  intros Hc. induction s as [|x s IH]; intros st toks H.
  - simpl in *. rewrite (end_then_ws _ _ _ Hc H). simpl.
    rewrite app_nil_r. reflexivity.
  - simpl in *. destruct (lex_step st x) as [[out st']|]; [|discriminate].
    destruct (lex_go st' s) as [r|] eqn:Er; [|discriminate].
    rewrite (IH _ _ Er). exact H.
Qed.

(** [X9] A JSON text in a fence parses to its value after stripCodeFence
    whatever the tag on the opening line, with line feeds or carriage
    return and line feed as line ends, and with white space around the
    fence. *)
Theorem stripCodeFence_any_fence
    (w1 tag nl1 J nl2 w2 : jsstring) (v : json) :
  Forall (fun c => isWS c = true) w1 ->
  Forall (fun c => isWS c = true) w2 ->
  one_line tag -> is_newline nl1 -> is_newline nl2 ->
  JSON_parse J = Some v ->
  JSON_parse
    (stripCodeFence (w1 ++ fence ++ tag ++ nl1 ++ J ++ nl2 ++ fence ++ w2))
  = Some v.
Proof.
  intros Hw1 Hw2 Htag Hn1 Hn2 HJ.
  set (J' := J ++ removelast nl2).
  assert (Hbody : J ++ nl2 ++ fence = J' ++ LF :: fence).
  { unfold J'. destruct Hn2 as [-> | ->]; simpl;
      [rewrite app_nil_r|rewrite <- app_assoc]; reflexivity. }
  set (m := lit "``" ++ tag ++ nl1 ++ J' ++ LF :: lit "``").
  assert (Hx : w1 ++ fence ++ tag ++ nl1 ++ J ++ nl2 ++ fence ++ w2
               = w1 ++ (96%N :: m ++ [96%N]) ++ w2).
  { unfold m. f_equal.
    replace (J ++ nl2 ++ fence ++ w2) with ((J ++ nl2 ++ fence) ++ w2)
      by (rewrite <- !app_assoc; reflexivity).
    rewrite Hbody. change fence with (lit "```").
    cbn [lit]. simpl. repeat (rewrite <- ?app_assoc; simpl). reflexivity. }
  assert (Ht : trim (w1 ++ (96%N :: m ++ [96%N]) ++ w2) = 96%N :: m ++ [96%N]).
  { unfold trim.
    transitivity (trimEnd (((96%N :: m) ++ [96%N]) ++ w2)).
    { exact (f_equal trimEnd
               (trimStart_skip w1 96%N ((m ++ [96%N]) ++ w2) Hw1 eq_refl)). }
    etransitivity; [exact (trimEnd_app_visible (96%N :: m) 96%N w2 eq_refl)|].
    transitivity (((96%N :: m) ++ [96%N]) ++ []); [|apply app_nil_r].
    exact (f_equal (app ((96%N :: m) ++ [96%N])) (trimEnd_all_ws _ Hw2)). }
  assert (Hm : 96%N :: m ++ [96%N]
               = (fence ++ tag) ++ nl1 ++ (J' ++ LF :: fence)).
  { unfold m. change fence with (lit "```"). simpl.
    repeat (rewrite <- ?app_assoc; simpl). reflexivity. }
  assert (Hends : startsWith fence (96%N :: m ++ [96%N])
                  && endsWith fence (96%N :: m ++ [96%N]) = true).
  { apply andb_true_intro. split.
    - unfold m. reflexivity.
    - rewrite Hm. unfold endsWith. rewrite !app_assoc, rev_app_distr.
      reflexivity. }
  assert (Hone : one_line (fence ++ tag)).
  { apply Forall_app. split; [|exact Htag].
    repeat constructor. }
  unfold stripCodeFence. cbv zeta. rewrite Hx, Ht, Hends.
  rewrite Hm, (split_lines_first _ _ _ Hone Hn1).
  unfold shift. cbn [tl].
  destruct (lines_before_close_all _ J' (le_n _)) as (l & ls & Hs & _ & Hj).
  rewrite Hs, Hj.
  unfold JSON_parse in *.
  destruct (lex J) as [toks|] eqn:El; [|discriminate].
  assert (El' : lex J' = Some toks).
  { unfold J'. destruct Hn2 as [-> | ->]; simpl.
    - rewrite app_nil_r. exact El.
    - exact (lex_go_add_ws CR J eq_refl LDefault toks El). }
  assert (Hl : lex (trim (unix_lines J')) = Some toks).
  { apply lex_trim. exact (lex_go_unix_lines _ J' LDefault toks (le_n _) I El'). }
  rewrite Hl. exact HJ.
Qed.

Lemma stripCodeFence_any_fence_witness :
  JSON_parse
    (stripCodeFence
       ([32; LF]%N ++ fence ++ lit "JSON5 " ++ [CR; LF]
        ++ qlit "{'a': [1, 'x']}" ++ [CR; LF] ++ fence ++ [LF; 9]%N))
  = Some (JObject [(lit "a", JArray [jnum 1; jstr "x"])]).
Proof.
  apply (stripCodeFence_any_fence [32; LF]%N (lit "JSON5 ") [CR; LF]
           (qlit "{'a': [1, 'x']}") [CR; LF] [LF; 9]%N).
  - repeat constructor.
  - repeat constructor.
  - repeat constructor.
  - right. reflexivity.
  - right. reflexivity.
  - vm_compute. reflexivity.
Defined.


(** No JSON text holds a line feed with a backtick right after it. *)
Lemma lex_go_lf_backtick (st : lstate) (s : jsstring) :
  lit_ok st -> lex_go st (LF :: 96%N :: s) = None.
Proof.
  intros Hok. cbn [lex_go].
  destruct (lex_step st LF) as [[out st']|] eqn:E; [|reflexivity].
  destruct (ws_step st st' LF out Hok eq_refl E) as [(_ & -> & _) | (acc & -> & _)].
  - reflexivity.
  - discriminate E.
Qed.

(** The lazy group stops at the end of a JSON text that a line feed and a
    fence follow. *)
Lemma lazy_until_close_json (rest : jsstring) :
  forall J st toks, lit_ok st -> lex_go st J = Some toks ->
    lazy_until_close (J ++ LF :: fence ++ rest) = Some J.
Proof.
  induction J as [|c J IH]; intros st toks Hok H.
  - reflexivity.
  - assert (Hs : startsWith (LF :: fence) ((c :: J) ++ LF :: fence ++ rest) = false).
    { change (N.eqb LF c
              && startsWith fence (J ++ LF :: fence ++ rest) = false).
      destruct (N.eqb LF c) eqn:Ec; [|reflexivity].
      apply N.eqb_eq in Ec. subst c.
      destruct J as [|d J]; [reflexivity|].
      change (true && (N.eqb 96 d
                       && startsWith (lit "``") (J ++ LF :: fence ++ rest))
              = false).
      destruct (N.eqb 96 d) eqn:Ed; [|reflexivity].
      apply N.eqb_eq in Ed. subst d.
      rewrite (lex_go_lf_backtick _ _ Hok) in H. discriminate. }
    change (lazy_until_close ((c :: J) ++ LF :: fence ++ rest))
      with (if startsWith (LF :: fence) ((c :: J) ++ LF :: fence ++ rest)
            then Some []
            else option_map (cons c) (lazy_until_close (J ++ LF :: fence ++ rest))).
    rewrite Hs.
    simpl in H. destruct (lex_step st c) as [[out st']|] eqn:Es; [|discriminate].
    destruct (lex_go st' J) as [r|] eqn:Er; [|discriminate].
    rewrite (IH _ _ (lex_step_lit_ok _ _ _ _ Hok Es) Er). reflexivity.
Qed.

Lemma startsWith_ci_app (p t r : jsstring) :
  startsWith_ci p t = true -> startsWith_ci p (t ++ r) = true.
Proof.
  revert t. induction p as [|x p IH]; intros t H; [reflexivity|].
  destruct t as [|y t]; [discriminate|].
  cbn [startsWith_ci app] in *. apply andb_true_iff in H. destruct H as [H1 H2].
  rewrite H1, (IH _ H2). reflexivity.
Qed.

Lemma startsWith_fence_head (c : char) (s : jsstring) :
  c <> 96%N -> startsWith fence (c :: s) = false.
Proof.
  intros Hc. change fence with [96; 96; 96]%N. cbn [startsWith].
  apply N.eqb_neq in Hc. rewrite N.eqb_sym, Hc. reflexivity.
Qed.

Lemma fence_match_skip (a r : jsstring) :
  no_backtick a -> fence_match (a ++ r) = fence_match r.
Proof.
  induction 1 as [|c a Hc _ IH]; [reflexivity|].
  change ((c :: a) ++ r) with (c :: (a ++ r)).
  cbn [fence_match]. unfold fence_match_here at 1.
  assert (Hs : startsWith fence (c :: a ++ r) = false).
  { change fence with [96; 96; 96]%N. cbn [startsWith].
    apply N.eqb_neq in Hc. rewrite N.eqb_sym, Hc. reflexivity. }
  rewrite Hs. exact IH.
Qed.

Lemma fence_match_found (s cap : jsstring) :
  fence_match_here s = Some cap -> fence_match s = Some cap.
Proof. intros H. destruct s; cbn [fence_match]; rewrite H; reflexivity. Qed.

Lemma trim_nonempty_start (pre : jsstring) :
  trim pre <> [] -> trimStart pre <> [].
Proof. unfold trim. intros H E. apply H. rewrite E. reflexivity. Qed.

(** The trimmed text when a fence stands between a text with a visible
    character and any other text. *)
Lemma trim_around_fence (pre mid post : jsstring) :
  no_backtick pre -> trim pre <> [] ->
  exists c p,
    c <> 96%N /\ no_backtick p /\
    trim (pre ++ (fence ++ mid ++ fence) ++ post)
    = (c :: p) ++ (fence ++ mid ++ fence) ++ trimEnd post.
Proof.
  intros Hnb Hne. apply trim_nonempty_start in Hne.
  pose proof (Forall_dropWhile _ isWS _ Hnb) as Hp. fold (trimStart pre) in Hp.
  destruct (trimStart pre) as [|c p] eqn:Ep; [contradiction|].
  exists c, p. inversion Hp; subst. split; [assumption|]. split; [assumption|].
  unfold trim.
  transitivity (trimEnd ((((c :: p) ++ fence ++ mid ++ lit "``") ++ [96%N]) ++ post)).
  { f_equal. etransitivity.
    - apply trimStart_app_visible. rewrite Ep. discriminate.
    - rewrite Ep. change fence with (lit "``" ++ [96%N]).
      repeat (rewrite <- ?app_assoc; simpl). reflexivity. }
  etransitivity;
    [exact (trimEnd_app_visible ((c :: p) ++ fence ++ mid ++ lit "``") 96%N post eq_refl)|].
  change fence with (lit "``" ++ [96%N]).
  repeat (rewrite <- ?app_assoc; simpl). reflexivity.
Qed.

(** [X10] A fenced JSON text with prose before it, and anything after it,
    is cut out by the pattern: stripCodeFence returns the text between the
    fences, trimmed, and it parses to the value of the JSON text. The tag is
    [json] in any case, or absent, and the line ends are line feeds. *)
Theorem stripCodeFence_embedded (pre tag J post : jsstring) (v : json) :
  no_backtick pre -> trim pre <> [] -> json_tag tag ->
  JSON_parse J = Some v ->
  stripCodeFence (pre ++ (fence ++ (tag ++ LF :: J ++ [LF]) ++ fence) ++ post)
  = trim J
  /\ JSON_parse (trim J) = Some v.
Proof.
  intros Hnb Hne Htag HJ.
  assert (Hparse : JSON_parse (trim J) = Some v).
  { unfold JSON_parse in *. destruct (lex J) as [toks|] eqn:El; [|discriminate].
    rewrite (lex_trim _ _ El). exact HJ. }
  split; [|exact Hparse].
  destruct (trim_around_fence pre (tag ++ LF :: J ++ [LF]) post Hnb Hne)
    as (c & p & Hc & Hp & Ht).
  unfold stripCodeFence. cbv zeta. rewrite Ht.
  assert (Hs : startsWith fence
                 ((c :: p) ++ (fence ++ (tag ++ LF :: J ++ [LF]) ++ fence)
                  ++ trimEnd post) = false).
  { exact (startsWith_fence_head c _ Hc). }
  rewrite Hs. cbn [andb].
  assert (Hcp : no_backtick (c :: p)) by (constructor; assumption).
  rewrite (fence_match_skip (c :: p) _ Hcp).
  assert (Hcap : lazy_until_close (J ++ LF :: fence ++ trimEnd post) = Some J).
  { unfold JSON_parse in HJ. destruct (lex J) as [toks|] eqn:El; [|discriminate].
    exact (lazy_until_close_json (trimEnd post) J LDefault toks I El). }
  assert (Hbody : forall t, (t ++ LF :: J ++ [LF]) ++ fence ++ trimEnd post
                            = t ++ LF :: (J ++ LF :: fence ++ trimEnd post)).
  { intros t. repeat (rewrite <- ?app_assoc; simpl). reflexivity. }
  assert (Hshape : (fence ++ (tag ++ LF :: J ++ [LF]) ++ fence) ++ trimEnd post
                   = fence ++ tag ++ LF :: (J ++ LF :: fence ++ trimEnd post)).
  { rewrite <- app_assoc. f_equal. rewrite <- app_assoc. exact (Hbody tag). }
  rewrite Hshape.
  rewrite (fence_match_found
             (fence ++ tag ++ LF :: (J ++ LF :: fence ++ trimEnd post)) J);
    [reflexivity|].
  unfold fence_match_here.
  change (startsWith fence (fence ++ tag ++ LF :: (J ++ LF :: fence ++ trimEnd post)))
    with true.
  change (skipn 3 (fence ++ tag ++ LF :: (J ++ LF :: fence ++ trimEnd post)))
    with (tag ++ LF :: (J ++ LF :: fence ++ trimEnd post)).
  cbv iota.
  destruct Htag as [-> | [Hlen Hci]].
  - cbn [app]. change (startsWith_ci (lit "json") (LF :: _)) with false.
    cbv iota. unfold after_tag. rewrite N.eqb_refl, Hcap. reflexivity.
  - destruct tag as [|t1 [|t2 [|t3 [|t4 [|t5 tag]]]]]; try discriminate Hlen.
    assert (Hci' : startsWith_ci (lit "json")
                     ([t1; t2; t3; t4] ++ LF :: J ++ LF :: fence ++ trimEnd post)
                   = true).
    { exact (startsWith_ci_app _ _ _ Hci). }
    rewrite Hci'.
    change (skipn 4 ([t1; t2; t3; t4] ++ LF :: J ++ LF :: fence ++ trimEnd post))
      with (LF :: J ++ LF :: fence ++ trimEnd post).
    unfold after_tag at 1. rewrite N.eqb_refl, Hcap. reflexivity.
Qed.

Lemma stripCodeFence_embedded_witness :
  stripCodeFence
    (lit "Here is your plan:" ++ [LF]
     ++ (fence ++ (lit "JSON" ++ LF :: (qlit " {'a': [1, 'x']}" ++ [LF]) ++ [LF]) ++ fence)
     ++ lit " Enjoy!")
  = qlit "{'a': [1, 'x']}".
Proof.
  destruct (stripCodeFence_embedded (lit "Here is your plan:" ++ [LF]) (lit "JSON")
              (qlit " {'a': [1, 'x']}" ++ [LF]) (lit " Enjoy!")
              (JObject [(lit "a", JArray [jnum 1; jstr "x"])])) as [H _].
  - repeat constructor; discriminate.
  - vm_compute. discriminate.
  - right. split; reflexivity.
  - vm_compute. reflexivity.
  - etransitivity; [|etransitivity; [exact H|]]; vm_compute; reflexivity.
Defined.


Lemma lazy_until_close_no_backtick (s : jsstring) :
  no_backtick s -> lazy_until_close s = None.
Proof.
  induction 1 as [|c s Hc Hs IH]; [reflexivity|].
  assert (Hst : startsWith (LF :: fence) (c :: s) = false).
  { change (N.eqb LF c && startsWith fence s = false).
    destruct (fence_match_no_backtick s Hs) as [_ ->]. apply andb_false_r. }
  change (lazy_until_close (c :: s))
    with (if startsWith (LF :: fence) (c :: s) then Some []
          else option_map (cons c) (lazy_until_close s)).
  rewrite Hst, IH. reflexivity.
Qed.

Lemma after_tag_no_backtick (s : jsstring) :
  no_backtick s -> after_tag s = None.
Proof.
  intros H. destruct s as [|c s]; [reflexivity|]. unfold after_tag.
  inversion H; subst. rewrite lazy_until_close_no_backtick by assumption.
  destruct (N.eqb c LF); reflexivity.
Qed.

Lemma no_backtick_skipn (n : nat) (s : jsstring) :
  no_backtick s -> no_backtick (skipn n s).
Proof.
  revert s. induction n as [|n IH]; intros s H; [exact H|].
  destruct s as [|c s]; [exact H|]. inversion H; subst. apply IH. assumption.
Qed.

(** After a fence that opens no match, the search goes on behind it. *)
Lemma fence_match_fence (q : jsstring) :
  hd 0%N q <> 96%N -> fence_match_here (fence ++ q) = None ->
  fence_match (fence ++ q) = fence_match q.
Proof.
  intros Hq Hn.
  assert (H2 : startsWith fence (96%N :: 96%N :: q) = false).
  { destruct q as [|c q]; [reflexivity|]. simpl in Hq.
    change (true && (true && (N.eqb 96 c && true)) = false).
    apply N.eqb_neq in Hq. rewrite N.eqb_sym, Hq. reflexivity. }
  assert (H1 : startsWith fence (96%N :: q) = false).
  { destruct q as [|c q]; [reflexivity|]. simpl in Hq.
    change (true && (N.eqb 96 c && startsWith [96%N] q) = false).
    apply N.eqb_neq in Hq. rewrite N.eqb_sym, Hq. reflexivity. }
  change (fence ++ q) with (96%N :: 96%N :: 96%N :: q) in *.
  cbn [fence_match]. rewrite Hn.
  unfold fence_match_here at 1. rewrite H2.
  unfold fence_match_here at 1. rewrite H1.
  reflexivity.
Qed.

(** [X11] With a carriage return before the line feed that ends the opening
    line, a fence with prose before it is not cut out: the pattern asks for
    a line feed right after the fence or its tag, so stripCodeFence returns
    the whole text, trimmed. *)
Theorem stripCodeFence_embedded_crlf (pre tag body post : jsstring) :
  no_backtick pre -> trim pre <> [] ->
  one_line tag -> no_backtick tag -> no_backtick body -> no_backtick post ->
  stripCodeFence (pre ++ (fence ++ (tag ++ CR :: body) ++ fence) ++ post)
  = trim (pre ++ (fence ++ (tag ++ CR :: body) ++ fence) ++ post).
Proof.
  intros Hnb Hne Hline Htag Hbody Hpost.
  destruct (trim_around_fence pre (tag ++ CR :: body) post Hnb Hne)
    as (c & p & Hc & Hp & Ht).
  unfold stripCodeFence. cbv zeta. rewrite Ht.
  rewrite (startsWith_fence_head c _ Hc : startsWith fence
             ((c :: p) ++ (fence ++ (tag ++ CR :: body) ++ fence) ++ trimEnd post)
           = false).
  cbn [andb].
  assert (Hcp : no_backtick (c :: p)) by (constructor; assumption).
  rewrite (fence_match_skip (c :: p) _ Hcp).
  assert (Hpost' : no_backtick (trimEnd post)).
  { unfold trimEnd. apply Forall_rev, Forall_dropWhile, Forall_rev. exact Hpost. }
  assert (Hmid : no_backtick (tag ++ CR :: body)).
  { apply Forall_app. split; [exact Htag|]. constructor; [discriminate|exact Hbody]. }
  set (q := (tag ++ CR :: body) ++ fence ++ trimEnd post).
  assert (Hshape : (fence ++ (tag ++ CR :: body) ++ fence) ++ trimEnd post
                   = fence ++ q).
  { unfold q. rewrite <- !app_assoc. reflexivity. }
  rewrite Hshape.
  assert (Hhd : hd 0%N q <> 96%N).
  { unfold q. destruct tag as [|t tag]; [discriminate|].
    inversion Htag; subst. assumption. }
  assert (Hfirst : fence_match_here (fence ++ q) = None).
  { unfold fence_match_here.
    change (startsWith fence (fence ++ q)) with true.
    change (skipn 3 (fence ++ q)) with q. cbv iota.
    assert (Hplain : after_tag q = None).
    { unfold q. destruct tag as [|t tag]; [reflexivity|].
      inversion Hline as [|? ? [Ht1 _] _]; subst.
      unfold after_tag. cbn [app]. rewrite Ht1. reflexivity. }
    rewrite Hplain.
    destruct (startsWith_ci (lit "json") q) eqn:Eci; [|reflexivity].
    replace (after_tag (skipn 4 q)) with (@None jsstring); [reflexivity|].
    symmetry. unfold q in *.
    destruct tag as [|t1 [|t2 [|t3 [|t4 tag]]]];
      try (cbn in Eci; rewrite ?andb_false_r in Eci; discriminate Eci).
    destruct tag as [|t5 tag]; [reflexivity|].
    destruct (proj1 (Forall_forall _ _) Hline t5) as [Ht5 _].
    { do 4 right. left. reflexivity. }
    change (after_tag (t5 :: ((tag ++ CR :: body) ++ fence ++ trimEnd post))
            = None).
    unfold after_tag. rewrite Ht5. reflexivity. }
  rewrite (fence_match_fence q Hhd Hfirst).
  unfold q. rewrite (fence_match_skip _ _ Hmid).
  assert (Hhd2 : hd 0%N (trimEnd post) <> 96%N).
  { destruct (trimEnd post); [discriminate|]. inversion Hpost'; subst. assumption. }
  assert (Hsecond : fence_match_here (fence ++ trimEnd post) = None).
  { unfold fence_match_here.
    change (startsWith fence (fence ++ trimEnd post)) with true.
    change (skipn 3 (fence ++ trimEnd post)) with (trimEnd post). cbv iota.
    rewrite (after_tag_no_backtick _ Hpost').
    rewrite (after_tag_no_backtick _ (no_backtick_skipn 4 _ Hpost')).
    destruct (startsWith_ci (lit "json") (trimEnd post)); reflexivity. }
  rewrite (fence_match_fence _ Hhd2 Hsecond).
  destruct (fence_match_no_backtick _ Hpost') as [-> _]. reflexivity.
Qed.

Lemma stripCodeFence_embedded_crlf_witness :
  stripCodeFence
    (lit "Plan:" ++ [CR; LF]
     ++ (fence ++ (lit "json" ++ CR :: (LF :: lit "{}" ++ [CR; LF])) ++ fence)
     ++ [CR; LF])
  = lit "Plan:" ++ [CR; LF] ++ fence ++ lit "json" ++ [CR; LF] ++ lit "{}"
    ++ [CR; LF] ++ fence.
Proof.
  etransitivity.
  - apply (stripCodeFence_embedded_crlf (lit "Plan:" ++ [CR; LF]) (lit "json")
             (LF :: lit "{}" ++ [CR; LF]) [CR; LF]).
    + repeat constructor; discriminate.
    + vm_compute. discriminate.
    + repeat constructor.
    + repeat constructor; discriminate.
    + repeat constructor; discriminate.
    + repeat constructor; discriminate.
  - vm_compute. reflexivity.
Defined.

(** ** The normaliser and the reply *)

(** [X12] isItinerary accepts exactly the objects with a truthy [meta]
    and an array [itinerary] (an empty one included); arrays, [null] and
    primitive values are rejected, and nothing else of the payload is
    looked at. *)
Theorem isItinerary_iff (x : json) :
  isItinerary x = true <->
  exists members meta items,
    x = JObject members
    /\ obj_get (lit "meta") members = Some meta /\ truthy meta = true
    /\ obj_get (lit "itinerary") members = Some (JArray items).
Proof.
  split.
  - intros H. destruct (isItinerary_shape x H) as (members & meta & items & -> & Hm & Hi).
    exists members, meta, items. cbn [get] in Hm, Hi.
    split; [reflexivity|]. split; [exact Hm|]. split; [|exact Hi].
    unfold isItinerary in H. cbn [truthy typeof_object negb orb get] in H.
    rewrite Hm in H. cbn [truthy_opt] in H.
    destruct (truthy meta); [reflexivity|discriminate H].
  - intros (members & meta & items & -> & Hm & Ht & Hi).
    unfold isItinerary. cbn [truthy typeof_object negb orb get].
    rewrite Hm, Hi. cbn [truthy_opt truthy isArray]. rewrite Ht. reflexivity.
Qed.

Lemma settle_loading (rt : Runtime) (f : inflight) (r : fetch_result)
      (uid uid2 : jsstring) (s : State) :
  loading (settle rt f r uid uid2 s) = false.
Proof. unfold settle. destruct (send_try _ _ _ _ _). reflexivity. Qed.

Lemma send_catch_fields (f : inflight) (e : thrown) (uid : jsstring) (s : State) :
  let s' := send_catch f e uid s in
  messages s' = messages s ++ [error_message uid e]
  /\ timers s' = timers s /\ pendingSpeakRef s' = pendingSpeakRef s
  /\ requests s' = requests s
  /\ spoken s' = spoken s ++ (if f_autoRead f && f_tts f && ttsSupported s
                              then [error_utterance e (listening s)] else []).
Proof.
  unfold send_catch, speak. cbv zeta.
  destruct (f_autoRead f && f_tts f); cbn [andb].
  - cbn [ttsSupported set_messages].
    destruct (ttsSupported s); cbn [negb].
    + destruct e; repeat split; reflexivity.
    + repeat split; try reflexivity. cbn. rewrite app_nil_r. reflexivity.
  - repeat split; try reflexivity. cbn. rewrite app_nil_r. reflexivity.
Qed.

(** [X13] A request that fails (the fetch rejects, or the status is not
    200..299) ends with exactly one new message, of the error role, with
    the text of what was thrown after [Error: ]; the loading flag is
    cleared and no timer is touched. The text is the rejection itself, the
    [error] string of the body when there is one, and
    [Request failed (status)] when the body has no [error]. With auto-read
    and the engine captured by the send, the error is spoken at once,
    whether or not the microphone is on. *)
Theorem settle_failure (rt : Runtime) (f : inflight) (r : fetch_result)
        (uid uid2 : jsstring) (s : State) :
  failed r ->
  exists e,
    messages (settle rt f r uid uid2 s) = messages s ++ [error_message uid e]
    /\ loading (settle rt f r uid uid2 s) = false
    /\ timers (settle rt f r uid uid2 s) = timers s
    /\ pendingSpeakRef (settle rt f r uid uid2 s) = pendingSpeakRef s
    /\ spoken (settle rt f r uid uid2 s)
       = spoken s ++ (if f_autoRead f && f_tts f && ttsSupported s
                      then [error_utterance e (listening s)] else [])
    /\ match r with
       | Rejected e0 => e = e0
       | Responded status body =>
           (nullish (get (lit "error") (data_of body)) = None ->
            e = ErrorObj (lit "Request failed (" ++ N_toString status ++ lit ")"))
           /\ (forall str, get (lit "error") (data_of body) = Some (JString str) ->
               e = ErrorObj str)
       end.
Proof.
  intros Hf.
  assert (Hkey : exists e,
             send_try rt f r uid s = (s, Some e)
             /\ (match r with
                 | Responded status _ => res_ok status
                 | Rejected _ => false
                 end) = false
             /\ match r with
                | Rejected e0 => e = e0
                | Responded status body =>
                    (nullish (get (lit "error") (data_of body)) = None ->
                     e = ErrorObj (lit "Request failed (" ++ N_toString status ++ lit ")"))
                    /\ (forall str, get (lit "error") (data_of body) = Some (JString str) ->
                        e = ErrorObj str)
                end).
  { destruct r as [e0|status body]; cbn [failed] in Hf.
    - exists e0. repeat split.
    - unfold send_try. rewrite Hf. cbn [negb]. fold (data_of body).
      unfold failure_message.
      destruct (nullish (get (lit "error") (data_of body))) as [v|] eqn:En.
      + destruct (ToString rt v) as [msg|e] eqn:Ev.
        * exists (ErrorObj msg). split; [reflexivity|]. split; [reflexivity|].
          split; [discriminate|].
          intros str Hs. rewrite Hs in En. cbn in En. injection En as <-.
          cbn in Ev. injection Ev as <-. reflexivity.
        * exists e. split; [reflexivity|]. split; [reflexivity|].
          split; [discriminate|].
          intros str Hs. rewrite Hs in En. cbn in En. injection En as <-.
          cbn in Ev. discriminate Ev.
      + eexists. split; [reflexivity|]. split; [reflexivity|].
        split; [reflexivity|].
        intros str Hs. rewrite Hs in En. discriminate En. }
  destruct Hkey as (e & Htry & Hrep & Hwhat).
  exists e.
  assert (Hs : settle rt f r uid uid2 s = set_loading false (send_catch f e uid s)).
  { unfold settle. rewrite Htry, Hrep. reflexivity. }
  rewrite Hs.
  destruct (send_catch_fields f e uid s) as (Hm & Ht & Hp & _ & Hsp).
  repeat split; try assumption; try reflexivity.
Qed.

Lemma settle_failure_witness :
  messages (settle demo_runtime (Build_inflight (lit "Rome") true true)
              (Responded 502 (Some (JObject [(lit "error", jstr "Bad gateway")])))
              (lit "u2") (lit "u3") (init true true))
  = [welcome; error_message (lit "u2") (ErrorObj (lit "Bad gateway"))].
Proof.
  destruct (settle_failure demo_runtime (Build_inflight (lit "Rome") true true)
              (Responded 502 (Some (JObject [(lit "error", jstr "Bad gateway")])))
              (lit "u2") (lit "u3") (init true true) eq_refl)
    as (e & Hm & _ & _ & _ & _ & _ & He).
  rewrite Hm, (He (lit "Bad gateway") eq_refl). reflexivity.
Defined.


(** *** The summary that is read aloud *)

Lemma bind_throws {A B} (c : outcome A) (k : A -> outcome B) :
  (forall a, exists e, k a = Throw e) -> exists e, bind c k = Throw e.
Proof.
  intros H. destruct c as [a|e]; cbn; [apply H|exists e; reflexivity].
Qed.

Lemma bind_throws_left {A B} (c : outcome A) (k : A -> outcome B) :
  (exists e, c = Throw e) -> exists e, bind c k = Throw e.
Proof. intros [e ->]. exists e. reflexivity. Qed.

Lemma mapM_throws {A B} (f : A -> outcome B) (l : list A) (x : A) :
  In x l -> (exists e, f x = Throw e) -> exists e, mapM f l = Throw e.
Proof.
  intros Hin [e He]. induction l as [|y l IH]; [destruct Hin|].
  cbn [mapM]. destruct Hin as [->|Hin].
  - rewrite He. exists e. reflexivity.
  - destruct (f y) as [b|e1]; cbn; [|exists e1; reflexivity].
    destruct (IH Hin) as [e2 ->]. exists e2. reflexivity.
Qed.

Lemma interpret_itinerary (rt : Runtime) (output payload : json) :
  fst (interpret rt output) = Some payload ->
  interpret rt output = (Some payload, []) /\ isItinerary payload = true.
Proof.
  unfold interpret, safeParseItinerary. intros H.
  destruct output as [| b | n | str | items | members];
    cbn [truthy typeof_object] in *; rewrite ?andb_false_r in *;
    cbn [andb fst] in *; try discriminate H.
  - cbv zeta in *.
    destruct (JSON_parse (stripCodeFence str)) as [obj|]; [|discriminate H].
    destruct (isItinerary obj) eqn:E; [|discriminate H].
    cbn in H. injection H as <-. split; [reflexivity|exact E].
  - destruct (isItinerary (JObject members)) eqn:E; [|discriminate H].
    injection H as <-. split; [reflexivity|exact E].
Qed.

Lemma nextMsg_itinerary (rt : Runtime) (uid : jsstring) (output payload : json) :
  fst (interpret rt output) = Some payload ->
  nextMsg rt uid output = itinerary_message uid payload.
Proof.
  intros H. destruct (interpret_itinerary rt output payload H) as [Hi _].
  unfold nextMsg. rewrite Hi. reflexivity.
Qed.

(** [X14] isItinerary does not look inside the days. When a reply carries
    an itinerary one of whose days is [null], the reply is shown as an
    itinerary; with auto-read and the engine captured by the send, the
    summary then fails on that day and an error message follows the reply;
    without them the reply stands alone. *)
Theorem reply_with_null_day (rt : Runtime) (f : inflight) (status : N)
        (body : option json) (uid uid2 : jsstring) (s : State)
        (payload : json) (days : list json) :
  res_ok status = true ->
  fst (interpret rt (select_output (data_of body))) = Some payload ->
  get (lit "itinerary") payload = Some (JArray days) ->
  In JNull days ->
  (f_autoRead f && f_tts f = true ->
   exists e,
     messages (settle rt f (Responded status body) uid uid2 s)
     = messages s ++ [itinerary_message uid payload; error_message uid2 e])
  /\ (f_autoRead f && f_tts f = false ->
      messages (settle rt f (Responded status body) uid uid2 s)
      = messages s ++ [itinerary_message uid payload]).
Proof.
  intros Hok Hit Hdays Hnull.
  destruct (settle_ok_messages rt f status body uid uid2 s Hok) as [_ Hm].
  fold (data_of body) in Hm.
  rewrite (nextMsg_itinerary rt uid _ payload Hit) in Hm.
  split; intros Ha; rewrite Ha in Hm; [|exact Hm].
  assert (Hthrow : exists e, toSpeakOf rt (itinerary_message uid payload) = Throw e).
  { unfold toSpeakOf. apply bind_throws_left.
    unfold summarizeItinerary. cbn [msg_itinerary itinerary_message]. cbv zeta.
    rewrite Hdays.
    do 8 (apply bind_throws; intros ?).
    cbn [iterate bind].
    apply bind_throws_left.
    apply (mapM_throws (day_lines rt) days JNull Hnull).
    eexists. reflexivity. }
  destruct Hthrow as [e He]. rewrite He in Hm. exists e. exact Hm.
Qed.


Lemma reply_with_null_day_witness :
  exists e,
    messages (settle demo_runtime (Build_inflight (lit "Rome") true true)
                (Responded 200
                   (Some (JObject [(lit "meta", JObject [(lit "destination", jstr "Rome")]);
                                   (lit "itinerary", JArray [JNull])])))
                (lit "u2") (lit "u3") (init true true))
    = [welcome;
       itinerary_message (lit "u2")
         (JObject [(lit "meta", JObject [(lit "destination", jstr "Rome")]);
                   (lit "itinerary", JArray [JNull])]);
       error_message (lit "u3") e].
Proof.
  destruct (reply_with_null_day demo_runtime (Build_inflight (lit "Rome") true true) 200
              (Some (JObject [(lit "meta", JObject [(lit "destination", jstr "Rome")]);
                              (lit "itinerary", JArray [JNull])]))
              (lit "u2") (lit "u3") (init true true)
              (JObject [(lit "meta", JObject [(lit "destination", jstr "Rome")]);
                        (lit "itinerary", JArray [JNull])])
              [JNull] eq_refl eq_refl eq_refl (or_introl eq_refl)) as [H _].
  destruct (H eq_refl) as [e He]. exists e. rewrite He. reflexivity.
Defined.

Lemma ToString_primitive (rt : Runtime) (v : json) :
  primitive (Some v) -> exists t, ToString rt v = Ret t.
Proof.
  destruct v as [| b | n | str | items | members]; cbn; intros H;
    try contradiction; try (eexists; reflexivity).
  destruct b; eexists; reflexivity.
Qed.

Lemma template_primitive (rt : Runtime) (x : option json) :
  primitive x -> exists t, template rt x = Ret t.
Proof.
  destruct x as [v|]; [apply ToString_primitive|]. intros _. eexists. reflexivity.
Qed.

Lemma fmtDate_primitive (rt : Runtime) (x : option json) :
  primitive x -> primitive (Some (fmtDate rt x)).
Proof.
  intros H. unfold fmtDate. destruct (negb (truthy_opt x)); [exact I|].
  destruct x as [v|]; [|exact I].
  destruct (ToString_primitive rt v H) as [t ->]. exact I.
Qed.

Lemma getp_object (rt : Runtime) (k : jsstring) (m : list (jsstring * json)) :
  getp rt k (Some (JObject m)) = Ret (get k (JObject m)).
Proof. reflexivity. Qed.

Lemma mapM_ret {A B} (f : A -> outcome B) (l : list A) :
  Forall (fun x => exists y, f x = Ret y) l -> exists ys, mapM f l = Ret ys.
Proof.
  induction 1 as [|x l [y Hy] _ [ys IH]]; [eexists; reflexivity|].
  cbn [mapM]. rewrite Hy, IH. eexists. reflexivity.
Qed.

Lemma activity_line_ok (rt : Runtime) (a : json) :
  activity_ok a -> exists t, activity_line rt a = Ret t.
Proof.
  intros ([m ->] & Htime & Htitle). unfold activity_line.
  rewrite !getp_object. cbn [bind].
  destruct (template_primitive rt _ Htitle) as [x Hx].
  destruct (truthy_opt (get (lit "time") (JObject m))).
  - destruct (template_primitive rt _ Htime) as [y ->]. cbn [bind].
    rewrite Hx. eexists. reflexivity.
  - cbn [bind]. rewrite Hx. eexists. reflexivity.
Qed.

Lemma day_lines_ok (rt : Runtime) (d : json) :
  day_ok d -> exists ls, day_lines rt d = Ret ls.
Proof.
  intros ([m ->] & Hday & Hdate & Hacts). unfold day_lines.
  rewrite !getp_object. cbn [bind].
  destruct (template_primitive rt _ Hday) as [n ->]. cbn [bind].
  destruct (template_primitive rt _ (fmtDate_primitive rt _ Hdate)) as [x ->].
  cbn [bind].
  assert (Hit : exists items,
             iterate rt (if truthy_opt (get (lit "activities") (JObject m))
                         then get (lit "activities") (JObject m)
                         else Some (JArray []))
             = Ret items /\ Forall activity_ok items).
  { destruct (get (lit "activities") (JObject m)) as [v|].
    - destruct v as [| b | k | str | acts | mm]; cbn [truthy_opt truthy] in *;
        try discriminate Hacts;
        try (rewrite Hacts); try (exists []; split; [reflexivity|constructor]).
      exists acts. split; [reflexivity|exact Hacts].
    - exists []. split; [reflexivity|constructor]. }
  destruct Hit as (items & -> & Hall). cbn [bind].
  destruct (mapM_ret (activity_line rt) items) as [ls ->].
  { apply Forall_forall. intros a Ha. apply activity_line_ok.
    exact (proj1 (Forall_forall _ _) Hall a Ha). }
  eexists. reflexivity.
Qed.

Lemma join_head_nonempty (sep h : jsstring) (ls : list jsstring) :
  h <> [] -> join sep (h :: ls) <> [].
Proof.
  intros Hh. destruct ls as [|l ls]; cbn [join]; [exact Hh|].
  destruct h; [contradiction|discriminate].
Qed.

(** The summary of a payload of the right shape is a text, not an
    exception, and it is not empty. *)
Lemma summarizeItinerary_ok (rt : Runtime) (p : json) :
  payload_ok p -> exists text, summarizeItinerary rt (Some p) = Ret text /\ text <> [].
Proof.
  intros (Hit & Hmeta & Hdays).
  destruct (isItinerary_shape p Hit) as (members & meta & days & -> & Hm & Hi).
  assert (Htr : truthy meta = true).
  { unfold isItinerary in Hit. rewrite Hm in Hit.
    cbn [truthy typeof_object negb orb truthy_opt] in Hit.
    destruct (truthy meta); [reflexivity|discriminate Hit]. }
  destruct (Hmeta meta Hm) as (H1 & H2 & H3 & H4).
  assert (Hget : forall k, getp rt k (Some meta) = Ret (get k meta)).
  { intros k. destruct meta; try reflexivity. discriminate Htr. }
  unfold summarizeItinerary. cbv zeta. rewrite Hm, Hi, !Hget. cbn [bind].
  destruct (template_primitive rt _ H1) as [a ->]. cbn [bind].
  destruct (template_primitive rt _ (fmtDate_primitive rt _ H2)) as [b ->]. cbn [bind].
  destruct (template_primitive rt _ (fmtDate_primitive rt _ H3)) as [c ->]. cbn [bind].
  destruct (template_primitive rt _ H4) as [d ->]. cbn [bind iterate].
  destruct (mapM_ret (day_lines rt) days) as [ls ->].
  { apply Forall_forall. intros x Hx. apply day_lines_ok.
    exact (proj1 (Forall_forall _ _) (Hdays days Hi) x Hx). }
  cbn [bind]. eexists. split; [reflexivity|].
  apply join_head_nonempty. destruct a; discriminate.
Qed.


Lemma toSpeakOf_ok (rt : Runtime) (uid : jsstring) (p : json) :
  payload_ok p ->
  exists toSpeak,
    toSpeakOf rt (itinerary_message uid p) = Ret toSpeak /\ is_empty toSpeak = false.
Proof.
  intros Hp. destruct (summarizeItinerary_ok rt p Hp) as (sum & Hs & Hne).
  unfold toSpeakOf. cbn [msg_itinerary msg_content itinerary_message].
  rewrite Hs. cbn [bind]. eexists. split; [reflexivity|].
  cbn [filter]. destruct sum as [|c sum]; [contradiction|].
  destruct (stripMarkdown rt caption) as [|x t]; reflexivity.
Qed.

(** [X15] A reply that carries an itinerary of the right shape (days and
    activities are objects, the fields the summary prints are primitive)
    is scheduled for reading when the send captured auto-read and the
    engine: the summary does not fail, exactly one message is appended, and
    one timer for the reading is set in place of the pending one, with a
    delay of 6000 ms if a recognition session has ended since the last
    scheduled reading and of 0 ms otherwise. Nothing is spoken yet. *)
Theorem conforming_itinerary_is_scheduled (rt : Runtime) (f : inflight) (status : N)
        (body : option json) (uid uid2 : jsstring) (s : State) (payload : json) :
  res_ok status = true ->
  fst (interpret rt (select_output (data_of body))) = Some payload ->
  payload_ok payload ->
  f_autoRead f = true -> f_tts f = true ->
  exists toSpeak,
    toSpeakOf rt (itinerary_message uid payload) = Ret toSpeak
    /\ toSpeak <> []
    /\ messages (settle rt f (Responded status body) uid uid2 s)
       = messages s ++ [itinerary_message uid payload]
    /\ timers (settle rt f (Responded status body) uid uid2 s)
       = timers_without_pending s
         ++ [{| t_id := nextTimerId s;
                t_delay := if readDelayAfterMicRef s then 6000%N else 0%N;
                t_cb := CbScheduleSpeak toSpeak |}]
    /\ pendingSpeakRef (settle rt f (Responded status body) uid uid2 s)
       = Some (nextTimerId s)
    /\ readDelayAfterMicRef (settle rt f (Responded status body) uid uid2 s) = false
    /\ spoken (settle rt f (Responded status body) uid uid2 s) = spoken s
    /\ utterance (settle rt f (Responded status body) uid uid2 s) = utterance s.
Proof.
  intros Hok Hit Hp Ha Ht.
  destruct (toSpeakOf_ok rt uid payload Hp) as (toSpeak & Hs & Hne).
  exists toSpeak. split; [exact Hs|]. split; [destruct toSpeak; [discriminate|discriminate]|].
  unfold settle, send_try. rewrite Hok. cbn [negb]. fold (data_of body).
  rewrite (nextMsg_itinerary rt uid _ payload Hit), Ha, Ht. cbn [andb].
  rewrite Hs, Hne. cbv zeta.
  unfold clear_pending, timers_without_pending.
  destruct s as [ms m ld ar tts stt li lr rd ps tt tm nid rq ra ft ut sp].
  cbn. destruct ps as [tid|]; cbn; repeat split; reflexivity.
Qed.

Lemma conforming_itinerary_is_scheduled_witness :
  exists toSpeak,
    timers (settle demo_runtime (Build_inflight (lit "Rome") true true)
              rome_response (lit "u2") (lit "u3") (init true true))
    = [{| t_id := 1; t_delay := 0%N; t_cb := CbScheduleSpeak toSpeak |}].
Proof.
  destruct (conforming_itinerary_is_scheduled demo_runtime
              (Build_inflight (lit "Rome") true true) 200
              (Some (JObject [(lit "output", JString rome_output)]))
              (lit "u2") (lit "u3") (init true true) rome_payload)
    as (toSpeak & _ & _ & _ & Htm & _).
  - reflexivity.
  - vm_compute. reflexivity.
  - split; [vm_compute; reflexivity|]. split.
    + intros meta Hm. vm_compute in Hm. injection Hm as <-.
      repeat split; exact I.
    + intros days Hd. vm_compute in Hd. injection Hd as <-.
      repeat constructor; try (eexists; reflexivity).
  - reflexivity.
  - reflexivity.
  - exists toSpeak. exact Htm.
Defined.

(** ** The page between events *)

Ltac split_all :=
  repeat match goal with
         | |- context [if ?b then _ else _] => destruct b
         | |- context [match typingTimer ?x with _ => _ end] => destruct (typingTimer x)
         | |- context [match pendingSpeakRef ?x with _ => _ end] => destruct (pendingSpeakRef x)
         end.

Lemma core_speak src txt s : core (speak src txt s) = core s.
Proof. unfold speak. split_all; reflexivity. Qed.

Lemma core_cancel s : core (cancel s) = core s.
Proof. unfold cancel. split_all; reflexivity. Qed.

Lemma core_clear_pending s : core (clear_pending s) = core s.
Proof. unfold clear_pending. split_all; reflexivity. Qed.

Lemma core_effect_typing old s : core (effect_typing old s) = core s.
Proof. unfold effect_typing. split_all; reflexivity. Qed.

Lemma core_render visible old s : core (render visible old s) = core s.
Proof.
  unfold render, effect_readVisible, effect_autoReadOff, readVisible.
  repeat match goal with
         | |- context [if ?b then _ else _] => destruct b
         end;
  rewrite ?core_speak, ?core_cancel, ?core_clear_pending, ?core_effect_typing;
  reflexivity.
Qed.


Lemma settle_core rt f r uid uid2 s :
  exists new,
    reply_like new
    /\ core (settle rt f r uid uid2 s)
       = (messages s ++ new, false, requests s, (ttsSupported s, sttSupported s),
          (listening s, recActive s)).
Proof.
  unfold settle, send_try.
  destruct r as [e|status body].
  - exists [error_message uid e]. split.
    + split; [left; reflexivity|]. repeat constructor. discriminate.
    + unfold send_catch, speak. split_all; reflexivity.
  - destruct (negb (res_ok status)) eqn:Eok.
    + assert (Hr : res_ok status = false) by (destruct (res_ok status); [discriminate|reflexivity]).
      rewrite Hr.
      destruct (failure_message rt status _) as [msg|e].
      * exists [error_message uid (ErrorObj msg)]. split.
        -- split; [left; reflexivity|]. repeat constructor. discriminate.
        -- unfold send_catch, speak. split_all; reflexivity.
      * exists [error_message uid e]. split.
        -- split; [left; reflexivity|]. repeat constructor. discriminate.
        -- unfold send_catch, speak. split_all; reflexivity.
    + assert (Hr : res_ok status = true) by (destruct (res_ok status); [reflexivity|discriminate]).
      rewrite Hr.
      set (m := nextMsg rt uid _).
      assert (Hrole : msg_role m <> user).
      { subst m. unfold nextMsg. destruct (interpret rt _). discriminate. }
      destruct (f_autoRead f && f_tts f) eqn:Ea.
      * destruct (toSpeakOf rt m) as [toSpeak|e].
        -- exists [m]. split.
           ++ split; [left; reflexivity|]. repeat constructor. exact Hrole.
           ++ destruct (is_empty toSpeak); [reflexivity|].
              unfold clear_pending. cbn [pendingSpeakRef set_messages].
              destruct (pendingSpeakRef s); reflexivity.
        -- exists [m; error_message uid2 e]. split.
           ++ split; [right; reflexivity|]. repeat constructor; [exact Hrole|discriminate].
           ++ unfold send_catch, speak. rewrite Ea.
              cbn [ttsSupported set_messages].
              split_all; unfold core; cbn; rewrite <- app_assoc; reflexivity.
      * exists [m]. split.
        -- split; [left; reflexivity|]. repeat constructor. exact Hrole.
        -- reflexivity.
Qed.


Lemma flow_core tts stt s s' : core s' = core s -> flow tts stt s -> flow tts stt s'.
Proof.
  unfold core. intros E [A B C D F G H].
  injection E as E1 E2 E3 E4 E5 E6 E7.
  constructor; rewrite ?E1, ?E2, ?E3, ?E4, ?E5, ?E6, ?E7; assumption.
Qed.

Lemma flow_init tts stt : flow tts stt (init tts stt).
Proof.
  constructor; cbn; try reflexivity; try discriminate.
  - exists []. reflexivity.
  - split; discriminate.
Qed.

Lemma last_snoc {A} (l : list A) (x d : A) : last (l ++ [x]) d = x.
Proof. apply last_last. Qed.

Lemma last_reply (l new : list ChatMessage) (d : ChatMessage) :
  reply_like new -> msg_role (last (l ++ new) d) <> user.
Proof.
  intros [[Hl|Hl] Hr].
  - destruct new as [|a [|b new]]; try discriminate Hl.
    rewrite last_last. inversion Hr; assumption.
  - destruct new as [|a [|b [|c new]]]; try discriminate Hl.
    change [a; b] with ([a] ++ [b]). rewrite app_assoc, last_last.
    inversion Hr as [|? ? _ Hr']; subst. inversion Hr'; assumption.
Qed.

Lemma flow_send tts stt uid s : flow tts stt s -> flow tts stt (send None uid s).
Proof.
  intros H. unfold send. cbv zeta.
  destruct (is_empty (trim (message s)) || loading s) eqn:E; [exact H|].
  apply orb_false_iff in E. destruct E as [_ El].
  destruct H as [A B C D F G K]. rewrite El in C.
  constructor; cbn; try assumption.
  - rewrite length_app, C. reflexivity.
  - destruct D as [rest ->]. eexists. reflexivity.
  - rewrite last_last. split; reflexivity.
Qed.

Lemma flow_settle rt tts stt k f r uid uid2 s :
  flow tts stt s -> nth_error (requests s) k = Some f ->
  flow tts stt (settle rt f r uid uid2 (set_requests (remove_nth k (requests s)) s))
  /\ k = 0%nat /\ requests s = [f] /\ loading s = true.
Proof.
  intros [A B C D F G K] Hn.
  assert (Hk : k = 0%nat /\ requests s = [f] /\ loading s = true).
  { destruct (loading s).
    - destruct (requests s) as [|x [|y l]]; try discriminate C.
      destruct k as [|k]; [|destruct k; discriminate Hn].
      injection Hn as ->. auto.
    - destruct (requests s); [destruct k; discriminate Hn|discriminate C]. }
  split; [|exact Hk]. destruct Hk as (-> & Hr & Hl).
  set (s0 := set_requests (remove_nth 0 (requests s)) s).
  destruct (settle_core rt f r uid uid2 s0) as (new & Hnew & Hc).
  unfold core in Hc. injection Hc as E1 E2 E3 E4 E5 E6 E7.
  change (messages s0) with (messages s) in E1.
  change (requests s0) with (remove_nth 0 (requests s)) in E3.
  change (ttsSupported s0) with (ttsSupported s) in E4.
  change (sttSupported s0) with (sttSupported s) in E5.
  change (listening s0) with (listening s) in E6.
  change (recActive s0) with (recActive s) in E7.
  rewrite Hr in E3. cbn [remove_nth] in E3.
  constructor; rewrite ?E1, ?E2, ?E3, ?E4, ?E5, ?E6, ?E7; try assumption.
  - reflexivity.
  - destruct D as [rest ->]. eexists. reflexivity.
  - split; [|discriminate]. intros Hu. exfalso. exact (last_reply _ _ _ Hnew Hu).
Qed.

Lemma flow_toggleMic tts stt s : flow tts stt s -> flow tts stt (toggleMic s).
Proof.
  intros H. unfold toggleMic. cbv zeta.
  destruct (negb (sttSupported s)) eqn:Es; [exact H|].
  destruct (listening s) eqn:El; cbn [negb].
  - apply (flow_core tts stt s); [|exact H]. apply core_cancel.
  - set (s2 := cancel (clear_pending s)).
    assert (Hc : core s2 = core s).
    { subst s2. rewrite core_cancel. apply core_clear_pending. }
    pose proof (flow_core tts stt s s2 Hc H) as [A B C D F G K].
    destruct (recActive (set_message [] s2)) eqn:Er.
    + constructor; assumption.
    + constructor; cbn; try assumption; try reflexivity.
      intros Hs. rewrite (fl_stt _ _ _ H), Hs in Es. discriminate Es.
Qed.

Lemma flow_step rt tts stt e s s' :
  flow tts stt s -> step rt e s = Some s' -> flow tts stt s'.
Proof.
  intros H Hs.
  destruct e as [text|uid|uid|k r uid uid2|tid| | |results| | |visible|visible| ];
    cbn [step] in Hs.
  - destruct (loading s); [discriminate|]. injection Hs as <-.
    apply (flow_core tts stt s); [|exact H]. rewrite core_render. reflexivity.
  - destruct (loading s || _); [discriminate|]. injection Hs as <-.
    apply (flow_core tts stt (send None uid s)); [apply core_render|].
    apply flow_send. exact H.
  - destruct (loading s); [discriminate|]. injection Hs as <-.
    apply (flow_core tts stt (send None uid s)); [apply core_render|].
    apply flow_send. exact H.
  - destruct (nth_error (requests s) k) as [f|] eqn:En; [|discriminate].
    injection Hs as <-.
    eapply flow_core; [apply core_render|].
    exact (proj1 (flow_settle rt tts stt k f r uid uid2 s H En)).
  - destruct (find _ (timers s)) as [t|]; [|discriminate]. injection Hs as <-.
    apply (flow_core tts stt s); [|exact H]. rewrite core_render.
    unfold run_timer, scheduleSpeak. destruct (t_cb t).
    + destruct (listeningRef (clearTimeout tid s)); [reflexivity|].
      unfold speak. split_all; reflexivity.
    + rewrite core_speak. reflexivity.
  - injection Hs as <-.
    apply (flow_core tts stt (toggleMic s)); [apply core_render|].
    apply flow_toggleMic. exact H.
  - destruct (recActive s); [|discriminate]. injection Hs as <-.
    apply (flow_core tts stt s); [|exact H]. rewrite core_render. reflexivity.
  - destruct (recActive s); [|discriminate]. injection Hs as <-.
    apply (flow_core tts stt s); [|exact H]. rewrite core_render. reflexivity.
  - destruct (recActive s) eqn:Er; [|discriminate]. injection Hs as <-.
    apply (flow_core tts stt (rec_onerror s)); [apply core_render|].
    destruct H as [A B C D F G K].
    constructor; cbn; try assumption. discriminate.
  - destruct (recActive s) eqn:Er; [|discriminate]. injection Hs as <-.
    apply (flow_core tts stt (rec_onend (set_recActive false s))); [apply core_render|].
    destruct H as [A B C D F G K]. unfold rec_onend. cbv zeta.
    set (s1 := set_listening false (set_recActive false s)).
    assert (Hc : core (clear_pending (cancel s1)) = core s1).
    { rewrite core_clear_pending. apply core_cancel. }
    unfold core in Hc. injection Hc as E1 E2 E3 E4 E5 E6 E7.
    constructor; cbn; rewrite ?E1, ?E2, ?E3, ?E4, ?E5, ?E6, ?E7; cbn;
      try assumption; try reflexivity. discriminate.
  - injection Hs as <-.
    apply (flow_core tts stt s); [|exact H]. rewrite core_render.
    unfold onAutoReadChange. cbv zeta. split_all; [rewrite core_cancel|]; reflexivity.
  - injection Hs as <-.
    apply (flow_core tts stt s); [|exact H].
    destruct (autoRead s); [|reflexivity].
    unfold readVisible. split_all; [reflexivity|apply core_speak].
  - destruct (utterance s); [|discriminate]. injection Hs as <-.
    apply (flow_core tts stt s); [|exact H]. reflexivity.
Qed.

Lemma flow_run rt tts stt es : forall s s',
  flow tts stt s -> run rt s es = Some s' -> flow tts stt s'.
Proof.
  induction es as [|e es IH]; intros s s' H Hr; cbn [run] in Hr.
  - injection Hr as <-. exact H.
  - destruct (step rt e s) as [s1|] eqn:Es; [|discriminate].
    exact (IH _ _ (flow_step rt tts stt e s s1 H Es) Hr).
Qed.

Lemma reachable_flow rt tts stt s : reachable rt tts stt s -> flow tts stt s.
Proof. intros [es Hr]. exact (flow_run rt tts stt es _ _ (flow_init tts stt) Hr). Qed.

(** *** Without the synthesis engine *)
Lemma speak_mute src txt s : ttsSupported s = false -> speak src txt s = s.
Proof. intros H. unfold speak. rewrite H. reflexivity. Qed.

Lemma cancel_mute s : ttsSupported s = false -> cancel s = s.
Proof. intros H. unfold cancel. rewrite H. reflexivity. Qed.

Lemma clear_pending_none s : pendingSpeakRef s = None -> clear_pending s = s.
Proof. intros H. unfold clear_pending. rewrite H. reflexivity. Qed.

Lemma hush_effect_typing old s : hush (effect_typing old s) = hush s.
Proof. unfold effect_typing. split_all; reflexivity. Qed.

Lemma tts_effect_typing old s : ttsSupported (effect_typing old s) = ttsSupported s.
Proof. unfold effect_typing. split_all; reflexivity. Qed.

Lemma hush_render visible old s :
  ttsSupported s = false -> pendingSpeakRef s = None ->
  hush (render visible old s) = hush s.
Proof.
  intros T P. unfold render.
  set (s2 := effect_typing old (effect_listeningRef s)).
  assert (H2 : hush s2 = hush s) by (subst s2; rewrite hush_effect_typing; reflexivity).
  assert (T2 : ttsSupported s2 = false) by (subst s2; rewrite tts_effect_typing; exact T).
  assert (P2 : pendingSpeakRef s2 = None).
  { unfold hush in H2. injection H2 as _ ->. exact P. }
  assert (E3 : effect_autoReadOff old s2 = s2).
  { unfold effect_autoReadOff. rewrite (clear_pending_none _ P2), (cancel_mute _ T2).
    destruct (_ && _); reflexivity. }
  unfold effect_readVisible. rewrite E3. unfold readVisible.
  rewrite (speak_mute _ _ _ T2). split_all; exact H2.
Qed.

Lemma hush_settle rt f r uid uid2 s :
  f_tts f = false -> hush (settle rt f r uid uid2 s) = hush s.
Proof.
  intros Hf. unfold settle, send_try, send_catch. rewrite Hf, andb_false_r.
  destruct r as [e|status body]; [reflexivity|].
  destruct (negb (res_ok status)).
  - destruct (failure_message rt status _); reflexivity.
  - reflexivity.
Qed.

Lemma mute_step rt stt e s s' :
  Inv s -> flow false stt s -> hush s = ([], None) ->
  step rt e s = Some s' -> hush s' = ([], None).
Proof.
  intros HI HF HH Hs.
  pose proof (fl_tts _ _ _ HF) as T.
  assert (P : pendingSpeakRef s = None) by (unfold hush in HH; injection HH as _ ->; reflexivity).
  destruct e as [text|uid|uid|k r uid uid2|tid| | |results| | |visible|visible| ];
    cbn [step] in Hs.
  - destruct (loading s); [discriminate|]. injection Hs as <-.
    rewrite hush_render; assumption.
  - destruct (loading s || _); [discriminate|]. injection Hs as <-.
    unfold send. cbv zeta. destruct (_ || _); rewrite hush_render; assumption.
  - destruct (loading s); [discriminate|]. injection Hs as <-.
    unfold send. cbv zeta. destruct (_ || _); rewrite hush_render; assumption.
  - destruct (nth_error (requests s) k) as [f|] eqn:En; [|discriminate].
    injection Hs as <-.
    assert (Hf : f_tts f = false).
    { destruct HI as [_ Q].
      pose proof (proj1 (Forall_forall _ _) (q_requests _ _ Q) f (nth_error_In _ _ En)) as Hq.
      cbv beta in Hq. destruct (f_tts f) eqn:Ef; [|reflexivity].
      rewrite (Hq eq_refl) in T. discriminate T. }
    set (s0 := set_requests (remove_nth k (requests s)) s).
    pose proof (hush_settle rt f r uid uid2 s0 Hf) as Hh.
    change (hush s0) with (hush s) in Hh.
    destruct (settle_core rt f r uid uid2 s0) as (new & _ & Hc).
    unfold core in Hc. injection Hc as _ _ _ E4 _ _ _.
    change (ttsSupported s0) with (ttsSupported s) in E4.
    rewrite hush_render.
    + rewrite Hh. exact HH.
    + rewrite E4. exact T.
    + unfold hush in Hh. injection Hh as _ ->. exact P.
  - destruct (find _ (timers s)) as [t|] eqn:Ef; [|discriminate]. injection Hs as <-.
    apply find_some in Ef. destruct Ef as [Hin _].
    destruct HI as [_ Q].
    pose proof (proj1 (Forall_forall _ _) (q_timers _ _ Q) t Hin) as Hok.
    unfold timer_ok in Hok. unfold run_timer.
    destruct (t_cb t) as [txt|txt].
    + destruct Hok as (_ & Ht & _). rewrite T in Ht. discriminate Ht.
    + rewrite speak_mute by exact T. rewrite hush_render; assumption.
  - injection Hs as <-.
    assert (E : hush (toggleMic s) = hush s /\ ttsSupported (toggleMic s) = false).
    { unfold toggleMic. cbv zeta.
      destruct (negb (sttSupported s)); [split; [reflexivity|exact T]|].
      destruct (listening s); cbn [negb];
        rewrite ?(clear_pending_none _ P), (cancel_mute _ T);
        split_all; split; assumption || reflexivity. }
    destruct E as [E1 E2]. rewrite hush_render; [rewrite E1; exact HH|exact E2|].
    unfold hush in E1. injection E1 as _ ->. exact P.
  - destruct (recActive s); [|discriminate]. injection Hs as <-.
    rewrite hush_render; assumption.
  - destruct (recActive s); [|discriminate]. injection Hs as <-.
    rewrite hush_render; assumption.
  - destruct (recActive s); [|discriminate]. injection Hs as <-.
    rewrite hush_render; assumption.
  - destruct (recActive s); [|discriminate]. injection Hs as <-.
    unfold rec_onend. cbv zeta.
    set (s1 := set_listening false (set_recActive false s)).
    rewrite (cancel_mute s1 T), (clear_pending_none s1 P).
    rewrite hush_render; assumption.
  - injection Hs as <-. unfold onAutoReadChange. cbv zeta.
    rewrite (cancel_mute (set_autoRead (negb (autoRead s)) s) T).
    destruct (negb (negb (autoRead s))); rewrite hush_render; assumption.
  - injection Hs as <-. unfold readVisible. rewrite (speak_mute _ _ _ T).
    split_all; exact HH.
  - destruct (utterance s); [|discriminate]. injection Hs as <-. exact HH.
Qed.

Lemma messages_render visible old s : messages (render visible old s) = messages s.
Proof.
  pose proof (core_render visible old s) as H. unfold core in H.
  injection H as H _ _ _ _ _ _. exact H.
Qed.


(** [X16] Messages are only ever appended. An event leaves the list of
    messages as it is, except that the send button appends the message of
    the user with the trimmed text, Enter does the same unless the text is
    blank, and a settled request appends one or two messages, none of
    them of the user. *)
Theorem messages_append_only (rt : Runtime) (e : event) (s s' : State) :
  step rt e s = Some s' ->
  exists new,
    messages s' = messages s ++ new
    /\ match e with
       | EClickSend uid => new = [user_message uid (trim (message s))]
       | EEnter uid =>
           new = if is_empty (trim (message s)) then []
                 else [user_message uid (trim (message s))]
       | ESettle _ _ _ _ => reply_like new
       | _ => new = []
       end.
Proof.
  intros Hs.
  destruct e as [text|uid|uid|k r uid uid2|tid| | |results| | |visible|visible| ];
    cbn [step] in Hs.
  - destruct (loading s); [discriminate|]. injection Hs as <-.
    exists []. rewrite messages_render, app_nil_r. split; reflexivity.
  - destruct (loading s) eqn:El; [discriminate|].
    destruct (is_empty (trim (message s))) eqn:Ee; [discriminate|].
    injection Hs as <-. eexists. rewrite messages_render. unfold send. cbv zeta.
    rewrite Ee, El. split; reflexivity.
  - destruct (loading s) eqn:El; [discriminate|]. injection Hs as <-.
    exists (if is_empty (trim (message s)) then []
            else [user_message uid (trim (message s))]).
    rewrite messages_render. unfold send. cbv zeta. rewrite El.
    destruct (is_empty (trim (message s))); cbn [orb]; split; try reflexivity.
    symmetry. apply app_nil_r.
  - destruct (nth_error (requests s) k) as [f|]; [|discriminate]. injection Hs as <-.
    destruct (settle_core rt f r uid uid2 (set_requests (remove_nth k (requests s)) s))
      as (new & Hnew & Hc).
    exists new. rewrite messages_render. unfold core in Hc.
    injection Hc as E1 _ _ _ _ _ _. split; [exact E1|exact Hnew].
  - destruct (find _ (timers s)) as [t|]; [|discriminate]. injection Hs as <-.
    exists []. rewrite messages_render, app_nil_r. split; [|reflexivity].
    unfold run_timer, scheduleSpeak. destruct (t_cb t).
    + destruct (listeningRef _); [reflexivity|].
      cbn [messages set_pendingSpeakRef]. rewrite messages_speak. reflexivity.
    + rewrite messages_speak. reflexivity.
  - injection Hs as <-. exists []. rewrite messages_render, app_nil_r.
    split; [|reflexivity].
    pose proof (core_cancel (clear_pending s)) as H1. rewrite core_clear_pending in H1.
    pose proof (core_cancel s) as H2.
    unfold core in H1, H2. injection H1 as H1 _ _ _ _ _ _. injection H2 as H2 _ _ _ _ _ _.
    unfold toggleMic. cbv zeta.
    destruct (negb (sttSupported s)); [reflexivity|].
    destruct (listening s); cbn [negb]; [exact H2|].
    split_all; cbn; exact H1.
  - destruct (recActive s); [|discriminate]. injection Hs as <-.
    exists []. rewrite messages_render, app_nil_r. split; reflexivity.
  - destruct (recActive s); [|discriminate]. injection Hs as <-.
    exists []. rewrite messages_render, app_nil_r. split; reflexivity.
  - destruct (recActive s); [|discriminate]. injection Hs as <-.
    exists []. rewrite messages_render, app_nil_r. split; reflexivity.
  - destruct (recActive s); [|discriminate]. injection Hs as <-.
    exists []. rewrite messages_render, app_nil_r. split; [|reflexivity].
    unfold rec_onend. cbv zeta. cbn [messages set_finalTranscript set_readDelayAfterMicRef].
    rewrite messages_clear_pending.
    pose proof (core_cancel (set_listening false (set_recActive false s))) as H1.
    unfold core in H1. injection H1 as H1 _ _ _ _ _ _. exact H1.
  - injection Hs as <-. exists []. rewrite messages_render, app_nil_r.
    split; [|reflexivity]. unfold onAutoReadChange. cbv zeta.
    pose proof (core_cancel (set_autoRead (negb (autoRead s)) s)) as H1.
    unfold core in H1. injection H1 as H1 _ _ _ _ _ _.
    destruct (negb (negb (autoRead s))); [exact H1|reflexivity].
  - injection Hs as <-. exists []. rewrite app_nil_r. split; [|reflexivity].
    destruct (autoRead s); [|reflexivity]. unfold readVisible.
    destruct (is_empty _); [reflexivity|apply messages_speak].
  - destruct (utterance s); [|discriminate]. injection Hs as <-.
    exists []. rewrite app_nil_r. split; reflexivity.
Qed.

(** [X17] At most one request is in flight. In every state the page can
    reach, the loading flag is set exactly when a request is in flight, and
    exactly when the last message is the user's; the welcome message stays
    first; and the request that settles is the only one, after which none
    is in flight and the flag is cleared. *)
Theorem one_request_in_flight (rt : Runtime) (tts stt : bool) (s : State) :
  reachable rt tts stt s ->
  (List.length (requests s) <= 1)%nat
  /\ (loading s = true <-> requests s <> [])
  /\ (loading s = true <-> msg_role (last (messages s) welcome) = user)
  /\ (exists rest, messages s = welcome :: rest)
  /\ (forall k r uid uid2 s',
        step rt (ESettle k r uid uid2) s = Some s' ->
        k = 0%nat /\ loading s = true /\ loading s' = false /\ requests s' = []).
Proof.
  intros Hr. pose proof (reachable_flow rt tts stt s Hr) as HF.
  pose proof HF as [A B C D F G K].
  split; [rewrite C; destruct (loading s); lia|].
  split.
  { destruct (loading s); destruct (requests s); try discriminate C;
      split; intros; congruence. }
  split; [symmetry; exact F|]. split; [exact D|].
  intros k r uid uid2 s' Hs.
  pose proof (flow_step rt tts stt _ s s' HF Hs) as HF'.
  cbn [step] in Hs.
  destruct (nth_error (requests s) k) as [f|] eqn:En; [|discriminate].
  destruct (flow_settle rt tts stt k f r uid uid2 s HF En) as (_ & -> & Hq & Hl).
  set (s0 := set_requests (remove_nth 0 (requests s)) s) in *.
  injection Hs as <-.
  pose proof (core_render [] s (settle rt f r uid uid2 s0)) as Hc.
  destruct (settle_core rt f r uid uid2 s0) as (new & _ & Hc2).
  rewrite Hc2 in Hc. unfold core in Hc. injection Hc as _ E2 E3 _ _ _ _.
  change (requests s0) with (remove_nth 0 (requests s)) in E3.
  rewrite Hq in E3. cbn [remove_nth] in E3. auto.
Qed.

(** [X18] The recognition flag is set only while a recognition session is
    open, so the end of the session always clears it. In a browser without
    speech recognition the flag is never set and the microphone button
    does nothing. *)
Theorem microphone_flag (rt : Runtime) (tts stt : bool) (s : State) :
  reachable rt tts stt s ->
  (listening s = true -> recActive s = true /\ stt = true)
  /\ (stt = false ->
      listening s = false /\ recActive s = false /\ toggleMic s = s).
Proof.
  intros Hr. pose proof (reachable_flow rt tts stt s Hr) as [A B C D F G K].
  assert (Hno : stt = false -> listening s = false).
  { intros Hs. destruct (listening s) eqn:El; [|reflexivity].
    rewrite (K Hs) in G. discriminate (G eq_refl). }
  split.
  - intros Hl. split; [exact (G Hl)|].
    destruct stt; [reflexivity|]. rewrite (Hno eq_refl) in Hl. discriminate Hl.
  - intros Hs. split; [exact (Hno Hs)|]. split; [exact (K Hs)|].
    unfold toggleMic. rewrite B, Hs. reflexivity.
Qed.

(** [X19] In a browser without speech synthesis nothing is ever spoken
    and no reading of a reply is ever pending, whatever the user does with
    the auto-read option; the only timers are those of read-as-you-type,
    which then say nothing. *)
Theorem silent_without_engine (rt : Runtime) (stt : bool) (s : State) :
  reachable rt false stt s ->
  spoken s = [] /\ utterance s = None /\ pendingSpeakRef s = None
  /\ Forall (fun t => exists text, t_cb t = CbTyping text) (timers s).
Proof.
  intros [es Hr].
  assert (H : forall es s0 s1,
             Inv s0 -> flow false stt s0 -> hush s0 = ([], None) ->
             run rt s0 es = Some s1 ->
             Inv s1 /\ flow false stt s1 /\ hush s1 = ([], None)).
  { clear. induction es as [|e es IH]; intros s0 s1 HI HF HH Hr; cbn [run] in Hr.
    - injection Hr as <-. auto.
    - destruct (step rt e s0) as [s2|] eqn:Es; [|discriminate].
      apply (IH s2 s1); try assumption.
      + exact (step_preserves rt e s0 s2 HI Es).
      + exact (flow_step rt false stt e s0 s2 HF Es).
      + exact (mute_step rt stt e s0 s2 HI HF HH Es). }
  destruct (H es _ s (Inv_init false stt) (flow_init false stt) eq_refl Hr)
    as ([_ Q] & HF & HH).
  unfold hush in HH. injection HH as Hsp Hp.
  pose proof (fl_tts _ _ _ HF) as T.
  split; [exact Hsp|]. split; [exact (q_engine _ _ Q T)|]. split; [exact Hp|].
  apply Forall_forall. intros t Hin.
  pose proof (proj1 (Forall_forall _ _) (q_timers _ _ Q) t Hin) as Hok.
  unfold timer_ok in Hok. destruct (t_cb t) as [txt|txt].
  - destruct Hok as (_ & Ht & _). rewrite T in Ht. discriminate Ht.
  - exists txt. reflexivity.
Qed.


Lemma messages_append_only_witness :
  exists new,
    messages (state_after [EChange (lit " Rome "); EClickSend (lit "u1")])
    = messages (state_after [EChange (lit " Rome ")]) ++ new
    /\ new = [user_message (lit "u1") (lit "Rome")].
Proof.
  exact (messages_append_only demo_runtime (EClickSend (lit "u1"))
           (state_after [EChange (lit " Rome ")])
           (state_after [EChange (lit " Rome "); EClickSend (lit "u1")])
           eq_refl).
Defined.

Lemma one_request_in_flight_witness :
  loading (state_after [EChange (lit "Rome"); EClickSend (lit "u1")]) = true
  <-> requests (state_after [EChange (lit "Rome"); EClickSend (lit "u1")]) <> [].
Proof.
  refine (proj1 (proj2 (one_request_in_flight demo_runtime true true
                          (state_after [EChange (lit "Rome"); EClickSend (lit "u1")]) _))).
  exists [EChange (lit "Rome"); EClickSend (lit "u1")]. vm_compute. reflexivity.
Defined.

Lemma microphone_flag_witness :
  listening (state_after [EToggleMic]) = true
  /\ recActive (state_after [EToggleMic]) = true.
Proof.
  split; [reflexivity|].
  refine (proj1 (proj1 (microphone_flag demo_runtime true true
                          (state_after [EToggleMic]) _) eq_refl)).
  exists [EToggleMic]. vm_compute. reflexivity.
Defined.

Lemma silent_without_engine_witness :
  exists s,
    run demo_runtime (init false true)
      [EToggleAutoRead (lit "Hey!"); EChange (lit "Rome"); EClickSend (lit "u1");
       ESettle 0 rome_response (lit "u2") (lit "u3")] = Some s
    /\ spoken s = [] /\ utterance s = None /\ pendingSpeakRef s = None
    /\ Forall (fun t => exists text, t_cb t = CbTyping text) (timers s).
Proof.
  eexists. split; [vm_compute; reflexivity|].
  apply (silent_without_engine demo_runtime true).
  exists [EToggleAutoRead (lit "Hey!"); EChange (lit "Rome"); EClickSend (lit "u1");
          ESettle 0 rome_response (lit "u2") (lit "u3")].
  vm_compute. reflexivity.
Defined.

(** ** The viewer *)

Section ViewerCycle.

Import Viewer.
Local Open Scope Z_scope.

Lemma iter_nextImage (len : Z) (k : nat) (i : Z) :
  0 < len -> Nat.iter k (nextImage len) i = (i + Z.of_nat k) mod len \/ k = 0%nat.
Proof.
  intros Hlen. induction k as [|k IH]; [right; reflexivity|]. left.
  rewrite Nat.iter_succ. unfold nextImage at 1. rewrite safeIndex_mod by exact Hlen.
  destruct IH as [->| ->].
  - rewrite Zplus_mod_idemp_l. f_equal. lia.
  - reflexivity.
Qed.

(** [X20] The index arithmetic of the gallery is arithmetic modulo the
    number of images: safeIndex gives the remainder in [0, N-1] also for a
    negative index, Prev and Next undo each other, and N times Next, or N
    times Prev, comes back to the image it started from. *)
Theorem image_carousel_cycle (len i n : Z) :
  1 <= len ->
  safeIndex len n = n mod len
  /\ (0 <= i <= len - 1 ->
      prevImage len (nextImage len i) = i
      /\ nextImage len (prevImage len i) = i
      /\ Nat.iter (Z.to_nat len) (nextImage len) i = i
      /\ Nat.iter (Z.to_nat len) (prevImage len) i = i).
Proof.
  intros Hlen. split; [apply safeIndex_mod; lia|]. intros Hi.
  unfold prevImage, nextImage. rewrite !safeIndex_mod by lia.
  split.
  { rewrite Zminus_mod_idemp_l. replace (i + 1 - 1) with i by lia.
    apply Z.mod_small. lia. }
  split.
  { rewrite Zplus_mod_idemp_l. replace (i - 1 + 1) with i by lia.
    apply Z.mod_small. lia. }
  split.
  { destruct (iter_nextImage len (Z.to_nat len) i ltac:(lia)) as [H|H]; [|lia].
    unfold nextImage in H. rewrite H. rewrite Z2Nat.id by lia.
    replace (i + len) with (i + 1 * len) by lia. rewrite Z.mod_add by lia.
    apply Z.mod_small. lia. }
  assert (H : forall k j, Nat.iter k (fun x => safeIndex len (x - 1)) j
                          = (j - Z.of_nat k) mod len \/ k = 0%nat).
  { induction k as [|k IH]; intros j; [right; reflexivity|]. left.
    rewrite Nat.iter_succ. rewrite safeIndex_mod by lia.
    destruct (IH j) as [->| ->].
    - rewrite Zminus_mod_idemp_l. f_equal. lia.
    - reflexivity. }
  destruct (H (Z.to_nat len) i) as [-> | H0]; [|lia].
  rewrite Z2Nat.id by lia.
  replace (i - len) with (i + (-1) * len) by lia. rewrite Z.mod_add by lia.
  apply Z.mod_small. lia.
Qed.

Lemma navigate_next (D : Z) (k : nat) (j : Z) :
  0 <= j -> j + Z.of_nat k <= D - 1 ->
  fold_left (click D) (repeat Next k) j = j + Z.of_nat k.
Proof.
  revert j. induction k as [|k IH]; intros j Hj Hk; cbn [repeat fold_left]; [lia|].
  assert (E : click D j Next = j + 1).
  { unfold click, clickNext, nextDisabled, nextDay.
    destruct (D - 1 <=? j) eqn:E; [apply Z.leb_le in E|apply Z.leb_gt in E]; lia. }
  rewrite E, IH by lia. lia.
Qed.

(** [X21] The day the viewer shows always exists when the itinerary has
    days, whatever was clicked; every day is reached from the first by
    clicking Next as many times as its position; and inside the range Prev
    and Next undo each other. *)
Theorem every_day_can_be_shown (A : Type) (days : list A) (clicks : list nav) :
  let D := Z.of_nat (List.length days) in
  (days <> [] ->
   exists d, currentDay days (navigate D clicks) = Some d /\ In d days)
  /\ (forall k d, nth_error days k = Some d ->
        navigate D (repeat Next k) = Z.of_nat k
        /\ currentDay days (navigate D (repeat Next k)) = Some d)
  /\ (forall i, 0 <= i < D - 1 -> clickPrev (clickNext D i) = i)
  /\ (forall i, 0 < i <= D - 1 -> clickNext D (clickPrev i) = i).
Proof.
  intros D. split; [|split; [|split]].
  - intros Hne.
    assert (HD : 1 <= D) by (subst D; destruct days; [contradiction|cbn [List.length]; lia]).
    pose proof (navigate_in_range D clicks HD) as Hr.
    unfold currentDay.
    destruct (navigate D clicks <? 0) eqn:E; [apply Z.ltb_lt in E; lia|].
    destruct (nth_error days (Z.to_nat (navigate D clicks))) as [d|] eqn:En.
    + exists d. split; [reflexivity|]. exact (nth_error_In _ _ En).
    + apply nth_error_None in En. subst D. lia.
  - intros k d Hk.
    assert (Hlt : (k < List.length days)%nat) by (apply nth_error_Some; congruence).
    assert (E : navigate D (repeat Next k) = Z.of_nat k).
    { unfold navigate, dayIndex0. rewrite navigate_next; subst D; lia. }
    split; [exact E|]. rewrite E. unfold currentDay.
    destruct (Z.of_nat k <? 0) eqn:E0; [apply Z.ltb_lt in E0; lia|].
    rewrite Nat2Z.id. exact Hk.
  - intros i Hi. unfold clickPrev, clickNext, prevDisabled, nextDisabled, prevDay, nextDay.
    destruct (D - 1 <=? i) eqn:E; [apply Z.leb_le in E; lia|].
    destruct (Z.min (D - 1) (i + 1) =? 0) eqn:E2; [apply Z.eqb_eq in E2|]; lia.
  - intros i Hi. unfold clickPrev, clickNext, prevDisabled, nextDisabled, prevDay, nextDay.
    destruct (i =? 0) eqn:E; [apply Z.eqb_eq in E; lia|].
    destruct (D - 1 <=? Z.max 0 (i - 1)) eqn:E2; [apply Z.leb_le in E2|]; lia.
Qed.

Lemma image_carousel_cycle_witness :
  safeIndex 3 (-4) = 2
  /\ Nat.iter 3 (nextImage 3) 1 = 1.
Proof.
  destruct (image_carousel_cycle 3 1 (-4) ltac:(lia)) as [H1 H2].
  destruct (H2 ltac:(lia)) as (_ & _ & H3 & _).
  split; [rewrite H1; reflexivity|exact H3].
Defined.

Lemma every_day_can_be_shown_witness :
  currentDay [10; 20; 30]%nat (navigate 3 (repeat Next 2)) = Some 30%nat.
Proof.
  exact (proj2 (proj1 (proj2 (every_day_can_be_shown nat [10; 20; 30]%nat []))
                  2%nat 30%nat eq_refl)).
Defined.

End ViewerCycle.

(** ** The last reply, and the voices *)

Lemma findIndex_from_spec {A} (p : A -> bool) (l : list A) : forall i,
  (findIndex_from p i l = (-1)%Z /\ Forall (fun x => p x = false) l)
  \/ (exists a x b,
        l = a ++ x :: b /\ Forall (fun x => p x = false) a /\ p x = true
        /\ findIndex_from p i l = (i + Z.of_nat (List.length a))%Z).
Proof.
  induction l as [|y l IH]; intros i; cbn [findIndex_from].
  - left. split; [reflexivity|constructor].
  - destruct (p y) eqn:E.
    + right. exists [], y, l. repeat split; [constructor|exact E|cbn; lia].
    + destruct (IH (i + 1)%Z) as [[H1 H2]|(a & x & b & -> & Ha & Hx & Hi)].
      * left. split; [exact H1|constructor; assumption].
      * right. exists (y :: a), x, b. repeat split.
        -- constructor; assumption.
        -- exact Hx.
        -- rewrite Hi. cbn [List.length]. lia.
Qed.

Lemma is_assistant_false (l : list ChatMessage) :
  Forall (fun x => is_assistant x = false) l -> Forall not_assistant l.
Proof.
  apply Forall_impl. intros m H E. unfold is_assistant in H. rewrite E in H. discriminate H.
Qed.

(** [X22] lastAssistantMsg is the last message of the assistant: no
    message after it is of the assistant, and it is undefined only when no
    message is. With the welcome message first, as it always is, it is
    defined. *)
Theorem lastAssistantMsg_last (messages : list ChatMessage) :
  match lastAssistantMsg messages with
  | Some m =>
      msg_role m = assistant
      /\ exists pre post, messages = pre ++ m :: post /\ Forall not_assistant post
  | None => Forall not_assistant messages
  end
  /\ forall rest, lastAssistantMsg (welcome :: rest) <> None.
Proof.
  assert (H : forall ms,
             match lastAssistantMsg ms with
             | Some m =>
                 msg_role m = assistant
                 /\ exists pre post, ms = pre ++ m :: post /\ Forall not_assistant post
             | None => Forall not_assistant ms
             end).
  { intros ms. unfold lastAssistantMsg, lastAssistantIndex, findIndex.
    destruct (findIndex_from_spec is_assistant (rev ms) 0)
      as [[H1 H2]|(a & x & b & Hl & Ha & Hx & Hi)].
    - rewrite H1. cbn. apply is_assistant_false.
      rewrite <- (rev_involutive ms). apply Forall_rev. exact H2.
    - rewrite Hi.
      assert (Hm : ms = rev b ++ x :: rev a).
      { rewrite <- (rev_involutive ms), Hl, rev_app_distr. cbn [rev].
        rewrite <- app_assoc. reflexivity. }
      destruct (0 + Z.of_nat (List.length a) =? -1)%Z eqn:E;
        [apply Z.eqb_eq in E; lia|].
      unfold item.
      assert (Hidx : (Z.of_nat (List.length ms) - 1 - (0 + Z.of_nat (List.length a))
                      = Z.of_nat (List.length (rev b)))%Z).
      { rewrite Hm, length_app. cbn [List.length]. rewrite !length_rev. lia. }
      rewrite Hidx.
      destruct (Z.of_nat (List.length (rev b)) <? 0)%Z eqn:E2;
        [apply Z.ltb_lt in E2; lia|].
      rewrite Nat2Z.id, Hm, nth_error_app2 by lia.
      rewrite Nat.sub_diag. cbn [nth_error].
      split.
      + unfold is_assistant in Hx. destruct (msg_role x); try discriminate Hx. reflexivity.
      + exists (rev b), (rev a). split; [reflexivity|].
        apply is_assistant_false, Forall_rev. exact Ha. }
  split; [apply H|].
  intros rest E. specialize (H (welcome :: rest)). rewrite E in H.
  inversion H as [|? ? Hw _]. apply Hw. reflexivity.
Qed.

Section Voices.

Import TTS.

Lemma item_middle {A} (pre : list A) (v : A) (post : list A) :
  item (pre ++ v :: post) (Z.of_nat (List.length pre)) = Some v.
Proof.
  unfold item.
  destruct (Z.of_nat (List.length pre) <? 0)%Z eqn:E; [apply Z.ltb_lt in E; lia|].
  rewrite Nat2Z.id, nth_error_app2 by lia. rewrite Nat.sub_diag. reflexivity.
Qed.

(** [X23] Once the voices are ready and there is one at least, the voice
    selected exists, and it is the first voice of Google for US English;
    if there is none, the first voice for US English; if there is none
    either, the first voice of the list. *)
Theorem pickVoice_choice (voices : list Voice) (voiceIndex : Z) :
  voices <> [] ->
  exists pre v post,
    voices = pre ++ v :: post
    /\ pickVoice true voices voiceIndex = Z.of_nat (List.length pre)
    /\ selectedVoice voices (pickVoice true voices voiceIndex) = Some v
    /\ (first_of googleUS pre v
        \/ (none_of googleUS voices /\ first_of is_enUS pre v)
        \/ (none_of is_enUS voices /\ pre = [])).
Proof.
  intros Hne. unfold pickVoice, selectedVoice. cbn [negb orb].
  destruct voices as [|v0 rest]; [contradiction|].
  cbn [List.length Nat.eqb]. cbv zeta. unfold findIndex.
  fold googleUS.
  change (fun v => is_enUS v && is_google v) with googleUS.
  destruct (findIndex_from_spec googleUS (v0 :: rest) 0)
    as [[G1 G2]|(a & x & b & Hl & Ha & Hx & Hi)].
  - rewrite G1. cbn [Z.leb Z.compare].
    destruct (findIndex_from_spec is_enUS (v0 :: rest) 0)
      as [[U1 U2]|(a & x & b & Hl & Ha & Hx & Hi)].
    + rewrite U1. cbn [Z.leb Z.compare].
      exists [], v0, rest. split; [reflexivity|]. split; [reflexivity|].
      split; [reflexivity|]. right. right. split; [exact U2|reflexivity].
    + rewrite Hi, Hl.
      destruct (0 <=? 0 + Z.of_nat (List.length a))%Z eqn:E; [|apply Z.leb_gt in E; lia].
      exists a, x, b. split; [reflexivity|]. split; [lia|].
      split; [replace (0 + Z.of_nat (List.length a))%Z with (Z.of_nat (List.length a)) by lia;
              apply item_middle|].
      right. left. split; [rewrite <- Hl; exact G2|split; assumption].
  - rewrite Hi, Hl.
    destruct (0 <=? 0 + Z.of_nat (List.length a))%Z eqn:E; [|apply Z.leb_gt in E; lia].
    exists a, x, b. split; [reflexivity|]. split; [lia|].
    split; [replace (0 + Z.of_nat (List.length a))%Z with (Z.of_nat (List.length a)) by lia;
            apply item_middle|].
    left. split; assumption.
Qed.

Lemma pickVoice_choice_witness :
  exists v,
    selectedVoice
      [{| v_name := lit "Thomas"; v_lang := lit "fr-FR" |};
       {| v_name := lit "Samantha"; v_lang := lit "en-US" |};
       {| v_name := lit "Google US English"; v_lang := lit "EN-us" |}]
      (pickVoice true
         [{| v_name := lit "Thomas"; v_lang := lit "fr-FR" |};
          {| v_name := lit "Samantha"; v_lang := lit "en-US" |};
          {| v_name := lit "Google US English"; v_lang := lit "EN-us" |}] 0)
    = Some v.
Proof.
  pose proof (pickVoice_choice
                [{| v_name := lit "Thomas"; v_lang := lit "fr-FR" |};
                 {| v_name := lit "Samantha"; v_lang := lit "en-US" |};
                 {| v_name := lit "Google US English"; v_lang := lit "EN-us" |}] 0) as P.
  assert (Q : [{| v_name := lit "Thomas"; v_lang := lit "fr-FR" |};
               {| v_name := lit "Samantha"; v_lang := lit "en-US" |};
               {| v_name := lit "Google US English"; v_lang := lit "EN-us" |}] <> [])
    by discriminate.
  destruct (P Q) as (pre & v & post & _ & _ & H & _).
  exists v. exact H.
Defined.

Lemma loadVoices_inv (v : list Voice) (n : nat) (st : Loader) :
  (tries st <= 21)%nat -> (tries st <= n)%nat ->
  (ready st = false -> voices st = [] /\ tries st = n) ->
  loading_inv (S n) (loadVoices v st).
Proof.
  intros H1 H2 H3. unfold loadVoices, loading_inv.
  destruct ((0 <? List.length v)%nat || (20 <? tries st)%nat) eqn:E; cbn.
  - split; [exact H1|]. split; [lia|]. discriminate.
  - apply orb_false_iff in E. destruct E as [_ E]. apply Nat.ltb_ge in E.
    split; [lia|]. split; [lia|]. intros Hr. destruct (H3 Hr) as [Hv Ht].
    split; [exact Hv|]. split; lia.
Qed.

Lemma load_step_inv (e : load_event) (n : nat) (st st' : Loader) :
  loading_inv n st -> load_step e st = Some st' -> loading_inv (S n) st'.
Proof.
  intros (H1 & H2 & H3) Hs. destruct e as [v|v]; cbn [load_step] in Hs.
  - destruct (polls st) as [|k] eqn:Ep; [discriminate|]. injection Hs as <-.
    apply loadVoices_inv; cbn; try assumption.
    intros Hr. destruct (H3 Hr) as (Hv & _ & Ht). auto.
  - injection Hs as <-. apply loadVoices_inv; try assumption.
    intros Hr. destruct (H3 Hr) as (Hv & _ & Ht). auto.
Qed.

Lemma load_run_inv (es : list load_event) : forall n st st',
  loading_inv n st -> load_run st es = Some st' ->
  loading_inv (n + List.length es) st'.
Proof.
  induction es as [|e es IH]; intros n st st' H Hr; cbn [load_run] in Hr.
  - injection Hr as <-. cbn. rewrite Nat.add_0_r. exact H.
  - destruct (load_step e st) as [st1|] eqn:Es; [|discriminate].
    cbn [List.length]. rewrite Nat.add_succ_r.
    exact (IH (S n) st1 st' (load_step_inv e n st st1 H Es) Hr).
Qed.

(** [X24] The loading of the voices ends. The counter of polls never
    exceeds 21, so at most 21 polls are ever set; as long as the voices
    are not ready none has been stored, every call of loadVoices so far has
    counted, and a poll is set that can fire; and after the call at mount
    and 21 more calls, by polls or by the voiceschanged event, the voices
    are ready, with or without voices. *)
Theorem voice_loading_bounded (v0 : list Voice) (es : list load_event) (st : Loader) :
  load_run (mount v0) es = Some st ->
  (tries st <= 21)%nat
  /\ (ready st = false ->
      voices st = [] /\ tries st = S (List.length es)
      /\ forall v, load_step (Poll v) st <> None)
  /\ ((21 <= List.length es)%nat -> ready st = true).
Proof.
  intros Hr.
  assert (H0 : loading_inv 1 (mount v0)).
  { apply loadVoices_inv; cbn; auto. lia. }
  destruct (load_run_inv es 1 _ st H0 Hr) as (H1 & H2 & H3).
  split; [exact H1|]. split.
  - intros Hn. destruct (H3 Hn) as (Hv & Hp & Ht).
    split; [exact Hv|]. split; [exact Ht|].
    intros v. cbn [load_step]. destruct (polls st); [lia|discriminate].
  - intros Hlen. destruct (ready st) eqn:E; [reflexivity|].
    destruct (H3 eq_refl) as (_ & _ & Ht). lia.
Qed.

Lemma voice_loading_bounded_witness :
  load_run (mount []) (repeat (Poll []) 21)
  = Some {| tries := 21; voices := []; ready := true; polls := 0 |}
  /\ ready {| tries := 21; voices := []; ready := true; polls := 0 |} = true.
Proof.
  assert (Hrun : load_run (mount []) (repeat (Poll []) 21)
                 = Some {| tries := 21; voices := []; ready := true; polls := 0 |})
    by (vm_compute; reflexivity).
  split; [exact Hrun|].
  apply (proj2 (proj2 (voice_loading_bounded [] (repeat (Poll []) 21)
                         {| tries := 21; voices := []; ready := true; polls := 0 |}
                         Hrun))).
  rewrite repeat_length. lia.
Defined.

End Voices.

(** *** The option at the time of the send *)

Ltac by_fields s :=
  destruct s as [ms m0 ld ar tts stt li lr rd ps tt tm nid rq ra ft ut sp];
  destruct tts, rd, ps, lr; reflexivity.

(** [X25] Whether a reply is read is decided when the message is sent,
    not when the reply arrives. The rest of send after the response, and
    the timer of a reading, never test the auto-read option of the page:
    with the option changed they do the same to everything else. What they
    go by is the option and the engine as the send captured them. So a
    reply to a message sent with auto-read on is scheduled and read even if
    the option has been switched off since, and with it off at the send
    the reply is not read even if it is on when the reply arrives. *)
Theorem reading_ignores_current_option (rt : Runtime) (b : bool) (s : State) :
  (forall f r uid uid2,
     settle rt f r uid uid2 (set_autoRead b s)
     = set_autoRead b (settle rt f r uid uid2 s))
  /\ (forall cb, run_timer cb (set_autoRead b s) = set_autoRead b (run_timer cb s))
  /\ (forall uid,
        loading s = false -> is_empty (trim (message s)) = false ->
        exists f, requests (send None uid s) = requests s ++ [f]
                  /\ f_autoRead f = autoRead s /\ f_tts f = ttsSupported s).
Proof.
  split; [|split].
  - intros f r uid uid2. unfold settle, send_try.
    destruct (f_autoRead f) eqn:Ea, (f_tts f) eqn:Et;
      (destruct r as [e|status body];
       [unfold send_catch; rewrite ?Ea, ?Et; by_fields s|];
       destruct (negb (res_ok status));
       [destruct (failure_message rt status _);
        unfold send_catch; rewrite ?Ea, ?Et; by_fields s|];
       generalize (nextMsg rt uid (select_output match body with
                                                 | Some d => d
                                                 | None => JObject []
                                                 end)); intros m;
       cbn [andb];
       try (destruct (toSpeakOf rt m) as [toSpeak|e];
            [destruct (is_empty toSpeak)|unfold send_catch; rewrite ?Ea, ?Et]);
       by_fields s).
  - intros [[|c t]|[|c t]]; unfold run_timer, scheduleSpeak; by_fields s.
  - intros uid Hl He. unfold send. cbv zeta. rewrite He, Hl. cbn [orb].
    eexists. split; [reflexivity|]. split; reflexivity.
Qed.

(** ** The route of the webhook *)

(** [X26] Whatever goes wrong in the route (the request body does not
    parse, the webhook cannot be reached or answers with something that is
    not JSON, or with a status a response with a body cannot have), the
    route answers with status 500 and the one fixed body; and the page then
    shows exactly [Error: Request failed (500)]: the text of the route,
    which it puts under [message], is never shown, because the page reads
    [error]. *)
Theorem route_failure_shown (rt : Runtime) (req : option json)
        (webhook : jsstring -> fetch_result) (f : inflight)
        (uid uid2 : jsstring) (s : State) :
  route_fails rt req webhook ->
  POST rt req webhook
  = {| r_status := 500; r_body := qlit "{'message':'Webhook trigger failed'}" |}
  /\ through_route (POST rt req webhook)
     = Responded 500 (Some (JObject [(lit "message", jstr "Webhook trigger failed")]))
  /\ messages (settle rt f (through_route (POST rt req webhook)) uid uid2 s)
     = messages s ++ [error_message uid (ErrorObj (lit "Request failed (500)"))]
  /\ loading (settle rt f (through_route (POST rt req webhook)) uid uid2 s) = false.
Proof.
  intros Hf.
  assert (HP : POST rt req webhook = failure_response rt).
  { unfold POST, route_fails in *. destruct req as [body|]; [|reflexivity].
    destruct (webhook (JSON_stringify rt body)) as [e|status [data|]];
      try reflexivity.
    rewrite Hf. reflexivity. }
  rewrite HP. split; [reflexivity|]. split; [vm_compute; reflexivity|].
  split; [|apply settle_loading].
  change (through_route (failure_response rt))
    with (Responded 500 (JSON_parse (qlit "{'message':'Webhook trigger failed'}"))).
  replace (JSON_parse (qlit "{'message':'Webhook trigger failed'}"))
    with (Some (JObject [(lit "message", jstr "Webhook trigger failed")]))
    by (vm_compute; reflexivity).
  unfold settle, send_try. cbn [res_ok negb andb N.leb N.compare].
  change (negb (res_ok 500)) with true. cbv iota.
  change (failure_message rt 500 (JObject [(lit "message", jstr "Webhook trigger failed")]))
    with (@Ret jsstring (lit "Request failed (500)")).
  cbv iota beta. cbn [messages set_loading]. apply messages_send_catch.
Qed.

Lemma route_failure_shown_witness :
  messages (settle demo_runtime (Build_inflight (lit "Rome") false true)
              (through_route
                 (POST demo_runtime (Some (JObject [(lit "input", jstr "Rome")]))
                    (fun _ => Responded 204 (Some (JObject [])))))
              (lit "u2") (lit "u3") (init true true))
  = [welcome; error_message (lit "u2") (ErrorObj (lit "Request failed (500)"))].
Proof.
  apply (route_failure_shown demo_runtime (Some (JObject [(lit "input", jstr "Rome")]))
           (fun _ => Responded 204 (Some (JObject [])))
           (Build_inflight (lit "Rome") false true) (lit "u2") (lit "u3")
           (init true true)).
  reflexivity.
Defined.

(** *** The request on its way to the webhook *)

Lemma hex_value_lower (d : N) : (d < 16)%N -> hex_value (hex_lower d) = Some d.
Proof.
  intros H.
  assert (C : (d = 0 \/ d = 1 \/ d = 2 \/ d = 3 \/ d = 4 \/ d = 5 \/ d = 6 \/ d = 7
               \/ d = 8 \/ d = 9 \/ d = 10 \/ d = 11 \/ d = 12 \/ d = 13 \/ d = 14
               \/ d = 15)%N) by lia.
  repeat (destruct C as [->|C]; [reflexivity|]). subst d. reflexivity.
Qed.

Lemma hex_digits (c : char) :
  code_unit c ->
  ((((0 * 16 + c / 4096 mod 16) * 16 + c / 256 mod 16) * 16 + c / 16 mod 16) * 16
   + c mod 16 = c)%N
  /\ (c / 4096 mod 16 < 16 /\ c / 256 mod 16 < 16 /\ c / 16 mod 16 < 16 /\ c mod 16 < 16)%N.
Proof.
  unfold code_unit. intros H. zify. Z.to_euclidean_division_equations. lia.
Qed.

Lemma lex_go_silent (st st' : lstate) (c : char) (rest : jsstring) :
  lex_step st c = Some ([], st') -> lex_go st (c :: rest) = lex_go st' rest.
Proof.
  intros H. cbn [lex_go]. rewrite H. apply option_map_app_nil.
Qed.

Lemma lex_hex (acc : jsstring) (k : nat) (v d : N) (rest : jsstring) :
  (d < 16)%N ->
  lex_go (LHex acc k v) (hex_lower d :: rest)
  = if (k =? 3)%nat then lex_go (LStr ((v * 16 + d)%N :: acc)) rest
    else lex_go (LHex acc (S k) (v * 16 + d)%N) rest.
Proof.
  intros Hd. destruct (k =? 3)%nat eqn:E; apply lex_go_silent;
    cbn [lex_step]; rewrite (hex_value_lower d Hd), E; reflexivity.
Qed.

Lemma lex_unicode_escape (acc : jsstring) (c : char) (rest : jsstring) :
  code_unit c ->
  lex_go (LStr acc) (unicode_escape c ++ rest) = lex_go (LStr (c :: acc)) rest.
Proof.
  intros Hc. destruct (hex_digits c Hc) as (Hv & H3 & H2 & H1 & H0).
  unfold unicode_escape.
  change (lit "\u") with [92%N; 117%N]. cbn [app].
  rewrite (lex_go_silent (LStr acc) (LEsc acc) 92%N) by reflexivity.
  rewrite (lex_go_silent (LEsc acc) (LHex acc 0 0%N) 117%N) by reflexivity.
  rewrite !lex_hex by assumption. cbn [Nat.eqb]. rewrite Hv. reflexivity.
Qed.

Lemma lex_escape (acc : jsstring) (e c : char) (rest : jsstring) :
  escape_char e = Some c -> (e =? 117)%N = false ->
  lex_go (LStr acc) (92%N :: e :: rest) = lex_go (LStr (c :: acc)) rest.
Proof.
  intros He Hu.
  rewrite (lex_go_silent (LStr acc) (LEsc acc) 92%N) by reflexivity.
  apply lex_go_silent. cbn [lex_step]. rewrite Hu, He. reflexivity.
Qed.

Lemma lex_plain (acc : jsstring) (c : char) (rest : jsstring) :
  (c =? 34)%N = false -> (c =? 92)%N = false -> (c <? 32)%N = false ->
  lex_go (LStr acc) (c :: rest) = lex_go (LStr (c :: acc)) rest.
Proof.
  intros H1 H2 H3. apply lex_go_silent. cbn [lex_step]. rewrite H1, H2, H3. reflexivity.
Qed.

Lemma surrogate_plain (c : char) :
  is_lead c = true \/ is_trail c = true ->
  (c =? 34)%N = false /\ (c =? 92)%N = false /\ (c <? 32)%N = false.
Proof.
  unfold is_lead, is_trail. intros H.
  rewrite !andb_true_iff, !N.leb_le in H.
  rewrite !N.eqb_neq, N.ltb_ge. lia.
Qed.

Lemma lex_quote_body (n : nat) : forall s acc rest,
  (List.length s <= n)%nat -> Forall code_unit s ->
  lex_go (LStr acc) (quote_body s ++ 34%N :: rest)
  = option_map (cons (TStr (rev acc ++ s))) (lex_go LDefault rest).
Proof.
  induction n as [|n IH]; intros s acc rest Hlen Hs.
  - destruct s; [|cbn in Hlen; lia]. cbn [quote_body app lex_go lex_step].
    change (34 =? 34)%N with true. cbv iota. rewrite app_nil_r.
    destruct (lex_go LDefault rest); reflexivity.
  - destruct s as [|c s].
    { cbn [quote_body app lex_go lex_step].
      change (34 =? 34)%N with true. cbv iota. rewrite app_nil_r.
      destruct (lex_go LDefault rest); reflexivity. }
    cbn [List.length] in Hlen. inversion Hs as [|? ? Hc Hs']; subst.
    assert (Hnext : forall acc',
               lex_go (LStr (c :: acc')) (quote_body s ++ 34%N :: rest)
               = option_map (cons (TStr (rev acc' ++ c :: s))) (lex_go LDefault rest)).
    { intros acc'. rewrite (IH s (c :: acc') rest ltac:(lia) Hs').
      cbn [rev]. rewrite <- app_assoc. reflexivity. }
    cbn [quote_body].
    destruct (c =? 8)%N eqn:E8.
    { apply N.eqb_eq in E8. subst c. change (lit "\b") with [92%N; 98%N]. cbn [app].
      rewrite (lex_escape acc 98%N 8%N) by reflexivity. apply Hnext. }
    destruct (c =? 9)%N eqn:E9.
    { apply N.eqb_eq in E9. subst c. change (lit "\t") with [92%N; 116%N]. cbn [app].
      rewrite (lex_escape acc 116%N 9%N) by reflexivity. apply Hnext. }
    destruct (c =? 10)%N eqn:E10.
    { apply N.eqb_eq in E10. subst c. change (lit "\n") with [92%N; 110%N]. cbn [app].
      rewrite (lex_escape acc 110%N 10%N) by reflexivity. apply Hnext. }
    destruct (c =? 12)%N eqn:E12.
    { apply N.eqb_eq in E12. subst c. change (lit "\f") with [92%N; 102%N]. cbn [app].
      rewrite (lex_escape acc 102%N 12%N) by reflexivity. apply Hnext. }
    destruct (c =? 13)%N eqn:E13.
    { apply N.eqb_eq in E13. subst c. change (lit "\r") with [92%N; 114%N]. cbn [app].
      rewrite (lex_escape acc 114%N 13%N) by reflexivity. apply Hnext. }
    destruct (c =? 34)%N eqn:E34.
    { apply N.eqb_eq in E34. subst c. cbn [app].
      rewrite (lex_escape acc 34%N 34%N) by reflexivity. apply Hnext. }
    destruct (c =? 92)%N eqn:E92.
    { apply N.eqb_eq in E92. subst c. cbn [app].
      rewrite (lex_escape acc 92%N 92%N) by reflexivity. apply Hnext. }
    destruct (c <? 32)%N eqn:E32.
    { rewrite <- app_assoc, (lex_unicode_escape acc c _ Hc). apply Hnext. }
    destruct (is_lead c) eqn:El.
    { destruct s as [|d s].
      - rewrite (lex_unicode_escape acc c _ Hc).
        change (@nil char) with (quote_body []) at 1. apply Hnext.
      - destruct (is_trail d) eqn:Et.
        + cbn [app].
          rewrite (lex_plain acc c) by assumption.
          destruct (surrogate_plain d (or_intror Et)) as (D1 & D2 & D3).
          rewrite (lex_plain (c :: acc) d) by assumption.
          inversion Hs' as [|? ? Hd Hs'']; subst.
          rewrite (IH s (d :: c :: acc) rest ltac:(cbn [List.length] in Hlen; lia) Hs'').
          cbn [rev]. rewrite <- !app_assoc. reflexivity.
        + rewrite <- app_assoc, (lex_unicode_escape acc c _ Hc). apply Hnext. }
    destruct (is_trail c) eqn:Et.
    { rewrite <- app_assoc, (lex_unicode_escape acc c _ Hc). apply Hnext. }
    cbn [app]. rewrite (lex_plain acc c) by assumption. apply Hnext.
Qed.

(** [X27] What the user sends reaches the webhook as it is. For every
    text (quotes, backslashes, control characters, pairs of surrogates and
    surrogates without a pair included) the quoted form JSON.stringify
    writes parses back to the text; the body of the request of send parses,
    in the route, to the object whose [input] is the text; and the route
    sends the webhook that same body again and answers with what the
    webhook answers. *)
Theorem string_round_trip (rt : Runtime) (text : jsstring) :
  Forall code_unit text ->
  JSON_parse (QuoteJSONString text) = Some (JString text)
  /\ JSON_parse (request_body rt text) = Some (JObject [(lit "input", JString text)])
  /\ forall webhook,
       POST rt (JSON_parse (request_body rt text)) webhook
       = match webhook (request_body rt text) with
         | Responded status (Some data) =>
             match new_Response (JSON_stringify rt data) status with
             | Some r => r
             | None => failure_response rt
             end
         | _ => failure_response rt
         end.
Proof.
  intros Ht.
  cut (JSON_parse (QuoteJSONString text) = Some (JString text)
       /\ JSON_parse (request_body rt text)
          = Some (JObject [(lit "input", JString text)])).
  { intros [H1 H2]. split; [exact H1|]. split; [exact H2|].
    intros webhook. rewrite H2. unfold POST.
    change (JSON_stringify rt (JObject [(lit "input", JString text)]))
      with (request_body rt text).
    destruct (webhook (request_body rt text)) as [e|status [data|]]; reflexivity. }
  assert (Hq : forall rest,
             lex_go LDefault (QuoteJSONString text ++ rest)
             = option_map (cons (TStr text)) (lex_go LDefault rest)).
  { intros rest. unfold QuoteJSONString. cbn [app].
    rewrite (lex_go_silent LDefault (LStr []) 34%N) by reflexivity.
    rewrite <- app_assoc. cbn [app].
    exact (lex_quote_body _ text [] rest (le_n _) Ht). }
  split.
  - unfold JSON_parse, lex. rewrite <- (app_nil_r (QuoteJSONString text)), Hq.
    reflexivity.
  - unfold JSON_parse, lex, request_body. cbn [JSON_stringify].
    assert (Hshape : lit "{" ++ (QuoteJSONString (lit "input") ++ lit ":"
                                 ++ QuoteJSONString text ++ []) ++ lit "}"
                     = qlit "{'input':" ++ (QuoteJSONString text ++ lit "}")).
    { rewrite app_nil_r, <- !app_assoc. reflexivity. }
    rewrite Hshape.
    unfold QuoteJSONString.
    change (qlit "{'input':") with [123; 34; 105; 110; 112; 117; 116; 34; 58]%N.
    cbn [app].
    rewrite <- app_assoc. cbn [app].
    cbn.
    set (X := lex_go (LStr []) _).
    assert (HX : X = Some [TStr text; TRBrace])
      by (subst X; exact (lex_quote_body _ text [] [125%N] (le_n _) Ht)).
    rewrite HX. reflexivity.
Qed.

Lemma string_round_trip_witness :
  JSON_parse (request_body demo_runtime
                ([34; 92; 10; 55357; 56832; 56832; 233]%N ++ lit " Rome"))
  = Some (JObject [(lit "input",
                    JString ([34; 92; 10; 55357; 56832; 56832; 233]%N ++ lit " Rome"))]).
Proof.
  apply (string_round_trip demo_runtime
           ([34; 92; 10; 55357; 56832; 56832; 233]%N ++ lit " Rome")).
  repeat constructor.
Defined.

(** ** Map links *)

Lemma hex_upper_unreserved (d : N) : (d < 16)%N -> uri_unreserved (hex_upper d) = true.
Proof.
  intros H.
  assert (C : (d = 0 \/ d = 1 \/ d = 2 \/ d = 3 \/ d = 4 \/ d = 5 \/ d = 6 \/ d = 7
               \/ d = 8 \/ d = 9 \/ d = 10 \/ d = 11 \/ d = 12 \/ d = 13 \/ d = 14
               \/ d = 15)%N) by lia.
  repeat (destruct C as [->|C]; [reflexivity|]). subst d. reflexivity.
Qed.

Lemma percent_safe (b : N) : (b < 256)%N -> Forall url_safe (percent b).
Proof.
  intros H. unfold percent.
  constructor; [right; reflexivity|].
  constructor; [left; apply hex_upper_unreserved; zify; Z.to_euclidean_division_equations; lia|].
  constructor; [left; apply hex_upper_unreserved; zify; Z.to_euclidean_division_equations; lia|].
  constructor.
Qed.

Ltac byte_bound := zify; Z.to_euclidean_division_equations; lia.

Lemma percent_utf8_safe (v : N) : (v < 1114112)%N -> Forall url_safe (percent_utf8 v).
Proof.
  intros H. unfold percent_utf8.
  destruct (v <? 128)%N eqn:E1; [apply N.ltb_lt in E1; apply percent_safe; lia|].
  apply N.ltb_ge in E1.
  destruct (v <? 2048)%N eqn:E2.
  { apply N.ltb_lt in E2. apply Forall_app. split; apply percent_safe; byte_bound. }
  apply N.ltb_ge in E2.
  destruct (v <? 65536)%N eqn:E3.
  { apply N.ltb_lt in E3.
    apply Forall_app. split; [apply percent_safe; byte_bound|].
    apply Forall_app. split; apply percent_safe; byte_bound. }
  apply N.ltb_ge in E3.
  apply Forall_app. split; [apply percent_safe; byte_bound|].
  apply Forall_app. split; [apply percent_safe; byte_bound|].
  apply Forall_app. split; apply percent_safe; byte_bound.
Qed.

Lemma unreserved_not_surrogate (c : char) :
  uri_unreserved c = true -> is_lead c = false /\ is_trail c = false.
Proof.
  unfold uri_unreserved, is_lead, is_trail. intros H.
  rewrite !orb_true_iff, !andb_true_iff, !N.leb_le, !N.eqb_eq in H.
  rewrite !andb_false_iff, !N.leb_gt. lia.
Qed.

Lemma encodeURIComponent_spec (n : nat) : forall s,
  (List.length s <= n)%nat -> Forall code_unit s ->
  match encodeURIComponent s with
  | Some out =>
      paired s = true /\ Forall url_safe out
      /\ (Forall (fun c => uri_unreserved c = true) s -> out = s)
  | None => paired s = false
  end.
Proof.
  induction n as [|n IH]; intros s Hlen Hs.
  - destruct s; [|cbn in Hlen; lia]. cbn. repeat split; auto.
  - destruct s as [|c s]; [cbn; repeat split; auto|].
    cbn [List.length] in Hlen. inversion Hs as [|? ? Hc Hs']; subst.
    cbn [encodeURIComponent paired].
    destruct (uri_unreserved c) eqn:Eu.
    + destruct (unreserved_not_surrogate c Eu) as [-> ->].
      specialize (IH s ltac:(lia) Hs').
      destruct (encodeURIComponent s) as [out|]; cbn [option_map]; [|exact IH].
      destruct IH as (Hp & Ho & Hid). split; [exact Hp|]. split.
      * constructor; [left; exact Eu|exact Ho].
      * intros Hall. inversion Hall; subst. f_equal. auto.
    + destruct (is_trail c) eqn:Et; [reflexivity|].
      destruct (is_lead c) eqn:El.
      * destruct s as [|d s]; [reflexivity|].
        destruct (is_trail d) eqn:Etd; [|reflexivity]. cbn [andb].
        inversion Hs' as [|? ? Hd Hs'']; subst.
        specialize (IH s ltac:(cbn [List.length] in Hlen; lia) Hs'').
        destruct (encodeURIComponent s) as [out|]; cbn [option_map]; [|exact IH].
        destruct IH as (Hp & Ho & _). split; [exact Hp|]. split.
        -- apply Forall_app. split; [|exact Ho]. apply percent_utf8_safe.
           unfold is_lead, is_trail in *.
           rewrite !andb_true_iff, !N.leb_le in *. lia.
        -- intros Hall. inversion Hall; subst. congruence.
      * specialize (IH s ltac:(lia) Hs').
        destruct (encodeURIComponent s) as [out|]; cbn [option_map]; [|exact IH].
        destruct IH as (Hp & Ho & _). split; [exact Hp|]. split.
        -- apply Forall_app. split; [|exact Ho]. apply percent_utf8_safe.
           unfold code_unit in Hc. lia.
        -- intros Hall. inversion Hall; subst. congruence.
Qed.

(** [X28] A search link is made of characters a URL can hold. For a text
    in which every surrogate has its pair, encodeURIComponent does not
    throw, and what it returns holds only letters, digits, the marks
    [- _ . ! ~ * ' ( )] and the percent sign; a text of such letters,
    digits and marks alone is returned as it is; and the link is the
    search prefix followed by that. For a text with a surrogate without its
    pair it throws [URIError]. *)
Theorem encodeURIComponent_safe (rt : Runtime) (text : jsstring) :
  Forall code_unit text ->
  (paired text = true ->
   exists out,
     encodeURIComponent text = Some out
     /\ Forall url_safe out
     /\ (Forall (fun c => uri_unreserved c = true) text -> out = text)
     /\ search_link rt (Some text) = Ret (Some (search_prefix ++ out)))
  /\ (paired text = false ->
      encodeURIComponent text = None
      /\ search_link rt (Some text) = raise rt MalformedURI).
Proof.
  intros Ht. pose proof (encodeURIComponent_spec _ text (le_n _) Ht) as H.
  unfold search_link.
  destruct (encodeURIComponent text) as [out|].
  - destruct H as (Hp & Ho & Hid). split.
    + intros _. exists out. auto.
    + intros Hf. rewrite Hf in Hp. discriminate Hp.
  - split.
    + intros Hp. rewrite Hp in H. discriminate H.
    + intros _. split; reflexivity.
Qed.

Lemma encodeURIComponent_safe_witness :
  exists out,
    encodeURIComponent (lit "Caf" ++ [233; 32; 55357; 56832]%N) = Some out
    /\ Forall url_safe out.
Proof.
  destruct (encodeURIComponent_safe demo_runtime (lit "Caf" ++ [233; 32; 55357; 56832]%N))
    as [H _].
  - repeat constructor.
  - destruct (H eq_refl) as (out & Ho & Hs & _). exists out. split; assumption.
Defined.

(** ** Reading what is on screen *)

Lemma no_double_cons (x : char) (t : jsstring) :
  hd_ws t = false -> no_double_ws t -> no_double_ws (x :: t).
Proof.
  intros Hh Ht. cbn [no_double_ws]. split; [|exact Ht].
  destruct t as [|b t]; [exact I|]. cbn [hd_ws] in Hh. rewrite Hh. apply andb_false_r.
Qed.

Lemma collapse_ws_shape (s : jsstring) :
  no_double_ws (collapse_ws None s)
  /\ visible_units (collapse_ws None s) = visible_units s
  /\ forall w m, isWS w = true ->
       exists x t,
         collapse_ws (Some (w, m)) s = x :: t
         /\ isWS x = true /\ hd_ws t = false /\ no_double_ws t
         /\ visible_units t = visible_units s.
Proof.
  induction s as [|c s (IH1 & IH2 & IH3)].
  - split; [exact I|]. split; [reflexivity|].
    intros w m Hw. exists (if m then 32%N else w), [].
    cbn. destruct m; repeat split; auto.
  - cbn [collapse_ws]. destruct (isWS c) eqn:Ec.
    + split; [|split].
      * destruct (IH3 c false Ec) as (x & t & -> & Hx & Hh & Ht & _).
        apply no_double_cons; assumption.
      * destruct (IH3 c false Ec) as (x & t & -> & Hx & _ & _ & Hv).
        unfold visible_units in *. cbn [filter]. rewrite Hx, Ec. exact Hv.
      * intros w m Hw. destruct (IH3 w true Hw) as (x & t & E & Hx & Hh & Ht & Hv).
        exists x, t. rewrite E. repeat split; try assumption.
        unfold visible_units in *. cbn [filter]. rewrite Ec. exact Hv.
    + assert (Hc : no_double_ws (c :: collapse_ws None s)).
      { cbn [no_double_ws]. split; [|exact IH1].
        destruct (collapse_ws None s); [exact I|]. rewrite Ec. reflexivity. }
      assert (Hv : visible_units (c :: collapse_ws None s) = visible_units (c :: s)).
      { unfold visible_units in *. cbn [filter]. rewrite Ec. cbn [negb]. f_equal. exact IH2. }
      split; [exact Hc|]. split; [exact Hv|].
      intros w m Hw. exists (if m then 32%N else w), (c :: collapse_ws None s).
      split; [reflexivity|]. split; [destruct m; [reflexivity|exact Hw]|].
      split; [exact Ec|]. split; assumption.
Qed.

(** [X29] What is read when auto-read is switched on. The text of the
    message list with every run of two or more white-space characters
    replaced by one space holds no two white-space characters in a row and
    the same visible characters in the same order. With no visible
    character nothing is read; otherwise, with the engine there, the text
    read is that text trimmed, it is not empty, and it replaces what the
    engine was saying. *)
Theorem readVisible_text (visible : jsstring) (s : State) :
  let text := trim (collapse_ws None visible) in
  no_double_ws (collapse_ws None visible)
  /\ visible_units (collapse_ws None visible) = visible_units visible
  /\ (visible_units visible = [] -> readVisible visible s = s)
  /\ (visible_units visible <> [] -> ttsSupported s = true ->
      text <> []
      /\ utterance (readVisible visible s) = Some (SrcVisible, text)
      /\ spoken (readVisible visible s)
         = spoken s ++ [{| sp_source := SrcVisible; sp_text := text;
                           sp_listening := listening s |}]).
Proof.
  intros text. destruct (collapse_ws_shape visible) as (H1 & H2 & _).
  split; [exact H1|]. split; [exact H2|].
  assert (Hempty : forall l, visible_units l = [] <-> trim l = []).
  { intros l. split.
    - intros H. apply trim_all_ws. apply Forall_forall. intros c Hc.
      destruct (isWS c) eqn:E; [reflexivity|].
      assert (Hin : In c (visible_units l)).
      { unfold visible_units. apply filter_In. rewrite E. auto. }
      rewrite H in Hin. destruct Hin.
    - intros H. destruct (visible_units l) as [|c r] eqn:E; [reflexivity|].
      assert (Hin : In c (visible_units l)) by (rewrite E; left; reflexivity).
      unfold visible_units in Hin. apply filter_In in Hin. destruct Hin as [Hin Hc].
      exfalso.
      assert (Hv : visible_units (trim l) = visible_units l).
      { unfold trim.
        destruct (trimEnd_split (trimStart l)) as [w2 [E2 Hw2]].
        destruct (dropWhile_split isWS l) as [w1 [E1 Hw1]].
        fold (trimStart l) in E1.
        assert (Hf : forall w, Forall (fun c => isWS c = true) w -> visible_units w = []).
        { induction 1 as [|x w Hx _ IHw]; [reflexivity|].
          unfold visible_units in *. cbn [filter]. rewrite Hx. exact IHw. }
        rewrite E1 at 2. rewrite E2 at 2.
        unfold visible_units in *. rewrite !filter_app.
        rewrite (Hf w1 Hw1), (Hf w2 Hw2), app_nil_r. reflexivity. }
      rewrite H in Hv. rewrite E in Hv. discriminate Hv. }
  split.
  - intros Hv. unfold readVisible.
    rewrite <- H2 in Hv. apply Hempty in Hv. rewrite Hv. reflexivity.
  - intros Hv Ht.
    assert (Hne : text <> []).
    { subst text. intros E. apply Hempty in E. rewrite H2 in E. contradiction. }
    split; [exact Hne|].
    unfold readVisible, speak. fold text. rewrite Ht.
    destruct text as [|c t]; [contradiction|]. cbn. split; reflexivity.
Qed.

(** ** Dictation *)

Lemma session_snoc batches results s :
  session (batches ++ [results]) s = rec_onresult results (session batches s).
Proof. unfold session. rewrite fold_left_app. reflexivity. Qed.

Lemma session_fields batches s :
  finalTranscript (session batches s) = List.concat (map finals_of batches)
  /\ core (session batches s) = core s
  /\ hush (session batches s) = hush s
  /\ timers (session batches s) = timers s.
Proof.
  induction batches as [|results batches IH] using rev_ind.
  - repeat split; reflexivity.
  - rewrite session_snoc. destruct IH as (H1 & H2 & H3 & H4).
    unfold rec_onresult. cbv zeta.
    cbn [finalTranscript set_message set_finalTranscript].
    rewrite H1, map_app, concat_app. cbn [map List.concat]. rewrite app_nil_r.
    split; [reflexivity|]. split; [exact H2|]. split; [exact H3|exact H4].
Qed.

(** [X30] What dictation writes into the input. In a recognition session
    the buffer holds the final pieces of all results so far, in order;
    after a result the input is the buffer, a space and the pieces of that
    result that are not final, trimmed: it replaces what was typed, it
    neither begins nor ends with white space, and without such pieces it is
    the buffer trimmed. Dictation sends nothing, says nothing and sets no
    timer of its own. *)
Theorem dictation_transcript (batches : list (list (jsstring * bool)))
        (results : list (jsstring * bool)) (s : State) :
  let s' := session (batches ++ [results]) s in
  finalTranscript s' = List.concat (map finals_of batches) ++ finals_of results
  /\ message s' = trim (finalTranscript s' ++ lit " " ++ interim_of results)
  /\ trim (message s') = message s'
  /\ (interim_of results = [] -> message s' = trim (finalTranscript s'))
  /\ messages s' = messages s /\ requests s' = requests s
  /\ spoken s' = spoken s /\ timers s' = timers s.
Proof.
  intros s'. subst s'. rewrite session_snoc.
  destruct (session_fields batches s) as (H1 & H2 & H3 & H4).
  unfold rec_onresult. cbv zeta.
  cbn [finalTranscript message set_message set_finalTranscript messages requests
       spoken timers].
  fold (finals_of results). fold (interim_of results). rewrite H1.
  unfold core in H2. injection H2 as E1 _ E3 _ _ _ _.
  unfold hush in H3. injection H3 as E4 _.
  split; [reflexivity|]. split; [reflexivity|]. split; [apply trim_idem|].
  split; [|auto].
  intros Hi. rewrite Hi.
  set (ft := List.concat (map finals_of batches) ++ finals_of results).
  unfold trim.
  assert (Hs : forall a w, Forall (fun c => isWS c = true) w ->
                 trimEnd (a ++ w) = trimEnd a).
  { intros a w Hw. unfold trimEnd. rewrite rev_app_distr, dropWhile_app.
    rewrite (dropWhile_all isWS (rev w)) by (apply Forall_rev; exact Hw).
    reflexivity. }
  destruct (trimStart ft) as [|c t] eqn:Ef.
  - assert (Hall : trimStart (ft ++ lit " " ++ []) = []).
    { unfold trimStart in *. rewrite dropWhile_app, Ef. reflexivity. }
    rewrite Hall. reflexivity.
  - assert (Hst : trimStart (ft ++ lit " " ++ []) = (c :: t) ++ lit " ").
    { rewrite app_nil_r. rewrite trimStart_app_visible by (rewrite Ef; discriminate).
      rewrite Ef. reflexivity. }
    rewrite Hst. apply Hs. repeat constructor.
Qed.

(** ** Lists of bullet lines *)

Lemma bullet_of_spec (body line : jsstring) :
  bullet_of body line -> is_bullet line = true /\ bullet_item line = body
                         /\ h3_capture line = None.
Proof.
  intros (w & Hne & Hw & Hb & ->).
  destruct w as [|x w]; [contradiction|]. inversion Hw as [|? ? Hx Hw']; subst.
  split; [cbn; rewrite Hx; reflexivity|]. split; [|reflexivity].
  unfold bullet_item. cbn [tl].
  change (x :: w ++ body) with ((x :: w) ++ body).
  rewrite dropWhile_app, (dropWhile_all isWS (x :: w) Hw).
  destruct body as [|c body]; [reflexivity|]. cbn [hd_ws] in Hb.
  apply dropWhile_head. exact Hb.
Qed.

Lemma takeWhile_dropWhile (p : char -> bool) (s : jsstring) :
  takeWhile p s ++ dropWhile p s = s.
Proof.
  induction s as [|c s IH]; [reflexivity|]. cbn.
  destruct (p c); [cbn; rewrite IH|]; reflexivity.
Qed.

Lemma takeWhile_Forall (p : char -> bool) (s : jsstring) :
  Forall (fun c => p c = true) (takeWhile p s).
Proof.
  induction s as [|c s IH]; [constructor|]. cbn.
  destruct (p c) eqn:E; [constructor; assumption|constructor].
Qed.

Lemma not_bullet_spec (line : jsstring) : not_bullet line -> is_bullet line = false.
Proof.
  intros H. destruct (is_bullet line) eqn:E; [|reflexivity]. exfalso.
  destruct line as [|c [|x t]]; try discriminate E. cbn in E.
  apply andb_true_iff in E. destruct E as [Ec Ex]. apply N.eqb_eq in Ec. subst c.
  apply (H (dropWhile isWS (x :: t))).
  exists (takeWhile isWS (x :: t)). split.
  - cbn. rewrite Ex. discriminate.
  - split; [apply takeWhile_Forall|]. split.
    + destruct (dropWhile isWS (x :: t)) as [|d r] eqn:Ed; [reflexivity|].
      cbn [hd_ws]. exact (dropWhile_head_false isWS _ _ _ Ed).
    + rewrite takeWhile_dropWhile. reflexivity.
Qed.

(** One line of the loops: the nodes it closes and the bullets that stay
    open, whatever follows. *)
Lemma md_go_line (line : jsstring) (i : nat) (items : list (list seg)) :
  is_bullet line = false ->
  exists n, forall rest,
    md_go i items (line :: rest)
    = match items with
      | [] => []
      | _ => [UL i (rev items)]
      end ++ n :: md_go (S i) [] rest.
Proof.
  intros Hb.
  exists (match h3_capture line with
          | Some title => H3 i (renderInlineBold title)
          | None => if is_empty (trim line) then Br i else P i (renderInlineBold line)
          end).
  intros rest. cbn [md_go]. rewrite Hb.
  destruct items; destruct (h3_capture line); destruct (is_empty (trim line)); reflexivity.
Qed.

(** A run of bullet lines only adds to the bullets that are open. *)
Lemma md_go_bullets (bodies : list jsstring) : forall bs i items rest,
  Forall2 bullet_of bodies bs ->
  md_go i items (bs ++ rest)
  = md_go (i + List.length bs) (rev (map renderInlineBold bodies) ++ items) rest.
Proof.
  induction bodies as [|body bodies IH]; intros bs i items rest H.
  - inversion H; subst. cbn. rewrite Nat.add_0_r. reflexivity.
  - inversion H as [|? l ? bs' Hl Hrest]; subst.
    destruct (bullet_of_spec body l Hl) as (Hb & Hi & Hh).
    cbn [app md_go]. rewrite Hb, Hh, Hi.
    assert (E : md_go (S i) (renderInlineBold body :: items) (bs' ++ rest)
                = md_go (i + List.length (l :: bs'))
                    (rev (map renderInlineBold (body :: bodies)) ++ items) rest).
    { rewrite (IH bs' (S i) (renderInlineBold body :: items) rest Hrest).
      cbn [List.length map rev]. rewrite <- app_assoc. cbn [app].
      replace (i + S (List.length bs'))%nat with (S i + List.length bs')%nat by lia.
      reflexivity. }
    destruct items; exact E.
Qed.

(** A line that is no bullet, or the end of the text, closes the list. *)
Lemma md_go_close (i : nat) (items : list (list seg)) (rest : list jsstring) :
  items <> [] -> is_bullet (hd [] rest) = false ->
  md_go i items rest = UL i (rev items) :: md_go i [] rest.
Proof.
  intros Hne Hb. destruct items as [|it items]; [contradiction|].
  destruct rest as [|line rest]; [reflexivity|].
  cbn [hd] in Hb. cbn [md_go]. rewrite Hb. reflexivity.
Qed.

(** After a line that is no bullet the rendering starts afresh. *)
Lemma md_go_app (pre : list jsstring) : forall i items rest,
  pre <> [] -> is_bullet (last pre []) = false ->
  md_go i items (pre ++ rest) = md_go i items pre ++ md_go (i + List.length pre) [] rest.
Proof.
  induction pre as [|p pre IH]; intros i items rest Hne Hlast; [contradiction|].
  destruct pre as [|q pre].
  - cbn [last] in Hlast. destruct (md_go_line p i items Hlast) as [n Hn].
    cbn [app]. rewrite (Hn rest), (Hn []). cbn [md_go List.length].
    rewrite <- app_assoc. cbn [app].
    replace (i + 1)%nat with (S i) by lia. reflexivity.
  - assert (Hl : is_bullet (last (q :: pre) []) = false) by exact Hlast.
    assert (Hstep : exists nodes items',
               forall X, md_go i items (p :: X) = nodes ++ md_go (S i) items' X).
    { destruct (is_bullet p) eqn:Hb.
      - destruct items as [|it items].
        + destruct (h3_capture p) as [title|] eqn:Hh.
          * exists [H3 i (renderInlineBold title)], []. intros X. cbn [md_go].
            rewrite Hh. reflexivity.
          * exists [], [renderInlineBold (bullet_item p)]. intros X. cbn [md_go].
            rewrite Hh, Hb. reflexivity.
        + exists [], (renderInlineBold (bullet_item p) :: it :: items). intros X.
          cbn [md_go]. rewrite Hb. reflexivity.
      - destruct (md_go_line p i items Hb) as [n Hn].
        exists (match items with [] => [] | _ => [UL i (rev items)] end ++ [n]), [].
        intros X. rewrite (Hn X), <- app_assoc. reflexivity. }
    destruct Hstep as (nodes & items' & Hstep).
    change ((p :: q :: pre) ++ rest) with (p :: ((q :: pre) ++ rest)).
    rewrite (Hstep ((q :: pre) ++ rest)), (Hstep (q :: pre)).
    rewrite (IH (S i) items' rest ltac:(discriminate) Hl).
    rewrite <- app_assoc. cbn [List.length].
    replace (i + S (S (List.length pre)))%nat with (S i + S (List.length pre))%nat by lia.
    reflexivity.
Qed.

(** [X4] Consecutive bullet lines make one list. When the lines of the
    text are some lines that do not end with a bullet line, then a run of
    bullet lines (an asterisk, white space, the text of the item), then
    lines that do not begin with a bullet line, renderMarkdown gives the
    rendering of the lines before, then one list whose items are the texts
    of the bullet lines of the run, in order and without the asterisk and
    the white space after it, keyed by the index of the line after the run,
    then the rendering of the lines after. So renderMarkdown never puts two
    lists next to each other, and every list has an item. *)
Theorem renderMarkdown_lists (text : jsstring) :
  no_adjacent_lists (renderMarkdown text)
  /\ Forall list_not_empty (renderMarkdown text)
  /\ forall (pre bs rest bodies : list jsstring),
       split_lines text = pre ++ bs ++ rest ->
       bodies <> [] -> Forall2 bullet_of bodies bs ->
       not_bullet (last pre []) -> not_bullet (hd [] rest) ->
       renderMarkdown text
       = md_go 0 [] pre
         ++ UL (List.length pre + List.length bs) (map renderInlineBold bodies)
         :: md_go (List.length pre + List.length bs) [] rest.
Proof.
  split; [|split].
  { unfold renderMarkdown.
    destruct (md_go_shape (split_lines text) 0 []) as (A & _). exact A. }
  { unfold renderMarkdown.
    destruct (md_go_shape (split_lines text) 0 []) as (_ & B & _). exact B. }
  intros pre bs rest bodies Hs Hne Hb Hpre Hrest.
  apply not_bullet_spec in Hpre. apply not_bullet_spec in Hrest.
  unfold renderMarkdown. rewrite Hs.
  assert (Hrun : forall i,
             md_go i [] (bs ++ rest)
             = UL (i + List.length bs) (map renderInlineBold bodies)
               :: md_go (i + List.length bs) [] rest).
  { intros i. rewrite (md_go_bullets bodies bs i [] rest Hb), app_nil_r.
    rewrite md_go_close; [rewrite rev_involutive; reflexivity| |exact Hrest].
    destruct bodies; [contradiction|]. cbn [map rev].
    intros E. apply (f_equal (@List.length _)) in E. rewrite length_app in E.
    cbn in E. lia. }
  destruct pre as [|p pre].
  - cbn [app md_go List.length]. exact (Hrun 0%nat).
  - rewrite (md_go_app (p :: pre) 0 [] (bs ++ rest) ltac:(discriminate) Hpre).
    rewrite Hrun. reflexivity.
Qed.

(** A paragraph, two bullets, a blank line and a paragraph. *)
Lemma renderMarkdown_lists_witness :
  renderMarkdown (lit "Plan:" ++ [LF] ++ lit "* **Rome**" ++ [CR; LF]
                  ++ lit "*   Pisa" ++ [LF; LF] ++ lit "Bye")
  = [P 0 [Text (lit "Plan:")];
     UL 3 [[Strong (lit "Rome")]; [Text (lit "Pisa")]];
     Br 3;
     P 4 [Text (lit "Bye")]].
Proof.
  destruct (renderMarkdown_lists
              (lit "Plan:" ++ [LF] ++ lit "* **Rome**" ++ [CR; LF]
               ++ lit "*   Pisa" ++ [LF; LF] ++ lit "Bye")) as (_ & _ & H).
  rewrite (H [lit "Plan:"] [lit "* **Rome**"; lit "*   Pisa"] [[]; lit "Bye"]
             [lit "**Rome**"; lit "Pisa"]).
  - vm_compute. reflexivity.
  - vm_compute. reflexivity.
  - discriminate.
  - constructor; [|constructor; [|constructor]].
    + exists (lit " "). repeat split; [discriminate|repeat constructor].
    + exists (lit "   "). repeat split; [discriminate|repeat constructor].
  - intros body (w & _ & _ & _ & E). discriminate E.
  - intros body (w & _ & _ & _ & E). discriminate E.
Defined.
